(** * chrome-capture-for-kayo: a shallow embedding of [main.js]

    The development follows the layout of the program: the transcoder
    subprocess wrapper, the channel table and the tuner endpoints, the
    stream route, the channel target resolver, the admission controller
    and the two stream handlers running on one event loop.

    JavaScript numbers that the program only uses as integers (exit
    codes, guide numbers, the stream counter, HTTP statuses) are [Z];
    layout coordinates, which the program adds and halves, are binary64
    floating-point numbers, as in JavaScript; strings are Rocq strings,
    read as sequences of ASCII code units. *)

From Stdlib Require Import ZArith QArith String Ascii List Bool Sorted Permutation.
From Stdlib Require Import DecimalString.
From Stdlib Require PrimFloat.
From stdpp Require Import gmap list.

Import ListNotations.
Local Open Scope Z_scope.
Local Open Scope string_scope.

(** ** JavaScript helpers *)

Module Js.

(** [String.prototype.toLowerCase] on ASCII code units: the letters A
    to Z are folded, every other code unit is kept.  This is what
    JavaScript does to a string of ASCII characters; what is stated
    below about keys that are lowercased is stated of such strings. *)
Definition lowerAscii (c : ascii) : ascii :=
  let n := nat_of_ascii c in
  if ((65 <=? n)%nat && (n <=? 90)%nat)%bool then ascii_of_nat (n + 32) else c.

Fixpoint toLowerCase (s : string) : string :=
  match s with
  | EmptyString => EmptyString
  | String c r => String (lowerAscii c) (toLowerCase r)
  end.

(** [s.includes(sub)]. *)
Definition includes (s sub : string) : bool :=
  match String.index 0 sub s with
  | Some _ => true
  | None => false
  end.

(** Truthiness of a string: every string but the empty one. *)
Definition truthy (s : string) : bool :=
  match s with
  | EmptyString => false
  | String _ _ => true
  end.

(** [Array.prototype.join]. *)
Fixpoint join (sep : string) (l : list string) : string :=
  match l with
  | [] => ""
  | [x] => x
  | x :: r => x ++ sep ++ join sep r
  end.

(** [String(n)] for an integral number. *)
Definition String_of_number (n : Z) : string :=
  NilZero.string_of_int (Z.to_int n).

(** The array index denoted by a property key, if the key is a canonical
    numeric string below 2^32 - 1. *)
Definition digitValue (c : ascii) : option N :=
  let n := N_of_ascii c in
  if ((48 <=? n)%N && (n <=? 57)%N)%bool then Some (n - 48)%N else None.

Fixpoint digitsValue (acc : N) (s : string) : option N :=
  match s with
  | EmptyString => Some acc
  | String c r =>
      match digitValue c with
      | Some d => digitsValue (acc * 10 + d)%N r
      | None => None
      end
  end.

Definition arrayIndex (key : string) : option N :=
  match key with
  | EmptyString => None
  | String c r =>
      match digitsValue 0%N key with
      | Some n =>
          if (String.eqb key "0" || negb (Ascii.eqb c "0"))%bool
          then if (n <? 4294967295)%N then Some n else None
          else None
      | None => None
      end
  end.

(** [Array.prototype.sort(cmp)]: the stable sort by a comparator whose
    sign orders the elements. *)
Section Sort.
Context {A : Type} (cmp : A -> A -> Z).

Fixpoint insertSorted (x : A) (l : list A) : list A :=
  match l with
  | [] => [x]
  | y :: r => if (cmp x y <=? 0)%Z then x :: y :: r else y :: insertSorted x r
  end.

Fixpoint sort (l : list A) : list A :=
  match l with
  | [] => []
  | x :: r => insertSorted x (sort r)
  end.

End Sort.

(** Own keys of an object literal in [Object.keys] order: array-index
    keys in ascending numeric order, then the other keys in the order of
    the literal. *)
Section ObjectKeys.
Context {V : Type}.

Definition indexKeys (o : list (string * V)) : list (N * string) :=
  flat_map (fun kv => match arrayIndex (fst kv) with
                      | Some n => [(n, fst kv)]
                      | None => []
                      end) o.

Definition nameKeys (o : list (string * V)) : list string :=
  flat_map (fun kv => match arrayIndex (fst kv) with
                      | Some _ => []
                      | None => [fst kv]
                      end) o.

Definition Object_keys (o : list (string * V)) : list string :=
  map snd (sort (fun a b => Z.of_N (fst a) - Z.of_N (fst b)) (indexKeys o))
    ++ nameKeys o.

(** Own property lookup. *)
Fixpoint getOwn (o : list (string * V)) (key : string) : option V :=
  match o with
  | [] => None
  | (k, v) :: r => if String.eqb k key then Some v else getOwn r key
  end.

End ObjectKeys.

(** The properties every object literal inherits from [Object.prototype]. *)
Definition Object_prototype : list string :=
  [ "constructor"; "__defineGetter__"; "__defineSetter__"; "hasOwnProperty";
    "__lookupGetter__"; "__lookupSetter__"; "isPrototypeOf";
    "propertyIsEnumerable"; "toString"; "valueOf"; "__proto__";
    "toLocaleString" ].

(** The value of [o[key]] for an object literal [o]: an own property, a
    member of [Object.prototype] found through the prototype chain, or
    [undefined]. *)
Inductive Property (V : Type) : Type :=
| Own (v : V)
| Inherited (name : string)
| Undefined.
Arguments Own {V} v.
Arguments Inherited {V} name.
Arguments Undefined {V}.

Definition get {V : Type} (o : list (string * V)) (key : string) : Property V :=
  match getOwn o key with
  | Some v => Own v
  | None =>
      if existsb (String.eqb key) Object_prototype then Inherited key else Undefined
  end.

End Js.

(** ** FFmpeg MPEG-TS transcoder: [spawnMpegTsTranscoder] *)

Module Transcoder.

(** The error handed to [onError]. *)
Inductive Error :=
| ExitedWithCode (code : Z)
| KilledBySignal (signal : string)
| SpawnError (message : string).

(** The closure state of one spawned transcoder: [shuttingDown] and
    [ffmpeg.killed]. *)
Record Proc := { shuttingDown : bool; killed : bool }.

Definition spawned : Proc := {| shuttingDown := false; killed := false |}.

(** [ffmpeg.on('exit', function (code, signal) ...)]: the argument of
    [onError] if it is called. *)
Definition isSIGTERM (signal : option string) : bool :=
  match signal with
  | Some s => String.eqb s "SIGTERM"
  | None => false
  end.

Definition onExit (p : Proc) (code : option Z) (signal : option string) : option Error :=
  if shuttingDown p then None
  else if isSIGTERM signal then None
  else
    let otherwise :=
      match signal with
      | Some s => if Js.truthy s then Some (KilledBySignal s) else None
      | None => None
      end in
    match code with
    | Some c => if (c =? 0)%Z then otherwise else Some (ExitedWithCode c)
    | None => otherwise
    end.

(** [ffmpeg.on('error', ...)]. *)
Definition onProcessError (p : Proc) (message : string) : option Error :=
  if shuttingDown p then None else Some (SpawnError message).

(** [kill]: returns the new closure state and whether SIGTERM was sent.
    [ffmpeg.killed] is set as Node sets it when the signal is delivered;
    the handlers call [kill] once per transcoder. *)
Definition kill (p : Proc) : Proc * bool :=
  ({| shuttingDown := true; killed := true |}, negb (killed p)).

End Transcoder.

(** ** Channel table and tuner endpoints *)

Module Tuner.

Record Channel := {
  url : string;
  slug : string;
  name : string;
  number : Z
}.

Definition kayo (slug name : string) (number : Z) : Channel :=
  {| url := "https://kayosports.com.au/browse"; slug := slug; name := name;
     number := number |}.

(** The [CHANNELS] literal, in source order. *)
Definition CHANNELS : list (string * Channel) :=
  [ ("espn", kayo "5bce8eb9e4b0a8faf3c14a94" "ESPN" 509);
    ("footy", kayo "5bcefacfe4b0a8faf3c14ae2" "Fox Footy" 504);
    ("cricket", kayo "5bcef5ede4b0a8faf3c14acf" "Fox Cricket" 501);
    ("505", kayo "5bcefaf5e4b0cb6f1d7f46fc" "Fox Sports 505" 505);
    ("503", kayo "5bcef93ae4b0a8faf3c14ada" "Fox Sports 503" 503);
    ("506", kayo "5bcefc4ae4b0a8faf3c14aed" "Fox Sports 506" 506);
    ("league", kayo "5bcef901e4b0cb6f1d7f46f3" "Fox League" 502);
    ("news", kayo "5bcefccee4b0a8faf3c14aef" "Fox Sports News" 500);
    ("racing", kayo "5ccacc4ae4b020d0a4eb3979" "Racing.com" 529);
    ("ufc", kayo "66d524f4e4b06b17c2bfdd58" "Main Event UFC" 523);
    ("espn2", kayo "5bcef583e4b0a8faf3c14acb" "ESPN2" 510);
    ("507", kayo "5bcefc6be4b0cb6f1d7f4703" "Fox Sports 507" 507) ].

(** The endpoints below read the table they are given, so that their
    properties can be stated for every table; the server passes
    [CHANNELS]. *)
Section Endpoints.
Variable chs : list (string * Channel).
Variables protocol host : string.

Record LineupItem := {
  GuideNumber : string;
  GuideName : string;
  URL : string
}.

(** [ch.number] and [ch.name] of [chs[key]]; a key without an own
    channel yields [undefined] fields, rendered as JavaScript does. *)
Definition numberText (key : string) : string :=
  match Js.getOwn chs key with
  | Some ch => Js.String_of_number (number ch)
  | None => "undefined"
  end.

Definition nameText (key : string) : string :=
  match Js.getOwn chs key with
  | Some ch => name ch
  | None => "undefined"
  end.

Definition streamUrl (key : string) : string :=
  protocol ++ "://" ++ host ++ "/stream/" ++ key.

(** [app.get('/lineup.json')]. *)
Definition lineupItem (channelKey : string) : LineupItem :=
  {| GuideNumber := numberText channelKey;
     GuideName := nameText channelKey;
     URL := streamUrl channelKey |}.

Definition lineup : list LineupItem :=
  map lineupItem (Js.Object_keys chs).

(** The comparator of the playlist sort:
    [CHANNELS[a].number - CHANNELS[b].number]. *)
Definition numberOf (key : string) : Z :=
  match Js.getOwn chs key with
  | Some ch => number ch
  | None => 0
  end.

Definition byNumber (a b : string) : Z := numberOf a - numberOf b.

Definition playlistOrder : list string :=
  Js.sort byNumber (Js.Object_keys chs).

Definition dquote : string := String (ascii_of_nat 34) EmptyString.
Definition newline : string := String (ascii_of_nat 10) EmptyString.

(** One [#EXTINF] entry of [app.get('/playlist.m3u')]. *)
Definition playlistEntry (k : string) : string :=
  "#EXTINF:-1 channel-id=" ++ dquote ++ "kayo-" ++ k ++ dquote
    ++ " tvg-chno=" ++ dquote ++ numberText k ++ dquote
    ++ " tvg-name=" ++ dquote ++ nameText k ++ dquote
    ++ "," ++ nameText k ++ newline ++ streamUrl k.

Definition playlistEntries : list string := map playlistEntry playlistOrder.

Definition playlist_m3u : string :=
  "#EXTM3U" ++ newline ++ newline ++ Js.join (newline ++ newline) playlistEntries.

End Endpoints.

(** [app.get('/stream/:channelName')] up to the call of
    [handleChannelStream]. *)
Inductive RouteResult :=
| Respond (status : Z) (body : string)
| Dispatch (channel : Js.Property Channel) (channelName : string).

Definition streamRoute (param : string) : RouteResult :=
  let channelName := Js.toLowerCase param in
  match Js.get CHANNELS channelName with
  | Js.Undefined =>
      Respond 404 ("Channel not found. Available channels: "
                     ++ Js.join ", " (Js.Object_keys CHANNELS))
  | channel => Dispatch channel channelName
  end.

End Tuner.

(** ** Channel target resolver: [tileClickDirectStrategy] *)

Module Resolver.

Import PrimFloat.

(** A [DOMRect] and the point handed to [page.mouse.click]: JavaScript
    numbers, that is binary64 floating-point numbers with their own
    addition, division and comparison. *)
Record Rect := { x : float; y : float; width : float; height : float }.
Record Point := { px : float; py : float }.

(** A DOM element: its identity, tag name, [src] property, attributes
    and child elements. *)
#[warnings="-register-all"]
Inductive Element :=
| El (eid : nat) (tagName : string) (src : string)
     (attrs : list (string * string)) (children : list Element).

Definition eid (e : Element) : nat := let (i, _, _, _, _) := e in i.
Definition tagName (e : Element) : string := let (_, t, _, _, _) := e in t.
Definition src (e : Element) : string := let (_, _, u, _, _) := e in u.
Definition attrs (e : Element) : list (string * string) := let (_, _, _, a, _) := e in a.
Definition children (e : Element) : list Element := let (_, _, _, _, c) := e in c.

(** A document: its root element and the identity of [document.body]. *)
Record Document := { documentElement : Element; body : nat }.

Definition getAttribute (e : Element) (a : string) : option string := Js.getOwn (attrs e) a.
Definition hasAttribute (e : Element) (a : string) : bool :=
  match getAttribute e a with Some _ => true | None => false end.

(** [document.querySelectorAll('img')] in document order, each image
    with its chain of ancestors, nearest first (the [parentElement]
    links). *)
Fixpoint imagesUnder (ancestors : list Element) (e : Element) : list (Element * list Element) :=
  match e with
  | El _ tag _ _ cs =>
      (if String.eqb tag "IMG" then [(e, ancestors)] else [])
        ++ flat_map (imagesUnder (e :: ancestors)) cs
  end.

Definition images (d : Document) : list (Element * list Element) :=
  imagesUnder [] (documentElement d).

(** [img.src && img.src.includes(slug)]. *)
Definition matches (slug : string) (img : Element) : bool :=
  Js.truthy (src img) && Js.includes (src img) slug.

(** The test for a semantically clickable element. *)
Definition semantic (e : Element) : bool :=
  String.eqb (tagName e) "A"
  || String.eqb (tagName e) "BUTTON"
  || match getAttribute e "role" with Some r => String.eqb r "button" | None => false end
  || hasAttribute e "onclick".

(** The comparison [a > b] of two numbers; it is false when one of
    them is [NaN]. *)
Definition gt (a b : float) : bool := PrimFloat.ltb b a.

(** [rect.width > 0 && rect.height > 0]. *)
Definition nonEmpty (r : Rect) : bool := gt (width r) 0 && gt (height r) 0.

(** [rect.width > 20 && rect.height > 20]. *)
Definition largeEnough (r : Rect) : bool := gt (width r) 20 && gt (height r) 20.

(** [{ x: rect.x + rect.width / 2, y: rect.y + rect.height / 2 }]. *)
Definition center (r : Rect) : Point :=
  {| px := x r + width r / 2; py := y r + height r / 2 |}.

Record Result := { success : bool; reason : option string }.

(** The layout engine of the page is a parameter: a layout state (scroll
    offsets and whatever else positions depend on), the effect of
    [scrollIntoView] on it, and the readings [getBoundingClientRect] and
    [getComputedStyle(e).cursor] in it.  Elements are named by [eid]. *)
Section Layout.
Variable Layout : Type.
Variable scrollIntoView : nat -> Layout -> Layout.
Variable getBoundingClientRect : Layout -> nat -> Rect.
Variable cursor : Layout -> nat -> string.

(** The test for the pointer fallback. *)
Definition pointerCandidate (L : Layout) (e : Element) : bool :=
  largeEnough (getBoundingClientRect L (eid e))
  && String.eqb (cursor L (eid e)) "pointer".

(** The [while (ancestor && ancestor !== document.body)] loop: the
    returned point if the loop returns, else the fallback it recorded. *)
Fixpoint walk (bodyId : nat) (ancestors : list Element) (pointerFallback : option Element)
         (L : Layout) : option Point * option Element * Layout :=
  match ancestors with
  | [] => (None, pointerFallback, L)
  | ancestor :: up =>
      if Nat.eqb (eid ancestor) bodyId then (None, pointerFallback, L)
      else
        let L1 := if semantic ancestor then scrollIntoView (eid ancestor) L else L in
        if semantic ancestor && nonEmpty (getBoundingClientRect L1 (eid ancestor))
        then (Some (center (getBoundingClientRect L1 (eid ancestor))), pointerFallback, L1)
        else
          let fallback :=
            match pointerFallback with
            | Some f => Some f
            | None => if pointerCandidate L1 ancestor then Some ancestor else None
            end in
          walk bodyId up fallback L1
  end.

(** The body of the [for] loop for one matching image. *)
Definition tileOf (bodyId : nat) (ancestors : list Element) (L : Layout)
  : option Point * Layout :=
  match walk bodyId ancestors None L with
  | (Some p, _, L1) => (Some p, L1)
  | (None, Some f, L1) =>
      let L2 := scrollIntoView (eid f) L1 in
      if nonEmpty (getBoundingClientRect L2 (eid f))
      then (Some (center (getBoundingClientRect L2 (eid f))), L2)
      else (None, L2)
  | (None, None, L1) => (None, L1)
  end.

(** The function evaluated in the page: [tileTarget]. *)
Fixpoint findTile (slug : string) (bodyId : nat) (imgs : list (Element * list Element))
         (L : Layout) : option Point * Layout :=
  match imgs with
  | [] => (None, L)
  | (img, ancestors) :: rest =>
      if matches slug img then
        match tileOf bodyId ancestors L with
        | (Some p, L1) => (Some p, L1)
        | (None, L1) => findTile slug bodyId rest L1
        end
      else findTile slug bodyId rest L
  end.

(** [tileClickDirectStrategy(page, channelSlug)]: the result, the
    [page.mouse.click] calls issued, and the layout left behind. *)
Definition tileClickDirectStrategy (d : Document) (channelSlug : string) (L : Layout)
  : Result * list Point * Layout :=
  match findTile channelSlug (body d) (images d) L with
  | (None, L1) =>
      ({| success := false; reason := Some "Channel tile not found in page images." |}, [], L1)
  | (Some tileTarget, L1) =>
      ({| success := true; reason := None |}, [tileTarget], L1)
  end.

End Layout.

(** The ancestors the loop visits: those below [document.body]. *)
Fixpoint belowBody (bodyId : nat) (ancestors : list Element) : list Element :=
  match ancestors with
  | [] => []
  | a :: up => if Nat.eqb (eid a) bodyId then [] else a :: belowBody bodyId up
  end.

End Resolver.

(** ** The stream handlers on the event loop *)

Module Server.

Local Open Scope list_scope.
Local Open Scope Z_scope.

Definition MAX_CONCURRENT_STREAMS : Z := 2.
Definition QUEUE_WAIT_MS : Z := 5000.

(** Which handler a session runs: [handleChannelStream] or
    [handleGenericStream]. *)
Inductive Kind := ChannelStream | GenericStream.

(** The promise of [waitForStreamSlot] as its caller sees it: pending in
    the queue with its timer armed, or settled with the continuation of
    the caller's [await] not yet run. *)
Inductive Slot := Queued (timeoutMs : Z) | Settled (admitted : bool).

(** Where a handler is suspended.  [Piping]: the handler has returned
    with the capture wired to the response.  [Returned]: it has returned
    after a failure. *)
Inductive Pc :=
| AcquiringPage
| Navigating
| StartingCapture
| WaitingSlot (w : Slot)
| SelectingChannel
| VerifyingPlayback
| TogglingFullscreen
| Piping
| Returned.

(** The local variables of one handler invocation, with the two flags
    kept on its [cleanup] closure. *)
Record Session := {
  kind : Kind;
  channel : Js.Property Tuner.Channel;
  pc : Pc;
  page : option nat;
  stream : bool;
  ffmpegProcess : option Transcoder.Proc;
  done_ : bool;
  countedStream : bool
}.

(** The pipeline operations and the pipeline states of the design. *)
Inductive Op :=
| AcquirePage | Navigate | StartCapture | Admission | SelectChannel
| VerifyPlayback | Pipe.

Inductive Stage :=
| PageAcquired | Navigated | CaptureStarted | SlotAcquired | ChannelSelected
| PlaybackVerified | PipingStage.

Inductive Mark := Began (op : Op) | Entered (st : Stage).

(** What the server does that can be observed: marks of a session's
    progress, responses, and the actions of [cleanup]. *)
Inductive Effect :=
| Progress (i : nat) (m : Mark)
| Rejected (status : Z) (body : string)
| Responded (i : nat) (status : Z) (body : string)
| Enqueued (i : nat)
| CleanupRan (i : nat) (reason : string)
| Killed (i : nat)
| Destroyed (i : nat)
| Decremented (i : nat)
| Notified (i : nat)
| Woke (w : nat)
| PageClosed (i : nat) (p : nat).

(** The module-level variables and the live handler invocations.  A
    queued [onSlot] closure is named by the session that created it. *)
Record State := {
  activeStreams : Z;
  waiters : list nat;
  currentBrowser : option nat;
  launches : nat;
  pagesInUse : gset nat;
  nextPage : nat;
  sessions : list Session;
  log : list Effect
}.

Definition initial : State :=
  {| activeStreams := 0; waiters := []; currentBrowser := None; launches := 0;
     pagesInUse := ∅; nextPage := 0; sessions := []; log := [] |}.

(** *** Assignments *)

Definition setActiveStreams (n : Z) (s : State) : State :=
  {| activeStreams := n; waiters := waiters s; currentBrowser := currentBrowser s;
     launches := launches s; pagesInUse := pagesInUse s; nextPage := nextPage s;
     sessions := sessions s; log := log s |}.

Definition setWaiters (q : list nat) (s : State) : State :=
  {| activeStreams := activeStreams s; waiters := q; currentBrowser := currentBrowser s;
     launches := launches s; pagesInUse := pagesInUse s; nextPage := nextPage s;
     sessions := sessions s; log := log s |}.

Definition setBrowser (b : option nat) (n : nat) (s : State) : State :=
  {| activeStreams := activeStreams s; waiters := waiters s; currentBrowser := b;
     launches := n; pagesInUse := pagesInUse s; nextPage := nextPage s;
     sessions := sessions s; log := log s |}.

Definition setPages (ps : gset nat) (n : nat) (s : State) : State :=
  {| activeStreams := activeStreams s; waiters := waiters s; currentBrowser := currentBrowser s;
     launches := launches s; pagesInUse := ps; nextPage := n;
     sessions := sessions s; log := log s |}.

Definition setSessions (l : list Session) (s : State) : State :=
  {| activeStreams := activeStreams s; waiters := waiters s; currentBrowser := currentBrowser s;
     launches := launches s; pagesInUse := pagesInUse s; nextPage := nextPage s;
     sessions := l; log := log s |}.

Definition emit (e : Effect) (s : State) : State :=
  {| activeStreams := activeStreams s; waiters := waiters s; currentBrowser := currentBrowser s;
     launches := launches s; pagesInUse := pagesInUse s; nextPage := nextPage s;
     sessions := sessions s; log := log s ++ [e] |}.

(** Assignment to the variables of session [i]. *)
Definition modify (i : nat) (f : Session -> Session) (s : State) : State :=
  setSessions (alter f i (sessions s)) s.

Definition withPc (c : Pc) (x : Session) : Session :=
  {| kind := kind x; channel := channel x; pc := c; page := page x; stream := stream x;
     ffmpegProcess := ffmpegProcess x; done_ := done_ x; countedStream := countedStream x |}.

Definition withPage (p : option nat) (x : Session) : Session :=
  {| kind := kind x; channel := channel x; pc := pc x; page := p; stream := stream x;
     ffmpegProcess := ffmpegProcess x; done_ := done_ x; countedStream := countedStream x |}.

Definition withStream (b : bool) (x : Session) : Session :=
  {| kind := kind x; channel := channel x; pc := pc x; page := page x; stream := b;
     ffmpegProcess := ffmpegProcess x; done_ := done_ x; countedStream := countedStream x |}.

Definition withFfmpeg (f : option Transcoder.Proc) (x : Session) : Session :=
  {| kind := kind x; channel := channel x; pc := pc x; page := page x; stream := stream x;
     ffmpegProcess := f; done_ := done_ x; countedStream := countedStream x |}.

Definition withDone (b : bool) (x : Session) : Session :=
  {| kind := kind x; channel := channel x; pc := pc x; page := page x; stream := stream x;
     ffmpegProcess := ffmpegProcess x; done_ := b; countedStream := countedStream x |}.

Definition withCounted (b : bool) (x : Session) : Session :=
  {| kind := kind x; channel := channel x; pc := pc x; page := page x; stream := stream x;
     ffmpegProcess := ffmpegProcess x; done_ := done_ x; countedStream := b |}.

(** *** Concurrency control *)

(** Settling the pending promise of a queued caller with [b], which
    also disposes of its timer.  Settling a settled promise does
    nothing. *)
Definition settle (b : bool) (x : Session) : Session :=
  match pc x with
  | WaitingSlot (Queued _) => withPc (WaitingSlot (Settled b)) x
  | _ => x
  end.

(** [onSlot] of waiter [w]: [clearTimeout(timer); resolve(true)]. *)
Definition onSlot (w : nat) (s : State) : State := modify w (settle true) s.

(** [notifyStreamSlot]. *)
Definition notifyStreamSlot (s : State) : State :=
  match waiters s with
  | [] => s
  | r :: rest => onSlot r (emit (Woke r) (setWaiters rest s))
  end.

(** [waiters.indexOf(onSlot)] followed by [splice]: removal of the first
    occurrence. *)
Fixpoint removeFirst (i : nat) (q : list nat) : list nat :=
  match q with
  | [] => []
  | j :: r => if Nat.eqb j i then r else j :: removeFirst i r
  end.

(** The timer callback of waiter [i]: leave the queue, [resolve(false)]. *)
Definition onTimeout (i : nat) (s : State) : State :=
  modify i (settle false) (setWaiters (removeFirst i (waiters s)) s).

(** [waitForStreamSlot(timeoutMs)] called by session [i], up to the
    [await] of its caller. *)
Definition waitForStreamSlot (i : nat) (timeoutMs : Z) (s : State) : State :=
  if activeStreams s <? MAX_CONCURRENT_STREAMS
  then modify i (withPc (WaitingSlot (Settled true))) s
  else modify i (withPc (WaitingSlot (Queued timeoutMs)))
         (emit (Enqueued i) (setWaiters (waiters s ++ [i]) s)).

(** [activeStreams++; cleanup._countedStream = true]. *)
Definition takeSlot (i : nat) (s : State) : State :=
  modify i (withCounted true) (setActiveStreams (activeStreams s + 1) s).

(** *** Browser and pages *)

(** [getCurrentBrowser] when the launch succeeds. *)
Definition getCurrentBrowser (s : State) : State :=
  match currentBrowser s with
  | Some _ => s
  | None => setBrowser (Some (launches s)) (S (launches s)) s
  end.

(** [page = await acquirePage()] when it succeeds. *)
Definition acquirePage (i : nat) (s : State) : State :=
  let s1 := getCurrentBrowser s in
  let newPage := nextPage s1 in
  modify i (withPage (Some newPage))
         (setPages ({[newPage]} ∪ pagesInUse s1) (S newPage) s1).

(** [releasePage(page, reason)] called by session [i]. *)
Definition releasePage (i : nat) (p : option nat) (s : State) : State :=
  match p with
  | None => s
  | Some pg => emit (PageClosed i pg) (setPages (pagesInUse s ∖ {[pg]}) (nextPage s) s)
  end.

(** *** Cleanup *)

(** [ffmpegProcess.kill()] in [cleanup]. *)
Definition killTranscoder (i : nat) (x : Session) (s : State) : State :=
  match ffmpegProcess x with
  | None => s
  | Some p =>
      let (p', sent) := Transcoder.kill p in
      let s1 := modify i (withFfmpeg (Some p')) s in
      if sent then emit (Killed i) s1 else s1
  end.

(** The [if (cleanup._countedStream)] block. *)
Definition releaseSlot (i : nat) (s : State) : State :=
  let s1 := modify i (withCounted false) s in
  let s2 := if 0 <? activeStreams s1
            then emit (Decremented i) (setActiveStreams (activeStreams s1 - 1) s1)
            else s1 in
  notifyStreamSlot (emit (Notified i) s2).

(** [cleanup(reason)] of session [i]; both handlers define the same
    closure. *)
Definition cleanup (i : nat) (reason : string) (s : State) : State :=
  match sessions s !! i with
  | None => s
  | Some x =>
      if done_ x then s
      else
        let s1 := emit (CleanupRan i reason) (modify i (withDone true) s) in
        let s2 := killTranscoder i x s1 in
        let s3 := if stream x then emit (Destroyed i) s2 else s2 in
        let s4 := if countedStream x then releaseSlot i s3 else s3 in
        releasePage i (page x) s4
  end.

(** *** The handlers *)

(** What the awaited operation of a handler settles with. *)
Inductive Outcome :=
| Ok
| Threw (e : string)
| NotSelected (reason : string)
| PipeThrew (e : string).

Definition mark (i : nat) (m : Mark) (s : State) : State := emit (Progress i m) s.

Definition goto (i : nat) (c : Pc) (s : State) : State := modify i (withPc c) s.

(** A failing stage: send the response, run [cleanup], return. *)
Definition fail (i : nat) (status : Z) (body reason : string) (s : State) : State :=
  goto i Returned (cleanup i reason (emit (Responded i status body) s)).

(** The block that wires the capture to the response. *)
Definition pipe (mpegts : bool) (i : nat) (s : State) : State :=
  let s1 := mark i (Began Pipe) s in
  let s2 := if mpegts then modify i (withFfmpeg (Some Transcoder.spawned)) s1 else s1 in
  goto i Piping (mark i (Entered PipingStage) s2).

(** The continuation of [handleChannelStream] at each of its [await]s. *)
Definition resumeChannel (mpegts : bool) (i : nat) (x : Session) (o : Outcome) (s : State)
  : State :=
  match pc x, o with
  | AcquiringPage, Ok =>
      goto i Navigating
        (mark i (Began Navigate) (mark i (Entered PageAcquired) (acquirePage i s)))
  | AcquiringPage, Threw e =>
      fail i 500 ("failed to start browser/page: " ++ e) "init failed" s
  | Navigating, Ok =>
      goto i StartingCapture (mark i (Began StartCapture) (mark i (Entered Navigated) s))
  | Navigating, Threw e =>
      fail i 500 ("failed to goto/setup: " ++ e) "goto/setup failed" s
  | StartingCapture, Ok =>
      waitForStreamSlot i QUEUE_WAIT_MS
        (mark i (Began Admission)
           (mark i (Entered CaptureStarted) (modify i (withStream true) s)))
  | StartingCapture, Threw e =>
      fail i 500 ("failed to start capture: " ++ e) "capture failed" s
  | WaitingSlot (Settled false), _ =>
      fail i 429 "Too many concurrent streams (timed out waiting for a slot)"
           "queue timeout" s
  | WaitingSlot (Settled true), _ =>
      goto i SelectingChannel
        (mark i (Began SelectChannel) (mark i (Entered SlotAcquired) (takeSlot i s)))
  | SelectingChannel, Ok =>
      goto i VerifyingPlayback
        (mark i (Began VerifyPlayback) (mark i (Entered ChannelSelected) s))
  | SelectingChannel, NotSelected reason =>
      fail i 500 ("Failed to select channel: " ++ reason) "channel select failed" s
  | SelectingChannel, Threw e =>
      fail i 500 ("Channel selection error: " ++ e) "automation failed" s
  | VerifyingPlayback, Ok =>
      goto i TogglingFullscreen (mark i (Entered PlaybackVerified) s)
  | VerifyingPlayback, Threw e =>
      fail i 500 ("Channel selection error: " ++ e) "automation failed" s
  | TogglingFullscreen, PipeThrew e =>
      fail i 500 ("failed to pipe stream: " ++ e) "pipe failed" (mark i (Began Pipe) s)
  | TogglingFullscreen, _ => pipe mpegts i s
  | _, _ => s
  end.

(** The continuation of [handleGenericStream] at each of its [await]s. *)
Definition resumeGeneric (mpegts : bool) (i : nat) (x : Session) (o : Outcome) (s : State)
  : State :=
  match pc x, o with
  | AcquiringPage, Ok =>
      goto i Navigating
        (mark i (Began Navigate) (mark i (Entered PageAcquired) (acquirePage i s)))
  | AcquiringPage, Threw e => fail i 500 ("failed to goto: " ++ e) "goto failed" s
  | Navigating, Ok =>
      waitForStreamSlot i QUEUE_WAIT_MS
        (mark i (Began Admission) (mark i (Entered Navigated) s))
  | Navigating, Threw e => fail i 500 ("failed to goto: " ++ e) "goto failed" s
  | WaitingSlot (Settled false), _ =>
      fail i 429 "Too many concurrent streams" "queue timeout" s
  | WaitingSlot (Settled true), _ =>
      goto i StartingCapture
        (mark i (Began StartCapture) (mark i (Entered SlotAcquired) (takeSlot i s)))
  | StartingCapture, Ok =>
      pipe mpegts i (mark i (Entered CaptureStarted) (modify i (withStream true) s))
  | StartingCapture, Threw e =>
      fail i 500 ("failed to start stream: " ++ e) "stream failed" s
  | StartingCapture, PipeThrew e =>
      fail i 500 ("failed to start stream: " ++ e) "stream failed"
           (mark i (Began Pipe)
              (mark i (Entered CaptureStarted) (modify i (withStream true) s)))
  | _, _ => s
  end.

(** The sources that call [cleanup] from outside the handler. *)
Inductive Source :=
| ReqAborted
| ResClose
| ResError (err : string)
| StreamError (err : string)
| FfmpegExit (code : option Z) (signal : option string)
| FfmpegError (message : string).

(** The reason [cleanup] is called with when the event of a source is
    delivered to session [x], if its listener exists and calls it. *)
Definition trigger (x : Session) (src : Source) : option string :=
  match src with
  | ReqAborted => Some "req aborted"
  | ResClose => Some "res close"
  | ResError err => Some ("res error " ++ err)%string
  | StreamError err =>
      if stream x
      then Some (match kind x with
                 | ChannelStream => "stream error " ++ err
                 | GenericStream => "stream error"
                 end)%string
      else None
  | FfmpegExit code signal =>
      match ffmpegProcess x with
      | Some p => match Transcoder.onExit p code signal with
                  | Some _ => Some "ffmpeg error"
                  | None => None
                  end
      | None => None
      end
  | FfmpegError message =>
      match ffmpegProcess x with
      | Some p => match Transcoder.onProcessError p message with
                  | Some _ => Some "ffmpeg error"
                  | None => None
                  end
      | None => None
      end
  end.

Definition newSession (k : Kind) (c : Js.Property Tuner.Channel) : Session :=
  {| kind := k; channel := c; pc := AcquiringPage; page := None; stream := false;
     ffmpegProcess := None; done_ := false; countedStream := false |}.

(** The handler starts: it runs up to its first [await]. *)
Definition start (k : Kind) (c : Js.Property Tuner.Channel) (s : State) : State :=
  mark (length (sessions s)) (Began AcquirePage)
       (setSessions (sessions s ++ [newSession k c]) s).

(** One turn of the event loop. *)
Inductive Event :=
| Request (param : string)
| LegacyRequest (u : option string)
| Settle (i : nat) (o : Outcome)
| Fire (i : nat) (src : Source)
| Timer (i : nat)
| BrowserGone.

Definition step (mpegts : bool) (e : Event) (s : State) : State :=
  match e with
  | Request param =>
      match Tuner.streamRoute param with
      | Tuner.Respond status body => emit (Rejected status body) s
      | Tuner.Dispatch c _ => start ChannelStream c s
      end
  | LegacyRequest u =>
      match u with
      | Some (String _ _) => start GenericStream Js.Undefined s
      | _ => emit (Rejected 400 "Missing url parameter") s
      end
  | Settle i o =>
      match sessions s !! i with
      | Some x =>
          match kind x with
          | ChannelStream => resumeChannel mpegts i x o s
          | GenericStream => resumeGeneric mpegts i x o s
          end
      | None => s
      end
  | Fire i src =>
      match sessions s !! i with
      | Some x => match trigger x src with
                  | Some reason => cleanup i reason s
                  | None => s
                  end
      | None => s
      end
  | Timer i =>
      match sessions s !! i with
      | Some x => match pc x with
                  | WaitingSlot (Queued _) => onTimeout i s
                  | _ => s
                  end
      | None => s
      end
  | BrowserGone => setBrowser None (launches s) s
  end.

Fixpoint run (mpegts : bool) (t : list Event) (s : State) : State :=
  match t with
  | [] => s
  | e :: r => run mpegts r (step mpegts e s)
  end.

(** *** Reading the log *)

Definition ranBy (i : nat) (e : Effect) : bool :=
  match e with CleanupRan j _ => Nat.eqb j i | _ => false end.

Definition closedBy (i : nat) (e : Effect) : bool :=
  match e with PageClosed j _ => Nat.eqb j i | _ => false end.

Definition decrementedBy (i : nat) (e : Effect) : bool :=
  match e with Decremented j => Nat.eqb j i | _ => false end.

Definition notifiedBy (i : nat) (e : Effect) : bool :=
  match e with Notified j => Nat.eqb j i | _ => false end.

Definition occurrences (f : Effect -> bool) (l : list Effect) : nat :=
  length (List.filter f l).

(** The marks of session [i], the sessions that joined the queue and
    the waiters that were woken, each in the order of the log. *)
Definition history (i : nat) (l : list Effect) : list Mark :=
  flat_map (fun e => match e with
                     | Progress j m => if Nat.eqb j i then [m] else []
                     | _ => []
                     end) l.

Definition enqueued (l : list Effect) : list nat :=
  flat_map (fun e => match e with Enqueued i => [i] | _ => [] end) l.

Definition woken (l : list Effect) : list nat :=
  flat_map (fun e => match e with Woke w => [w] | _ => [] end) l.

Definition entered (h : list Mark) : list Stage :=
  flat_map (fun m => match m with Entered st => [st] | Began _ => [] end) h.

(** The number of sessions whose [cleanup._countedStream] is set. *)
Definition held (l : list Session) : Z :=
  Z.of_nat (length (List.filter countedStream l)).

(** The order of operations and states in each handler. *)
Definition channelScript : list Mark :=
  [ Began AcquirePage; Entered PageAcquired;
    Began Navigate; Entered Navigated;
    Began StartCapture; Entered CaptureStarted;
    Began Admission; Entered SlotAcquired;
    Began SelectChannel; Entered ChannelSelected;
    Began VerifyPlayback; Entered PlaybackVerified;
    Began Pipe; Entered PipingStage ].

Definition genericScript : list Mark :=
  [ Began AcquirePage; Entered PageAcquired;
    Began Navigate; Entered Navigated;
    Began Admission; Entered SlotAcquired;
    Began StartCapture; Entered CaptureStarted;
    Began Pipe; Entered PipingStage ].

Definition script (k : Kind) : list Mark :=
  match k with ChannelStream => channelScript | GenericStream => genericScript end.

(** Whether outcome [o] is a failure of the stage session [x] waits in. *)
Definition failure (x : Session) (o : Outcome) : bool :=
  match pc x, o with
  | AcquiringPage, Threw _ | Navigating, Threw _ | StartingCapture, Threw _ => true
  | WaitingSlot (Settled false), _ => true
  | SelectingChannel, Threw _ | SelectingChannel, NotSelected _ =>
      match kind x with ChannelStream => true | GenericStream => false end
  | VerifyingPlayback, Threw _ | TogglingFullscreen, PipeThrew _ =>
      match kind x with ChannelStream => true | GenericStream => false end
  | StartingCapture, PipeThrew _ =>
      match kind x with ChannelStream => false | GenericStream => true end
  | _, _ => false
  end.

End Server.

(** ** Sample inputs *)

Module Samples.

Import PrimFloat.

Definition slug : string := "5bce8eb9e4b0a8faf3c14a94".

(** A channel tile: an image inside a link inside the grid. *)
Definition tile : Resolver.Element :=
  Resolver.El 4 "IMG" "https://img.example/5bce8eb9e4b0a8faf3c14a94/logo.png" [] [].
Definition link : Resolver.Element :=
  Resolver.El 3 "A" "" [("href", "/channel/espn")] [tile].
Definition grid : Resolver.Element := Resolver.El 2 "DIV" "" [] [link].
Definition bodyElement : Resolver.Element := Resolver.El 1 "BODY" "" [] [grid].
Definition html : Resolver.Element := Resolver.El 0 "HTML" "" [] [bodyElement].
Definition tilePage : Resolver.Document :=
  {| Resolver.documentElement := html; Resolver.body := 1 |}.

(** The same tile wrapped in plain [DIV]s only. *)
Definition wrapper : Resolver.Element := Resolver.El 3 "DIV" "" [] [tile].
Definition plainGrid : Resolver.Element := Resolver.El 2 "DIV" "" [] [wrapper].
Definition plainBody : Resolver.Element := Resolver.El 1 "BODY" "" [] [plainGrid].
Definition plainHtml : Resolver.Element := Resolver.El 0 "HTML" "" [] [plainBody].
Definition plainPage : Resolver.Document :=
  {| Resolver.documentElement := plainHtml; Resolver.body := 1 |}.

(** Layouts that never scroll. *)
Definition noScroll (e : nat) (L : unit) : unit := L.
Definition autoCursor (L : unit) (e : nat) : string := "auto".
Definition gridPointer (L : unit) (e : nat) : string :=
  if Nat.eqb e 2 then "pointer" else "auto".

Definition box (x y w h : float) : Resolver.Rect :=
  {| Resolver.x := x; Resolver.y := y; Resolver.width := w; Resolver.height := h |}.

(** The centres of the box of a tile and of the large box. *)
Definition tileCentre : Resolver.Point := {| Resolver.px := 60; Resolver.py := 40 |}.
Definition largeCentre : Resolver.Point := {| Resolver.px := 100; Resolver.py := 50 |}.

(** Element 3 has an empty box. *)
Definition collapsed (L : unit) (e : nat) : Resolver.Rect :=
  if Nat.eqb e 3 then box 0 0 0 0 else box 0 0 200 100.

(** Element 3 has the box of a tile. *)
Definition laidOut (L : unit) (e : nat) : Resolver.Rect :=
  if Nat.eqb e 3 then box 10 20 100 40 else box 0 0 200 100.

(** Element 3 is small, the others are large. *)
Definition smallWrapper (L : unit) (e : nat) : Resolver.Rect :=
  if Nat.eqb e 3 then box 10 20 16 16 else box 0 0 200 100.

End Samples.

(** ** Finding and running FFmpeg: [findFFmpegPath], [spawnMpegTsTranscoder] *)

Module Ffmpeg.

Local Open Scope string_scope.

(** What the two functions read of the machine: [process.platform],
    whether [child_process.execSync(command)] returns rather than throws,
    and [fs.existsSync]. *)
Record Machine := {
  platform : string;
  execSync : string -> bool;
  existsSync : string -> bool
}.

Definition commonPaths (m : Machine) : list string :=
  if String.eqb (platform m) "win32"
  then [ "C:\ffmpeg\bin\ffmpeg.exe"; "C:\Program Files\ffmpeg\bin\ffmpeg.exe" ]
  else [ "/usr/bin/ffmpeg"; "/usr/local/bin/ffmpeg"; "/opt/homebrew/bin/ffmpeg" ].

Definition probe (m : Machine) : string :=
  if String.eqb (platform m) "win32" then "where ffmpeg" else "which ffmpeg".

Definition notFound : string :=
  "FFmpeg not found. Please install FFmpeg or set it in your PATH.".

(** [findFFmpegPath()]: the path it resolves with or the message of the
    error it throws, and the new value of [cachedFFmpegPath]. *)
Definition findFFmpegPath (m : Machine) (cachedFFmpegPath : option string)
  : (string + string) * option string :=
  let search :=
    if execSync m (probe m) then (inl "ffmpeg", Some "ffmpeg")
    else match List.find (existsSync m) (commonPaths m) with
         | Some p => (inl p, Some p)
         | None => (inr notFound, cachedFFmpegPath)
         end in
  match cachedFFmpegPath with
  | Some p => if Js.truthy p then (inl p, cachedFFmpegPath) else search
  | None => search
  end.

(** [cachedFFmpegPath || 'ffmpeg'], the command [spawnMpegTsTranscoder]
    spawns. *)
Definition ffmpegPath (cachedFFmpegPath : option string) : string :=
  match cachedFFmpegPath with
  | Some p => if Js.truthy p then p else "ffmpeg"
  | None => "ffmpeg"
  end.

(** [streamId ? '[' + streamId + '] ' : '']. *)
Definition logPrefix (streamId : option string) : string :=
  match streamId with
  | Some id => if Js.truthy id then "[" ++ id ++ "] " else ""
  | None => ""
  end.

(** [String.prototype.trim] on code units below 256: the white space
    and line terminators there are TAB, LF, VT, FF, CR, SP and NBSP. *)
Definition isSpace (c : ascii) : bool :=
  let n := nat_of_ascii c in
  ((9 <=? n)%nat && (n <=? 13)%nat) || (n =? 32)%nat || (n =? 160)%nat.

Fixpoint trimStart (s : string) : string :=
  match s with
  | EmptyString => EmptyString
  | String c r => if isSpace c then trimStart r else s
  end.

Fixpoint trimEnd (s : string) : string :=
  match s with
  | EmptyString => EmptyString
  | String c r =>
      match trimEnd r with
      | EmptyString => if isSpace c then EmptyString else String c EmptyString
      | r' => String c r'
      end
  end.

Definition trim (s : string) : string := trimEnd (trimStart s).

Definition noisePatterns : list string :=
  [ "Press [q] to stop"; "frame="; "size="; "time="; "bitrate="; "speed=" ].

(** [ffmpeg.stderr.on('data', ...)]: the line it logs, if any. *)
Definition onStderr (p : Transcoder.Proc) (streamId : option string) (data : string)
  : option string :=
  if Transcoder.shuttingDown p then None
  else
    let message := trim data in
    if existsb (fun pat => Js.includes message pat) noisePatterns then None
    else if (0 <? String.length message)%nat
         then Some (logPrefix streamId ++ "FFmpeg: " ++ message)
         else None.

End Ffmpeg.

(** ** Locating the browser: [getExecutablePath] *)

Module Chrome.

Local Open Scope string_scope.

(** What [getExecutablePath] reads of the machine: two environment
    variables, [process.platform], the output of
    [child_process.execSync(command)] unless it throws, and
    [fs.existsSync]. *)
Record Host := {
  CHROME_BIN : option string;
  USERPROFILE : option string;
  platform : string;
  execSync : string -> option string;
  existsSync : string -> bool
}.

(** The function returns a path or [undefined], or throws. *)
Inductive Result :=
| Returns (executablePath : option string)
| Throws (message : string).

Definition LF : ascii := ascii_of_nat 10.

(** [output.toString().split('\n').shift()]. *)
Fixpoint firstLine (output : string) : string :=
  match output with
  | EmptyString => EmptyString
  | String c r => if Ascii.eqb c LF then EmptyString else String c (firstLine r)
  end.

(** Truthiness of a variable that holds a string, [null] or [undefined]. *)
Definition truthy (v : option string) : bool :=
  match v with
  | Some s => Js.truthy s
  | None => false
  end.

(** [v || ''] for such a variable. *)
Definition orEmpty (v : option string) : string :=
  match v with
  | Some s => s
  | None => ""
  end.

Definition macCandidates : list string :=
  [ "/Applications/Google Chrome.app/Contents/MacOS/Google Chrome";
    "/Applications/Chromium.app/Contents/MacOS/Chromium";
    "/Applications/Brave Browser.app/Contents/MacOS/Brave Browser" ].

Section GetExecutablePath.

(** [path.join]. *)
Variable join : list string -> string.

Definition winCandidates (h : Host) : list string :=
  [ "C:\Program Files\Google\Chrome\Application\chrome.exe";
    "C:\Program Files (x86)\Google\Chrome\Application\chrome.exe";
    join [orEmpty (USERPROFILE h); "AppData"; "Local"; "Google"; "Chrome"; "Application";
          "chrome.exe"];
    join [orEmpty (USERPROFILE h); "AppData"; "Local"; "Chromium"; "Application";
          "chrome.exe"] ].

Definition getExecutablePath (h : Host) : Result :=
  if truthy (CHROME_BIN h) then Returns (CHROME_BIN h)
  else if String.eqb (platform h) "linux" then
    let executablePath :=
      match execSync h "which chromium-browser" with
      | Some output => Some (firstLine output)
      | None => None
      end in
    if truthy executablePath then Returns executablePath
    else
      let executablePath :=
        match execSync h "which chromium" with
        | Some output => Some (firstLine output)
        | None => executablePath
        end in
      if truthy executablePath then Returns executablePath
      else Throws "Chromium not found (which chromium)"
  else if String.eqb (platform h) "darwin" then
    Returns (List.find (existsSync h) macCandidates)
  else if String.eqb (platform h) "win32" then
    Returns (List.find (existsSync h) (winCandidates h))
  else Throws ("Unsupported platform: " ++ platform h).

End GetExecutablePath.

End Chrome.

(** ** Page scale: [setChromeViewScale] *)

Module Scale.

(** A JavaScript number: a finite value, read as the rational it
    denotes, or one of the three others. *)
Inductive Number := Finite (q : Q) | NaN | PlusInfinity | MinusInfinity.

(** The doubles written [0.26], [0.51] and [0.76]. *)
Definition d026 : Q := 1170935903116329 # 4503599627370496.
Definition d051 : Q := 2296835809958953 # 4503599627370496.
Definition d076 : Q := 3422735716801577 # 4503599627370496.

Inductive Command :=
| CreateCDPSession
| SetPageScaleFactor (pageScaleFactor : Q)
| SetZoomLevel (zoomLevel : Z).

(** How the promise of the function settles. *)
Inductive Outcome := Fulfilled | Rejected.

(** The [zl] of the fallback. *)
Definition zoomLevelFor (s : Q) : Z :=
  if Qle_bool s d026 then -3
  else if Qle_bool s d051 then -2
  else if Qle_bool s d076 then -1
  else 0.

(** [setChromeViewScale(page, scale)]: the calls it makes on the page,
    in order, and its outcome, when [ok] tells which calls succeed. *)
Definition setChromeViewScale (scale : Number) (ok : Command -> bool)
  : list Command * Outcome :=
  match scale with
  | Finite s =>
      if Qle_bool s 0 then ([], Fulfilled)
      else if ok CreateCDPSession then
        if ok (SetPageScaleFactor s)
        then ([CreateCDPSession; SetPageScaleFactor s], Fulfilled)
        else ([CreateCDPSession; SetPageScaleFactor s; SetZoomLevel (zoomLevelFor s)],
              Fulfilled)
      else ([CreateCDPSession], Rejected)
  | _ => ([], Fulfilled)
  end.

End Scale.

(** ** Window helpers: [ensurePageIsActive], [setWindowBounds],
       [minimizeWindow], [runKayoFullscreenToggle] *)

Module Window.

Local Open Scope string_scope.

(** The calls the helpers await on the page and its CDP session. *)
Inductive Call :=
| BringToFront
| CreateCDPSession
| GetWindowForTarget
| SetWindowBounds (windowState : string) (size : option (Z * Z))
| SetWebLifecycleState (state : string)
| SetFocusEmulationEnabled (enabled : bool)
| Evaluate
| Delay (ms : Z).

(** The lines the helpers write to the console, by their text. *)
Inductive Line :=
| MinimizedKeptActive
| MinimizedNotActive
| FailedToMinimize
| RequestingFullscreen
| FullscreenRequested
| FullscreenNotAvailable
| FullscreenToggleError.

Record Trace := { calls : list Call; console : list Line }.

Definition start : Trace := {| calls := []; console := [] |}.

(** An asynchronous block: given which calls succeed and what has
    happened so far, what has happened after it, and its value unless it
    throws. *)
Definition M (A : Type) : Type := (Call -> bool) -> Trace -> Trace * option A.

Definition ret {A : Type} (a : A) : M A := fun _ t => (t, Some a).

Definition bind {A B : Type} (m : M A) (k : A -> M B) : M B :=
  fun ok t => match m ok t with
              | (t', Some a) => k a ok t'
              | (t', None) => (t', None)
              end.

Declare Scope block_scope.
Delimit Scope block_scope with block.
Notation "m ;; k" := (bind m (fun _ => k))
  (at level 100, k at level 200, right associativity) : block_scope.
Local Open Scope block_scope.

(** [await] of a call: it throws when the call fails. *)
Definition await (c : Call) : M unit :=
  fun ok t => ({| calls := calls t ++ [c]; console := console t |},
               if ok c then Some tt else None).

(** [await delay(ms)], which never throws. *)
Definition delay (ms : Z) : M unit :=
  fun _ t => ({| calls := calls t ++ [Delay ms]; console := console t |}, Some tt).

Definition log (l : Line) : M unit :=
  fun _ t => ({| calls := calls t; console := console t ++ [l] |}, Some tt).

(** [try { body } catch (e) { handler }]. *)
Definition try {A : Type} (body handler : M A) : M A :=
  fun ok t => match body ok t with
              | (t', Some a) => (t', Some a)
              | (t', None) => handler ok t'
              end.

Definition ensurePageIsActive : M unit :=
  try (await BringToFront) (ret tt) ;;
  try (await CreateCDPSession ;;
       try (await (SetWebLifecycleState "active")) (ret tt) ;;
       try (await (SetFocusEmulationEnabled true)) (ret tt))
      (ret tt).

Definition extraW : Z := 80.
Definition extraH : Z := 160.

(** [setWindowBounds(page)] for the viewport [width] by [height] and the
    option [argv.minimizeWindow]. *)
Definition setWindowBounds (width height : Z) (minimizeOnStart : bool) : M unit :=
  await CreateCDPSession ;;
  await GetWindowForTarget ;;
  await (SetWindowBounds "normal" (Some (width + extraW, height + extraH))) ;;
  if minimizeOnStart then await (SetWindowBounds "minimized" None) else ret tt.

Definition minimizeWindow : M unit :=
  try (await CreateCDPSession ;;
       await GetWindowForTarget ;;
       await (SetWindowBounds "minimized" None) ;;
       try (await (SetWebLifecycleState "active") ;;
            await (SetFocusEmulationEnabled true) ;;
            log MinimizedKeptActive)
           (log MinimizedNotActive))
      (log FailedToMinimize).

(** An element as the function evaluated in the page sees it: for each
    of the two methods, whether the element has it and, if so, whether
    calling it returns rather than throws. *)
Record Element := {
  requestFullscreen : option bool;
  webkitRequestFullscreen : option bool
}.

Record Document := {
  video : option Element;
  documentElement : Element
}.

Inductive Method := Standard | Webkit.

(** The function evaluated in the page: whether the request went to the
    video element, through which method, and the value returned. *)
Definition inPage (d : Document) : option (bool * Method) * bool :=
  let (onVideo, target) := match video d with
                           | Some v => (true, v)
                           | None => (false, documentElement d)
                           end in
  match requestFullscreen target with
  | Some returns => (Some (onVideo, Standard), returns)
  | None =>
      match webkitRequestFullscreen target with
      | Some returns => (Some (onVideo, Webkit), returns)
      | None => (None, false)
      end
  end.

Definition runKayoFullscreenToggle (d : Document) : M bool :=
  log RequestingFullscreen ;;
  await Evaluate ;;
  let success := snd (inPage d) in
  log (if success then FullscreenRequested else FullscreenNotAvailable) ;;
  ret success.

(** The fullscreen block of [handleChannelStream]. *)
Definition fullscreenBlock (d : Document) : M unit :=
  try (runKayoFullscreenToggle d ;;
       delay 100 ;;
       minimizeWindow)
      (log FullscreenToggleError).

Definition run {A : Type} (m : M A) (ok : Call -> bool) : Trace * option A := m ok start.

End Window.

(** ** HDHomeRun emulation: [/discover.json], [/status.json], the index
       page and the redirect of the second port *)

Module Hdhr.

Local Open Scope string_scope.

Definition HDHR_DEVICE_ID : string := "KAYO1234".
Definition HDHR_FRIENDLY_NAME : string := "Kayo Sports Tuner".
Definition HDHR_TUNER_COUNT : Z := 2.
Definition HDHR_PORT : Z := 5004.

Record Discover := {
  FriendlyName : string;
  Manufacturer : string;
  ModelNumber : string;
  FirmwareName : string;
  TunerCount : Z;
  FirmwareVersion : string;
  DeviceID : string;
  DeviceAuth : string;
  BaseURL : string;
  LineupURL : string
}.

(** [app.get('/discover.json')] for [req.protocol] and [req.get('host')]. *)
Definition discover (protocol host : string) : Discover :=
  {| FriendlyName := HDHR_FRIENDLY_NAME;
     Manufacturer := "Silicondust";
     ModelNumber := "HDHR4-2US";
     FirmwareName := "hdhomerun4_atsc";
     TunerCount := HDHR_TUNER_COUNT;
     FirmwareVersion := "20190621";
     DeviceID := HDHR_DEVICE_ID;
     DeviceAuth := "test1234";
     BaseURL := protocol ++ "://" ++ host;
     LineupURL := protocol ++ "://" ++ host ++ "/lineup.json" |}.

Record Status := { ActiveStreams : Z; MaxStreams : Z }.

(** [app.get('/status.json')]. *)
Definition status (s : Server.State) : Status :=
  {| ActiveStreams := Server.activeStreams s; MaxStreams := Server.MAX_CONCURRENT_STREAMS |}.

(** [host.split(':')[0]]. *)
Fixpoint beforeColon (host : string) : string :=
  match host with
  | EmptyString => EmptyString
  | String c r => if Ascii.eqb c ":" then EmptyString else String c (beforeColon r)
  end.

(** The address the index page tells the user to enter in Plex, for the
    port [argv.port]. *)
Definition plexAddress (protocol host : string) (port : Z) : string :=
  protocol ++ "://" ++ beforeColon host ++ ":" ++ Js.String_of_number port.

(** The target of the redirect of [/stream/:channelName] on the second
    port. *)
Definition redirect (protocol hostname : string) (port : Z) (channelName : string)
  : string :=
  protocol ++ "://" ++ hostname ++ ":" ++ Js.String_of_number port ++ "/stream/"
    ++ channelName.

End Hdhr.

(** * Properties *)

Local Open Scope list_scope.
Local Open Scope Z_scope.

(** ** Transcoder exit handling *)

Lemma truthy_nonempty (s : string) : Js.truthy s = true <-> s <> "".
Proof. destruct s; simpl; split; congruence. Qed.

Lemma isSIGTERM_spec (signal : option string) :
  Transcoder.isSIGTERM signal = true <-> signal = Some "SIGTERM".
Proof.
  destruct signal as [sg|]; simpl.
  - rewrite String.eqb_eq. split; congruence.
  - split; congruence.
Qed.

(** C8.  The exit handler of the transcoder calls [onError] exactly when
    the exit is unexpected: the wrapper is not shutting down, the signal
    is not SIGTERM, and the exit code is non-zero or a signal is given.
    The listener installed by the handlers turns exactly these calls into
    [cleanup('ffmpeg error')], and after [kill] no exit raises an error. *)
Theorem exit_error_iff_unexpected
  (p : Transcoder.Proc) (code : option Z) (signal : option string) :
  (Transcoder.onExit p code signal <> None <->
     Transcoder.shuttingDown p = false /\ signal <> Some "SIGTERM" /\
     ((exists c, code = Some c /\ c <> 0) \/ (exists sg, signal = Some sg /\ sg <> "")))
  /\ (forall x, Server.ffmpegProcess x = Some p ->
        (Server.trigger x (Server.FfmpegExit code signal) = Some "ffmpeg error" <->
           Transcoder.onExit p code signal <> None)
        /\ (Server.trigger x (Server.FfmpegExit code signal) = None <->
              Transcoder.onExit p code signal = None))
  /\ Transcoder.onExit (fst (Transcoder.kill p)) code signal = None.
Proof.
  split; [|split].
  - unfold Transcoder.onExit.
    destruct (Transcoder.shuttingDown p); [split; [congruence | intros (? & _); congruence]|].
    destruct (Transcoder.isSIGTERM signal) eqn:Hterm.
    + apply isSIGTERM_spec in Hterm. split; [congruence | intros (_ & ? & _); congruence].
    + assert (Hne : signal <> Some "SIGTERM")
        by (intros E; apply isSIGTERM_spec in E; congruence).
      destruct code as [c|]; [destruct (Z.eqb_spec c 0) as [->|Hc]|].
      * destruct signal as [sg|]; [destruct (Js.truthy sg) eqn:Ht|].
        -- split; [intros _|congruence]. repeat split; auto.
           right. exists sg. split; auto. now apply truthy_nonempty.
        -- split; [congruence|]. intros (_ & _ & [(c & ? & ?)|(sg' & E & Hs)]).
           ++ congruence.
           ++ injection E as <-. apply truthy_nonempty in Hs. congruence.
        -- split; [congruence|]. intros (_ & _ & [(c & ? & ?)|(sg' & E & Hs)]); congruence.
      * split; [intros _|congruence]. repeat split; auto. left. eauto.
      * destruct signal as [sg|]; [destruct (Js.truthy sg) eqn:Ht|].
        -- split; [intros _|congruence]. repeat split; auto.
           right. exists sg. split; auto. now apply truthy_nonempty.
        -- split; [congruence|]. intros (_ & _ & [(c & ? & ?)|(sg' & E & Hs)]).
           ++ congruence.
           ++ injection E as <-. apply truthy_nonempty in Hs. congruence.
        -- split; [congruence|]. intros (_ & _ & [(c & ? & ?)|(sg' & E & Hs)]); congruence.
  - intros x Hx. unfold Server.trigger. rewrite Hx.
    destruct (Transcoder.onExit p code signal); split; split; congruence.
  - unfold Transcoder.onExit, Transcoder.kill. reflexivity.
Qed.

Lemma exit_error_iff_unexpected_witness :
  Server.ffmpegProcess
    (Server.withFfmpeg (Some Transcoder.spawned)
       (Server.newSession Server.ChannelStream Js.Undefined)) = Some Transcoder.spawned
  /\ Server.trigger
       (Server.withFfmpeg (Some Transcoder.spawned)
          (Server.newSession Server.ChannelStream Js.Undefined))
       (Server.FfmpegExit (Some 1) None) = Some "ffmpeg error".
Proof.
  split; [reflexivity|].
  apply (proj1 (proj2 (exit_error_iff_unexpected Transcoder.spawned (Some 1) None))
           (Server.withFfmpeg (Some Transcoder.spawned)
              (Server.newSession Server.ChannelStream Js.Undefined))
           eq_refl).
  vm_compute. congruence.
Defined.

(** ** The stream route *)

(** The letters, each in its two cases. *)
Definition letters : list (ascii * ascii) :=
  [ ("a", "A"); ("b", "B"); ("c", "C"); ("d", "D"); ("e", "E"); ("f", "F"); ("g", "G");
    ("h", "H"); ("i", "I"); ("j", "J"); ("k", "K"); ("l", "L"); ("m", "M"); ("n", "N");
    ("o", "O"); ("p", "P"); ("q", "Q"); ("r", "R"); ("s", "S"); ("t", "T"); ("u", "U");
    ("v", "V"); ("w", "W"); ("x", "X"); ("y", "Y"); ("z", "Z") ]%char.

(** Two characters are the same up to letter case: they are equal, or
    they are the two cases of one letter. *)
Definition sameLetter (c k : ascii) : bool :=
  Ascii.eqb c k
  || existsb (fun p => (Ascii.eqb c (fst p) && Ascii.eqb k (snd p))
                       || (Ascii.eqb c (snd p) && Ascii.eqb k (fst p))) letters.

(** Two strings differ in letter case only. *)
Fixpoint caseVariant (p k : string) : bool :=
  match p, k with
  | EmptyString, EmptyString => true
  | String a p', String b k' => sameLetter a b && caseVariant p' k'
  | _, _ => false
  end.

Lemma sameLetter_lower (c k : ascii) :
  sameLetter c k = true -> Js.lowerAscii c = Js.lowerAscii k.
Proof.
  unfold sameLetter. intros H. apply orb_prop in H as [H|H].
  - apply Ascii.eqb_eq in H. now subst.
  - apply existsb_exists in H as ([lo up] & Hin & H). cbn [fst snd] in H.
    apply orb_prop in H as [H|H]; apply andb_prop in H as [Hc Hk];
      apply Ascii.eqb_eq in Hc, Hk; subst c k;
      unfold letters in Hin; simpl in Hin;
      repeat (destruct Hin as [Hin|Hin]; [injection Hin as <- <-; reflexivity|]);
      contradiction.
Qed.

Lemma caseVariant_lower (p k : string) :
  caseVariant p k = true -> Js.toLowerCase p = Js.toLowerCase k.
Proof.
  revert k. induction p as [|a p IH]; intros [|b k] H; simpl in H |- *;
    try discriminate; [reflexivity|].
  apply andb_prop in H as [Hl Hr]. now rewrite (sameLetter_lower a b Hl), (IH k Hr).
Qed.

(** C10.  The path key is lowercased before the channel table is read: a
    key that differs from a configured key only in letter case is
    dispatched to [handleChannelStream] with that channel and under the
    configured key, and gets no 404. *)
Theorem channel_lookup_case_insensitive (param key : string) (ch : Tuner.Channel) :
  In (key, ch) Tuner.CHANNELS ->
  caseVariant param key = true ->
  Tuner.streamRoute param = Tuner.Dispatch (Js.Own ch) key.
Proof.
  intros Hin Hcase. unfold Tuner.streamRoute.
  rewrite (caseVariant_lower param key Hcase). clear Hcase param.
  unfold Tuner.CHANNELS in Hin. simpl in Hin.
  repeat (destruct Hin as [Hin|Hin]; [injection Hin as <- <-; vm_compute; reflexivity|]).
  contradiction.
Qed.

Lemma channel_lookup_case_insensitive_witness :
  Tuner.streamRoute "ESPN2"
  = Tuner.Dispatch (Js.Own (Tuner.kayo "5bcef583e4b0a8faf3c14acb" "ESPN2" 510)) "espn2"
  /\ Tuner.streamRoute "FoOtY"
     = Tuner.Dispatch (Js.Own (Tuner.kayo "5bcefacfe4b0a8faf3c14ae2" "Fox Footy" 504)) "footy".
Proof.
  split.
  - apply (channel_lookup_case_insensitive "ESPN2" "espn2").
    + unfold Tuner.CHANNELS. simpl. tauto.
    + reflexivity.
  - apply (channel_lookup_case_insensitive "FoOtY" "footy").
    + unfold Tuner.CHANNELS. simpl. tauto.
    + reflexivity.
Defined.

(** A key that is neither a channel nor a member of [Object.prototype]
    is answered with 404 and the list of keys; the request only adds the
    response to the log. *)
Lemma unknown_key_404 (mpegts : bool) (param : string) (s : Server.State) :
  Js.get Tuner.CHANNELS (Js.toLowerCase param) = Js.Undefined ->
  exists body,
    Server.step mpegts (Server.Request param) s = Server.emit (Server.Rejected 404 body) s
    /\ body = ("Channel not found. Available channels: "
                 ++ "503, 505, 506, 507, espn, footy, cricket, league, news, racing, ufc, espn2")%string
    /\ Server.activeStreams (Server.step mpegts (Server.Request param) s) = Server.activeStreams s
    /\ Server.waiters (Server.step mpegts (Server.Request param) s) = Server.waiters s
    /\ Server.pagesInUse (Server.step mpegts (Server.Request param) s) = Server.pagesInUse s
    /\ Server.currentBrowser (Server.step mpegts (Server.Request param) s)
       = Server.currentBrowser s
    /\ Server.sessions (Server.step mpegts (Server.Request param) s) = Server.sessions s.
Proof.
  intros Hget. eexists. unfold Server.step, Tuner.streamRoute. rewrite Hget.
  repeat split; reflexivity.
Qed.

(** C7, at the failing input.  The key [constructor] is not a channel,
    yet [CHANNELS['constructor']] is found on [Object.prototype]: the
    route sends no 404 and starts [handleChannelStream], which takes a
    page from the pool. *)
Theorem inherited_key_reaches_page_pool :
  Js.getOwn Tuner.CHANNELS (Js.toLowerCase "constructor") = None
  /\ Tuner.streamRoute "constructor"
     = Tuner.Dispatch (Js.Inherited "constructor") "constructor"
  /\ Server.log (Server.step true (Server.Request "constructor") Server.initial)
     = [Server.Progress 0 (Server.Began Server.AcquirePage)]
  /\ Server.pagesInUse
       (Server.run true [Server.Request "constructor"; Server.Settle 0 Server.Ok]
          Server.initial) = {[ 0%nat ]}
  /\ Server.currentBrowser
       (Server.run true [Server.Request "constructor"; Server.Settle 0 Server.Ok]
          Server.initial) = Some 0%nat
  /\ Server.pagesInUse Server.initial = ∅
  /\ Server.currentBrowser Server.initial = None.
Proof. repeat split; vm_compute; reflexivity. Qed.

(** ** Lineup and playlist *)

Section SortFacts.
Context {A : Type} (cmp : A -> A -> Z).

Lemma insertSorted_perm (x : A) (l : list A) :
  Permutation (Js.insertSorted cmp x l) (x :: l).
Proof.
  induction l as [|y r IH]; simpl; [reflexivity|].
  destruct (cmp x y <=? 0); [reflexivity|].
  rewrite IH. apply perm_swap.
Qed.

Lemma sort_perm (l : list A) : Permutation (Js.sort cmp l) l.
Proof.
  induction l as [|x r IH]; simpl; [reflexivity|].
  rewrite insertSorted_perm. now constructor.
Qed.

(** For a comparator that subtracts keys, the sort orders by key. *)
Variable key : A -> Z.
Hypothesis cmp_key : forall a b, cmp a b = key a - key b.

Lemma insertSorted_sorted (x : A) (l : list A) :
  Sorted (fun a b => key a <= key b) l ->
  Sorted (fun a b => key a <= key b) (Js.insertSorted cmp x l).
Proof using cmp_key.
  induction l as [|y r IH]; simpl; intros Hs.
  - repeat constructor.
  - rewrite cmp_key. destruct (Z.leb_spec (key x - key y) 0) as [Hle|Hgt].
    + constructor; [assumption|]. constructor. lia.
    + inversion Hs as [|? ? Hr Hhd]; subst. constructor; [now apply IH|].
      destruct r as [|z r']; simpl.
      * constructor. lia.
      * rewrite cmp_key. destruct (Z.leb_spec (key x - key z) 0).
        -- constructor. lia.
        -- inversion Hhd; subst. now constructor.
Qed.

Lemma sort_sorted (l : list A) : Sorted (fun a b => key a <= key b) (Js.sort cmp l).
Proof using cmp_key.
  induction l as [|x r IH]; simpl; [constructor|]. now apply insertSorted_sorted.
Qed.

End SortFacts.

Lemma Sorted_map_le {A : Type} (key : A -> Z) (l : list A) :
  Sorted (fun a b => key a <= key b) l -> Sorted Z.le (map key l).
Proof.
  induction 1 as [|a l Hs IH Hhd]; simpl; constructor; [assumption|].
  destruct Hhd; simpl; now constructor.
Qed.

Section KeysFacts.
Context {V : Type}.

Lemma keys_partition (o : list (string * V)) :
  Permutation (map snd (Js.indexKeys o) ++ Js.nameKeys o) (map fst o).
Proof.
  induction o as [|[k v] r IH]; simpl; [reflexivity|].
  unfold Js.indexKeys, Js.nameKeys in *. simpl.
  destruct (Js.arrayIndex k); simpl.
  - now constructor.
  - rewrite <- Permutation_middle. now constructor.
Qed.

Lemma Object_keys_perm (o : list (string * V)) :
  Permutation (Js.Object_keys o) (map fst o).
Proof.
  unfold Js.Object_keys. rewrite <- keys_partition.
  apply Permutation_app_tail, Permutation_map, sort_perm.
Qed.

Lemma getOwn_In (o : list (string * V)) (k : string) (v : V) :
  NoDup (map fst o) -> In (k, v) o -> Js.getOwn o k = Some v.
Proof.
  induction o as [|[k' v'] r IH]; simpl; [contradiction|].
  intros Hnd [Heq|Hin].
  - injection Heq as -> ->. now rewrite String.eqb_refl.
  - apply NoDup_cons in Hnd as [Hk Hnd].
    destruct (String.eqb_spec k' k) as [->|_]; [|now apply IH].
    exfalso. apply Hk. apply list_elem_of_In, in_map_iff. now exists (k, v).
Qed.

End KeysFacts.

(** The text of the entry of [/playlist.m3u] for channel [ch] under
    key [k]. *)
Definition entryText (protocol host k : string) (ch : Tuner.Channel) : string :=
  "#EXTINF:-1 channel-id=" ++ Tuner.dquote ++ "kayo-" ++ k ++ Tuner.dquote
    ++ " tvg-chno=" ++ Tuner.dquote ++ Js.String_of_number (Tuner.number ch) ++ Tuner.dquote
    ++ " tvg-name=" ++ Tuner.dquote ++ Tuner.name ch ++ Tuner.dquote
    ++ "," ++ Tuner.name ch ++ Tuner.newline
    ++ protocol ++ "://" ++ host ++ "/stream/" ++ k.

(** The channels of a list of own keys. *)
Lemma channels_of_keys (chs : list (string * Tuner.Channel)) (l : list string) :
  (forall k, In k l -> In k (map fst chs)) ->
  exists order : list (string * Tuner.Channel),
    map fst order = l /\ forall kc, In kc order -> In kc chs.
Proof.
  induction l as [|k l IH]; intros Hl.
  - exists []. split; [reflexivity|]. intros kc [].
  - destruct IH as (order & Hk & Hin); [intros k' Hk'; apply Hl; now right|].
    assert (Hk0 : In k (map fst chs)) by (apply Hl; now left).
    apply in_map_iff in Hk0 as ([k0 ch] & Hfst & Hch). simpl in Hfst. subst k0.
    exists ((k, ch) :: order). split; [simpl; now rewrite Hk|].
    intros kc [<-|Hkc]; auto.
Qed.

Lemma pair_of_key (chs : list (string * Tuner.Channel)) (k : string) (ch ch' : Tuner.Channel) :
  NoDup (map fst chs) -> In (k, ch) chs -> In (k, ch') chs -> ch = ch'.
Proof.
  intros Hnd H1 H2.
  pose proof (getOwn_In chs k ch Hnd H1) as E1.
  pose proof (getOwn_In chs k ch' Hnd H2) as E2. congruence.
Qed.

(** C9.  For a channel table with distinct keys, [/lineup.json] has one
    item per channel, each item holds the channel's number as a string,
    its display name and the URL of [/stream/<key>]; and the body of
    [/playlist.m3u] is the header followed by one entry per channel, the
    channels taken in ascending order of their guide number, each entry
    naming its channel's key, number, name and stream URL. *)
Theorem lineup_and_playlist_contract
  (chs : list (string * Tuner.Channel)) (protocol host : string) :
  NoDup (map fst chs) ->
  length (Tuner.lineup chs protocol host) = length chs
  /\ (forall item, In item (Tuner.lineup chs protocol host) ->
        exists key ch,
          In (key, ch) chs
          /\ Tuner.GuideNumber item = Js.String_of_number (Tuner.number ch)
          /\ Tuner.GuideName item = Tuner.name ch
          /\ Tuner.URL item = (protocol ++ "://" ++ host ++ "/stream/" ++ key)%string)
  /\ (forall key ch, In (key, ch) chs ->
        In {| Tuner.GuideNumber := Js.String_of_number (Tuner.number ch);
              Tuner.GuideName := Tuner.name ch;
              Tuner.URL := (protocol ++ "://" ++ host ++ "/stream/" ++ key)%string |}
           (Tuner.lineup chs protocol host))
  /\ exists order : list (string * Tuner.Channel),
       Permutation order chs
       /\ Sorted Z.le (map (fun kc => Tuner.number (snd kc)) order)
       /\ Tuner.playlist_m3u chs protocol host
          = ("#EXTM3U" ++ Tuner.newline ++ Tuner.newline
               ++ Js.join (Tuner.newline ++ Tuner.newline)
                    (map (fun kc => entryText protocol host (fst kc) (snd kc)) order))%string.
Proof.
  intros Hnd. split; [|split; [|split]].
  - unfold Tuner.lineup. rewrite length_map.
    rewrite (Permutation_length (Object_keys_perm chs)). apply length_map.
  - intros item Hitem. unfold Tuner.lineup in Hitem.
    apply in_map_iff in Hitem as (key & <- & Hkey).
    apply (Permutation_in _ (Object_keys_perm chs)) in Hkey.
    apply in_map_iff in Hkey as ([k ch] & <- & Hin). simpl.
    exists k, ch. unfold Tuner.numberText, Tuner.nameText, Tuner.streamUrl.
    rewrite (getOwn_In chs k ch Hnd Hin). auto.
  - intros key ch Hin. unfold Tuner.lineup. apply in_map_iff. exists key. split.
    + unfold Tuner.lineupItem, Tuner.numberText, Tuner.nameText, Tuner.streamUrl.
      now rewrite (getOwn_In chs key ch Hnd Hin).
    + apply (Permutation_in _ (Permutation_sym (Object_keys_perm chs))).
      apply in_map_iff. now exists (key, ch).
  - assert (Hperm : Permutation (Tuner.playlistOrder chs) (map fst chs)).
    { unfold Tuner.playlistOrder. rewrite sort_perm. apply Object_keys_perm. }
    destruct (channels_of_keys chs (Tuner.playlistOrder chs)) as (order & Hkeys & Hin).
    { intros k Hk. exact (Permutation_in _ Hperm Hk). }
    assert (Hown : forall kc, In kc order -> Js.getOwn chs (fst kc) = Some (snd kc)).
    { intros [k ch] Hkc. apply (getOwn_In chs k ch Hnd), Hin, Hkc. }
    exists order. split; [|split].
    + apply NoDup_ListNoDup in Hnd.
      apply Permutation.NoDup_Permutation.
      * apply (List.NoDup_map_inv fst). rewrite Hkeys.
        apply (Permutation_NoDup (Permutation_sym Hperm) Hnd).
      * apply (List.NoDup_map_inv fst), Hnd.
      * intros [k ch]. split; [apply Hin|]. intros Hch.
        assert (Hk : In k (map fst order)).
        { rewrite Hkeys. apply (Permutation_in _ (Permutation_sym Hperm)).
          apply in_map_iff. now exists (k, ch). }
        apply in_map_iff in Hk as ([k' ch'] & Hfst & Hkc). simpl in Hfst. subst k'.
        apply NoDup_ListNoDup in Hnd.
        now rewrite (pair_of_key chs k ch ch' Hnd Hch (Hin _ Hkc)).
    + replace (map (fun kc => Tuner.number (snd kc)) order)
        with (map (Tuner.numberOf chs) (Tuner.playlistOrder chs)).
      * apply Sorted_map_le. unfold Tuner.playlistOrder. apply sort_sorted. reflexivity.
      * rewrite <- Hkeys, map_map. apply map_ext_in. intros kc Hkc.
        unfold Tuner.numberOf. now rewrite (Hown kc Hkc).
    + unfold Tuner.playlist_m3u, Tuner.playlistEntries. do 4 f_equal.
      rewrite <- Hkeys, map_map. apply map_ext_in. intros kc Hkc.
      unfold Tuner.playlistEntry, entryText, Tuner.numberText, Tuner.nameText, Tuner.streamUrl.
      now rewrite (Hown kc Hkc).
Qed.

Lemma CHANNELS_keys_distinct : NoDup (map fst Tuner.CHANNELS).
Proof.
  unfold Tuner.CHANNELS. simpl.
  repeat (apply NoDup_cons; split; [rewrite list_elem_of_In; simpl; intuition discriminate|]).
  apply NoDup_nil_2.
Qed.

Lemma lineup_and_playlist_contract_witness :
  NoDup (map fst Tuner.CHANNELS)
  /\ length (Tuner.lineup Tuner.CHANNELS "http" "tuner:5589") = 12%nat
  /\ exists order : list (string * Tuner.Channel),
       Permutation order Tuner.CHANNELS
       /\ Sorted Z.le (map (fun kc => Tuner.number (snd kc)) order)
       /\ Tuner.playlist_m3u Tuner.CHANNELS "http" "tuner:5589"
          = ("#EXTM3U" ++ Tuner.newline ++ Tuner.newline
               ++ Js.join (Tuner.newline ++ Tuner.newline)
                    (map (fun kc => entryText "http" "tuner:5589" (fst kc) (snd kc)) order))%string.
Proof.
  split; [exact CHANNELS_keys_distinct|].
  split.
  - exact (proj1 (lineup_and_playlist_contract Tuner.CHANNELS "http" "tuner:5589"
                    CHANNELS_keys_distinct)).
  - exact (proj2 (proj2 (proj2
             (lineup_and_playlist_contract Tuner.CHANNELS "http" "tuner:5589"
                CHANNELS_keys_distinct)))).
Defined.

(** ** Channel target resolver *)

Section ResolverFacts.
Variable Layout : Type.
Variable scrollIntoView : nat -> Layout -> Layout.
Variable getBoundingClientRect : Layout -> nat -> Resolver.Rect.
Variable cursor : Layout -> nat -> string.

Local Abbreviation walk := (Resolver.walk Layout scrollIntoView getBoundingClientRect cursor).
Local Abbreviation tileOf := (Resolver.tileOf Layout scrollIntoView getBoundingClientRect cursor).
Local Abbreviation findTile := (Resolver.findTile Layout scrollIntoView getBoundingClientRect cursor).
Local Abbreviation candidate := (Resolver.pointerCandidate Layout getBoundingClientRect cursor).
Local Abbreviation resolve :=
  (Resolver.tileClickDirectStrategy Layout scrollIntoView getBoundingClientRect cursor).

(** The centre of an element's box once it is scrolled into view. *)
Definition centerInView (L : Layout) (e : Resolver.Element) : Resolver.Point :=
  Resolver.center
    (getBoundingClientRect (scrollIntoView (Resolver.eid e) L) (Resolver.eid e)).

Definition boxInView (L : Layout) (e : Resolver.Element) : Resolver.Rect :=
  getBoundingClientRect (scrollIntoView (Resolver.eid e) L) (Resolver.eid e).

(** The layout in which the walk looks at the next ancestor once it has
    passed over the ancestors [l], nearest first: the semantic ones
    among them have been scrolled into view, in that order. *)
Definition reached (L : Layout) (l : list Resolver.Element) : Layout :=
  fold_left (fun L' e => if Resolver.semantic e then scrollIntoView (Resolver.eid e) L' else L')
            l L.

(** Ancestor [e], met in layout [L], ends the walk: it is semantic and
    its box is not empty once it is scrolled into view. *)
Definition stops (L : Layout) (e : Resolver.Element) : bool :=
  Resolver.semantic e && Resolver.nonEmpty (boxInView L e).

(** None of the ancestors [l], met one after the other from layout
    [L], ends the walk. *)
Fixpoint passes (L : Layout) (l : list Resolver.Element) : bool :=
  match l with
  | [] => true
  | e :: r => negb (stops L e) && passes (reached L [e]) r
  end.

(** The pointer candidate of the ancestors [l]: the first of them that
    has a box larger than 20 by 20 and a pointer cursor in the layout
    in which the walk tests it. *)
Fixpoint recorded (L : Layout) (l : list Resolver.Element) : option Resolver.Element :=
  match l with
  | [] => None
  | e :: r => if candidate (reached L [e]) e then Some e else recorded (reached L [e]) r
  end.

Lemma reached_app (L : Layout) (l k : list Resolver.Element) :
  reached L (l ++ k) = reached (reached L l) k.
Proof. apply fold_left_app. Qed.

Lemma reached_plain (L : Layout) (l : list Resolver.Element) :
  (forall e, In e l -> Resolver.semantic e = false) -> reached L l = L.
Proof.
  induction l as [|e l IH]; simpl; intros Hl; [reflexivity|].
  rewrite (Hl e) by (now left). apply IH. auto.
Qed.

Lemma passes_plain (L : Layout) (l : list Resolver.Element) :
  (forall e, In e l -> Resolver.semantic e = false) -> passes L l = true.
Proof.
  revert L. induction l as [|e l IH]; simpl; intros L Hl; [reflexivity|].
  unfold stops. rewrite (Hl e) by (now left). simpl. apply IH. auto.
Qed.

Lemma recorded_plain (L : Layout) (l : list Resolver.Element) :
  (forall e, In e l -> Resolver.semantic e = false) ->
  recorded L l = List.find (candidate L) l.
Proof.
  induction l as [|e l IH]; simpl; intros Hl; [reflexivity|].
  rewrite (Hl e) by (now left). rewrite IH by auto. reflexivity.
Qed.

(** The loop over ancestors that it passes over. *)
Lemma walk_passes (bodyId : nat) (anc : list Resolver.Element)
      (fb : option Resolver.Element) (L : Layout) :
  passes L (Resolver.belowBody bodyId anc) = true ->
  walk bodyId anc fb L
  = (None,
     match fb with
     | Some f => Some f
     | None => recorded L (Resolver.belowBody bodyId anc)
     end,
     reached L (Resolver.belowBody bodyId anc)).
Proof.
  revert fb L. induction anc as [|h t IH]; intros fb L Hp; simpl.
  - now destruct fb.
  - simpl in Hp. destruct (Nat.eqb (Resolver.eid h) bodyId).
    + now destruct fb.
    + cbn [passes recorded reached fold_left] in Hp |- *.
      apply andb_prop in Hp as [Hh Ht]. apply negb_true_iff in Hh.
      unfold stops, boxInView in Hh.
      destruct (Resolver.semantic h) eqn:Hs; cbn [andb] in Hh |- *.
      * rewrite Hh. rewrite IH by exact Ht. destruct fb; [reflexivity|].
        now destruct (candidate (scrollIntoView (Resolver.eid h) L) h).
      * rewrite IH by exact Ht. destruct fb; [reflexivity|]. now destruct (candidate L h).
Qed.

(** The loop up to the ancestor that ends it. *)
Lemma walk_stops (bodyId : nat) (anc below above : list Resolver.Element)
      (a : Resolver.Element) (fb : option Resolver.Element) (L : Layout) :
  Resolver.belowBody bodyId anc = below ++ a :: above ->
  passes L below = true ->
  stops (reached L below) a = true ->
  exists fb', walk bodyId anc fb L
              = (Some (centerInView (reached L below) a), fb',
                 scrollIntoView (Resolver.eid a) (reached L below)).
Proof.
  revert below fb L. induction anc as [|h t IH]; intros below fb L Hlow Hp Hstop.
  - destruct below; discriminate.
  - simpl in Hlow. simpl. destruct (Nat.eqb (Resolver.eid h) bodyId).
    + destruct below; discriminate.
    + destruct below as [|b below'].
      * injection Hlow as -> _. simpl in Hstop. unfold stops, boxInView in Hstop.
        apply andb_prop in Hstop as [Hs Hbox]. rewrite Hs. simpl.
        rewrite Hbox. unfold centerInView. simpl. eauto.
      * injection Hlow as -> Hlow. simpl in Hp.
        apply andb_prop in Hp as [Hb Hrest]. apply negb_true_iff in Hb.
        unfold stops, boxInView in Hb. simpl in Hstop |- *.
        destruct (Resolver.semantic b) eqn:Hs; simpl in Hb.
        -- rewrite Hb. simpl. apply (IH below'); auto.
        -- simpl. apply (IH below'); auto.
Qed.

Lemma find_first {A : Type} (f : A -> bool) (pre post : list A) (a : A) :
  (forall e, In e pre -> f e = false) -> f a = true ->
  List.find f (pre ++ a :: post) = Some a.
Proof.
  induction pre as [|b pre IH]; simpl; intros Hpre Ha.
  - now rewrite Ha.
  - rewrite (Hpre b) by (now left). apply IH; auto.
Qed.

Lemma find_none {A : Type} (f : A -> bool) (l : list A) :
  (forall e, In e l -> f e = false) -> List.find f l = None.
Proof.
  induction l as [|b l IH]; simpl; intros Hl; [reflexivity|].
  rewrite (Hl b) by (now left). apply IH. auto.
Qed.

Lemma findTile_skip (slug : string) (bodyId : nat)
      (pre rest : list (Resolver.Element * list Resolver.Element)) (L : Layout) :
  (forall im, In im pre -> Resolver.matches slug (fst im) = false) ->
  findTile slug bodyId (pre ++ rest) L = findTile slug bodyId rest L.
Proof.
  induction pre as [|[im anc] pre IH]; simpl; intros Hpre; [reflexivity|].
  pose proof (Hpre (im, anc) (or_introl eq_refl)) as Him. simpl in Him.
  rewrite Him. apply IH. auto.
Qed.

Lemma findTile_none (slug : string) (bodyId : nat)
      (imgs : list (Resolver.Element * list Resolver.Element)) (L : Layout) :
  (forall im, In im imgs -> Resolver.matches slug (fst im) = true ->
     forall e, In e (Resolver.belowBody bodyId (snd im)) ->
       Resolver.semantic e = false /\ candidate L e = false) ->
  findTile slug bodyId imgs L = (None, L).
Proof.
  induction imgs as [|[im anc] imgs IH]; simpl; intros Hnone; [reflexivity|].
  destruct (Resolver.matches slug im) eqn:Hm.
  - assert (Hhere : forall e, In e (Resolver.belowBody bodyId anc) ->
                       Resolver.semantic e = false /\ candidate L e = false)
      by (intros e He; apply (Hnone (im, anc)); simpl; auto).
    unfold Resolver.tileOf.
    rewrite walk_passes by (apply passes_plain; intros e He; apply Hhere, He).
    rewrite reached_plain, recorded_plain by (intros e He; apply Hhere, He).
    rewrite find_none by (intros e He; apply Hhere, He).
    apply IH. intros im' Him'. apply Hnone. now right.
  - apply IH. intros im' Him'. apply Hnone. now right.
Qed.

(** Where a returned point comes from. *)
Definition eligible (slug : string) (d : Resolver.Document) (p : Resolver.Point) : Prop :=
  exists img anc a L1,
    In (img, anc) (Resolver.images d) /\ Resolver.matches slug img = true
    /\ In a (Resolver.belowBody (Resolver.body d) anc)
    /\ p = Resolver.center (getBoundingClientRect L1 (Resolver.eid a))
    /\ Resolver.nonEmpty (getBoundingClientRect L1 (Resolver.eid a)) = true
    /\ (Resolver.semantic a = true \/ exists L0, candidate L0 a = true).

Lemma walk_sound (bodyId : nat) (anc : list Resolver.Element)
      (fb : option Resolver.Element) (L : Layout) :
  match walk bodyId anc fb L with
  | (Some p, _, _) =>
      exists a L1, In a (Resolver.belowBody bodyId anc) /\ Resolver.semantic a = true
                   /\ p = Resolver.center (getBoundingClientRect L1 (Resolver.eid a))
                   /\ Resolver.nonEmpty (getBoundingClientRect L1 (Resolver.eid a)) = true
  | (None, Some f, _) =>
      fb = Some f
      \/ (In f (Resolver.belowBody bodyId anc) /\ exists L0, candidate L0 f = true)
  | (None, None, _) => True
  end.
Proof.
  revert fb L. induction anc as [|h t IH]; intros fb L; simpl.
  - destruct fb; auto.
  - destruct (Nat.eqb (Resolver.eid h) bodyId); [destruct fb; auto|].
    set (L1 := if Resolver.semantic h then scrollIntoView (Resolver.eid h) L else L).
    destruct (Resolver.semantic h && Resolver.nonEmpty (getBoundingClientRect L1 (Resolver.eid h)))
      eqn:Hstop.
    + apply andb_prop in Hstop as [Hs Hbox]. exists h, L1. simpl. auto.
    + set (fb1 := match fb with
                  | Some f => Some f
                  | None => if candidate L1 h then Some h else None
                  end).
      specialize (IH fb1 L1).
      destruct (walk bodyId t fb1 L1) as [[[p|] [f|]] L2]; auto.
      * destruct IH as (a & L3 & Ha & H). exists a, L3. simpl. auto.
      * destruct IH as (a & L3 & Ha & H). exists a, L3. simpl. auto.
      * destruct IH as [E|[Hin H]]; [|right; simpl; auto].
        subst fb1. destruct fb as [f0|]; [now left|].
        destruct (candidate L1 h) eqn:Hc; [|discriminate].
        injection E as <-. right. simpl. eauto.
Qed.

Lemma findTile_sound (slug : string) (d : Resolver.Document)
      (imgs : list (Resolver.Element * list Resolver.Element)) (L : Layout) (p : Resolver.Point) :
  (forall im, In im imgs -> In im (Resolver.images d)) ->
  fst (findTile slug (Resolver.body d) imgs L) = Some p -> eligible slug d p.
Proof.
  revert L. induction imgs as [|[img anc] imgs IH]; simpl; intros L Hsub Hp; [discriminate|].
  assert (Hrest : forall im, In im imgs -> In im (Resolver.images d)) by auto.
  destruct (Resolver.matches slug img) eqn:Hm; [|exact (IH L Hrest Hp)].
  unfold Resolver.tileOf in Hp.
  pose proof (walk_sound (Resolver.body d) anc None L) as Hw.
  destruct (walk (Resolver.body d) anc None L) as [[[q|] [f|]] L1].
  - simpl in Hp. injection Hp as ->. destruct Hw as (a & L2 & Ha & Hs & Hq & Hbox).
    exists img, anc, a, L2. auto 10.
  - simpl in Hp. injection Hp as ->. destruct Hw as (a & L2 & Ha & Hs & Hq & Hbox).
    exists img, anc, a, L2. auto 10.
  - destruct Hw as [Hw|[Hin Hc]]; [discriminate|].
    destruct (Resolver.nonEmpty
                (getBoundingClientRect (scrollIntoView (Resolver.eid f) L1) (Resolver.eid f)))
      eqn:Hbox.
    + simpl in Hp. injection Hp as <-.
      exists img, anc, f, (scrollIntoView (Resolver.eid f) L1). auto 10.
    + exact (IH _ Hrest Hp).
  - exact (IH _ Hrest Hp).
Qed.


End ResolverFacts.



(** ** The event loop *)

Import Server.

Lemma occurrences_app (f : Effect -> bool) (l k : list Effect) :
  occurrences f (l ++ k) = (occurrences f l + occurrences f k)%nat.
Proof. unfold occurrences. now rewrite List.filter_app, length_app. Qed.

Lemma history_app (i : nat) (l k : list Effect) :
  history i (l ++ k) = history i l ++ history i k.
Proof. apply flat_map_app. Qed.

Lemma enqueued_app (l k : list Effect) : enqueued (l ++ k) = enqueued l ++ enqueued k.
Proof. apply flat_map_app. Qed.

Lemma woken_app (l k : list Effect) : woken (l ++ k) = woken l ++ woken k.
Proof. apply flat_map_app. Qed.

(** What [cleanup] leaves of the variables of a session, what
    [notifyStreamSlot] does to the sessions, and what a run of the body
    of [cleanup] adds to the log. *)
Definition tidy (x : Session) : Session :=
  {| kind := kind x; channel := channel x; pc := pc x; page := page x; stream := stream x;
     ffmpegProcess := option_map (fun p => fst (Transcoder.kill p)) (ffmpegProcess x);
     done_ := true; countedStream := false |}.

Definition wakeHead (q : list nat) (l : list Session) : list Session :=
  match q with
  | w :: _ => alter (settle true) w l
  | [] => l
  end.

Definition cleanupEffects (i : nat) (reason : string) (x : Session) (active : Z)
           (q : list nat) : list Effect :=
  [CleanupRan i reason]
    ++ match ffmpegProcess x with
       | Some p => if Transcoder.killed p then [] else [Killed i]
       | None => []
       end
    ++ (if stream x then [Destroyed i] else [])
    ++ (if countedStream x
        then (if 0 <? active then [Decremented i] else [])
               ++ [Notified i] ++ match q with w :: _ => [Woke w] | [] => [] end
        else [])
    ++ match page x with Some p => [PageClosed i p] | None => [] end.

(** Evaluation of the blocks of the handlers on an explicit state. *)
Ltac crunch :=
  cbv beta iota zeta delta
    [step resumeChannel resumeGeneric Server.fail pipe goto mark start takeSlot
     waitForStreamSlot onTimeout acquirePage getCurrentBrowser killTranscoder releaseSlot
     releasePage notifyStreamSlot onSlot modify emit setActiveStreams setWaiters setPages
     setSessions setBrowser
     kind channel pc page stream ffmpegProcess done_ countedStream
     activeStreams waiters currentBrowser launches pagesInUse nextPage sessions log
     fst snd negb andb Transcoder.kill Transcoder.killed].

Ltac crunch_in H :=
  cbv beta iota zeta delta
    [step resumeChannel resumeGeneric Server.fail pipe goto mark start takeSlot
     waitForStreamSlot onTimeout acquirePage getCurrentBrowser killTranscoder releaseSlot
     releasePage notifyStreamSlot onSlot modify emit setActiveStreams setWaiters setPages
     setSessions setBrowser
     kind channel pc page stream ffmpegProcess done_ countedStream
     activeStreams waiters currentBrowser launches pagesInUse nextPage sessions log
     fst snd negb andb Transcoder.kill Transcoder.killed] in H.

Lemma cleanup_skip (i : nat) (reason : string) (s : State) :
  (forall x, sessions s !! i = Some x -> done_ x = true) ->
  cleanup i reason s = s.
Proof.
  intros Hdone. unfold cleanup. destruct (sessions s !! i) as [x|]; [|reflexivity].
  now rewrite (Hdone x eq_refl).
Qed.

Lemma alter_tidy (f : Session -> Session) (i : nat) (l : list Session) (x : Session) :
  l !! i = Some x -> f x = tidy x -> alter f i l = alter tidy i l.
Proof.
  intros Hx Hf. apply list_alter_ext; [|reflexivity].
  intros y Hy. congruence.
Qed.

Lemma cleanup_body (i : nat) (reason : string) (s : State) (x : Session) :
  sessions s !! i = Some x -> done_ x = false ->
  activeStreams (cleanup i reason s)
  = (if countedStream x && (0 <? activeStreams s) then activeStreams s - 1
     else activeStreams s)
  /\ waiters (cleanup i reason s) = (if countedStream x then tail (waiters s) else waiters s)
  /\ currentBrowser (cleanup i reason s) = currentBrowser s
  /\ launches (cleanup i reason s) = launches s
  /\ nextPage (cleanup i reason s) = nextPage s
  /\ pagesInUse (cleanup i reason s)
     = match page x with Some p => pagesInUse s ∖ {[p]} | None => pagesInUse s end
  /\ sessions (cleanup i reason s)
     = (if countedStream x then wakeHead (waiters s) else id) (alter tidy i (sessions s))
  /\ log (cleanup i reason s)
     = log s ++ cleanupEffects i reason x (activeStreams s) (waiters s).
Proof.
  intros Hx Hdone. unfold cleanup. rewrite Hx, Hdone.
  destruct x as [k c p pg st ff dn cs]. simpl in Hdone. subst dn.
  destruct s as [a q b n ps np ss lg]. simpl in Hx.
  destruct ff as [[sd kd]|]; [destruct kd|]; destruct st; destruct cs; destruct pg;
    destruct q as [|w q].
  all: unfold cleanupEffects, wakeHead, id; crunch.
  all: try (destruct (0 <? a)).
  all: crunch; cbn [tail].
  all: rewrite ?list_alter_alter_eq, <- ?app_assoc; cbn [app].
  all: repeat split; try reflexivity.
  all: first [ eapply alter_tidy; [exact Hx|reflexivity]
             | apply (f_equal (alter (settle true) w)); eapply alter_tidy; [exact Hx|reflexivity] ].
Qed.

(** *** What holds of each session *)

(** Whether the handler is past its [activeStreams++]. *)
Definition afterSlot (k : Kind) (c : Pc) : bool :=
  match c with
  | AcquiringPage | Navigating | WaitingSlot _ => false
  | StartingCapture => match k with ChannelStream => false | GenericStream => true end
  | _ => true
  end.

(** A session counts as a stream only past the increment, and it waits
    in the queue with the budget of its handler. *)
Definition local (x : Session) : Prop :=
  (countedStream x = true -> afterSlot (kind x) (pc x) = true)
  /\ (forall ms, pc x = WaitingSlot (Queued ms) -> ms = QUEUE_WAIT_MS).

Definition eachSession (P : nat -> Session -> Prop) (l : list Session) : Prop :=
  forall j y, l !! j = Some y -> P j y.

Lemma eachSession_alter (P P' : nat -> Session -> Prop) (f : Session -> Session)
      (i : nat) (l : list Session) :
  eachSession P l ->
  (forall j y, j <> i -> P j y -> P' j y) ->
  (forall y, l !! i = Some y -> P i y -> P' i (f y)) ->
  eachSession P' (alter f i l).
Proof.
  intros Hl Hother Hi j y. rewrite list_lookup_alter. case_decide as Hij.
  - subst j. destruct (l !! i) as [z|] eqn:Hz; simpl; [|discriminate].
    intros [= <-]. apply Hi; auto.
  - intros Hy. apply Hother; auto.
Qed.

Lemma eachSession_app (P P' : nat -> Session -> Prop) (l : list Session) (x : Session) :
  eachSession P l ->
  (forall j y, j <> length l -> P j y -> P' j y) ->
  P' (length l) x ->
  eachSession P' (l ++ [x]).
Proof.
  intros Hl Hother Hx j y Hy. apply lookup_app_Some in Hy as [Hy|[Hlen Hy]].
  - apply Hother; [|now apply Hl]. apply lookup_lt_Some in Hy. lia.
  - destruct (j - length l)%nat as [|m] eqn:Hm; simpl in Hy; [|now destruct m].
    injection Hy as <-. replace j with (length l) by lia. exact Hx.
Qed.

Lemma eachSession_weaken (P P' : nat -> Session -> Prop) (l : list Session) :
  eachSession P l -> (forall j y, P j y -> P' j y) -> eachSession P' l.
Proof. intros Hl Himp j y Hy. apply Himp, Hl, Hy. Qed.

Lemma eachSession_wakeHead (P : nat -> Session -> Prop) (q : list nat) (l : list Session) :
  eachSession P l ->
  (forall j y, P j y -> P j (settle true y)) ->
  eachSession P (wakeHead q l).
Proof.
  intros Hl Hw. destruct q as [|w q]; simpl; [exact Hl|].
  apply (eachSession_alter P P); auto.
Qed.


(** Opening the state a [cleanup] returns, with the lemmas above. *)
Ltac open_cleanup Hx :=
  match goal with
  | |- context [cleanup ?i ?r ?st] =>
      first
        [ rewrite (cleanup_skip i r st)
            by (intros ? Hq; cbn [sessions] in Hq; rewrite Hx in Hq;
                injection Hq as <-; reflexivity)
        | let E := fresh "E" in
          pose proof (cleanup_body i r st _ Hx eq_refl) as E;
          revert E; generalize (cleanup i r st);
          intros [a1 q1 b1 n1 ps1 np1 ss1 lg1] E;
          crunch_in E;
          destruct E as (-> & -> & -> & -> & -> & -> & -> & ->) ]
  end.

Ltac split_conds :=
  repeat match goal with
         | |- context [match ?b with Some _ => _ | None => _ end] => is_var b; destruct b
         | |- context [if ?c then _ else _] => is_var c; destruct c
         | |- context [if ?a <? MAX_CONCURRENT_STREAMS then _ else _] =>
             destruct (Z.ltb_spec a MAX_CONCURRENT_STREAMS)
         end.

Ltac split_event mpegts e s :=
  destruct s as [a q b n ps np ss lg];
  destruct e as [param|u|i o|i src|i|];
  [ unfold step; destruct (Tuner.streamRoute param) as [status body|c name]
  | unfold step; destruct u as [[|ch u]|]
  | unfold step; cbn [sessions]; destruct (ss !! i) as [x|] eqn:Hx;
    [ destruct x as [k c p pg st ff dn cs]; destruct k;
      [unfold resumeChannel|unfold resumeGeneric]; cbn [kind pc];
      destruct p as [| | |[ms|[|]]| | | | |]; destruct o |]
  | unfold step; cbn [sessions]; destruct (ss !! i) as [x|] eqn:Hx;
    [ destruct (trigger x src) as [reason|]; [destruct x as [k c p pg st ff dn cs]|] |]
  | unfold step; cbn [sessions]; destruct (ss !! i) as [x|] eqn:Hx;
    [ destruct x as [k c p pg st ff dn cs]; cbn [pc];
      destruct p as [| | |[ms|[|]]| | | | |] |]
  | unfold step ].

Lemma local_settle (y : Session) : local y -> local (settle true y).
Proof.
  destruct y as [k c p pg st ff dn cs]. unfold local, settle. simpl.
  destruct p as [| | |[ms|[|]]| | | | |]; simpl; intros [H1 H2]; split; auto; discriminate.
Qed.

Lemma eachSession_at (P : nat -> Session -> Prop) (f : Session -> Session)
      (i : nat) (l : list Session) (x : Session) :
  eachSession P l -> l !! i = Some x -> (P i x -> P i (f x)) ->
  eachSession P (alter f i l).
Proof.
  intros Hl Hx Hf. apply (eachSession_alter P P); auto.
  intros y Hy. rewrite Hx in Hy. now injection Hy as <-.
Qed.

Lemma eachSession_any (P : nat -> Session -> Prop) (f : Session -> Session)
      (i : nat) (l : list Session) :
  eachSession P l -> (forall y, P i y -> P i (f y)) ->
  eachSession P (alter f i l).
Proof. intros Hl Hf. apply (eachSession_alter P P); auto. Qed.

Lemma local_tidy (y : Session) : local y -> local (tidy y).
Proof. unfold local. cbn. intros [H1 H2]. split; [discriminate|exact H2]. Qed.

Lemma local_returned (y : Session) : local y -> local (withPc Returned y).
Proof. unfold local. cbn. intros [H1 H2]. split; [reflexivity|discriminate]. Qed.

Lemma cleanup_local (i : nat) (reason : string) (s : State) :
  eachSession (fun _ => local) (sessions s) ->
  eachSession (fun _ => local) (sessions (cleanup i reason s)).
Proof.
  intros Hl. destruct (sessions s !! i) as [x|] eqn:Hx.
  - destruct (done_ x) eqn:Hd.
    + rewrite cleanup_skip; [exact Hl|]. intros y Hy. congruence.
    + destruct (cleanup_body i reason s x Hx Hd) as (_ & _ & _ & _ & _ & _ & -> & _).
      destruct (countedStream x); cbn [id].
      * apply eachSession_wakeHead; [|intros ?; apply local_settle].
        apply eachSession_any; [exact Hl|intros ?; apply local_tidy].
      * apply eachSession_any; [exact Hl|intros ?; apply local_tidy].
  - rewrite cleanup_skip; [exact Hl|]. intros y Hy. congruence.
Qed.

Lemma step_local (mpegts : bool) (e : Event) (s : State) :
  eachSession (fun _ => local) (sessions s) ->
  eachSession (fun _ => local) (sessions (step mpegts e s)).
Proof.
  intros Hl. split_event mpegts e s; cbn [sessions] in Hl.
  all: try exact Hl.
  all: crunch; split_conds; crunch.
  all: try exact Hl.
  all: try (apply cleanup_local; exact Hl).
  all: try (apply eachSession_any; [apply cleanup_local; exact Hl|intros ?; apply local_returned]).
  all: rewrite ?list_alter_alter_eq.
  all: try (apply (eachSession_app (fun _ => local)); [exact Hl|auto|split; [discriminate|discriminate]]).
  all: try (eapply eachSession_at; [exact Hl|exact Hx|]; unfold local, settle; cbn;
            intros [? ?]; split; intros; try discriminate; auto; congruence).
  apply eachSession_any; [|intros ?; apply local_returned].
  apply cleanup_local. cbn [sessions].
  apply eachSession_any; [exact Hl|]. intros y. unfold local. cbn. auto.
Qed.

(** *** The counter equals the number of counted sessions *)

Lemma held_cons (x : Session) (l : list Session) :
  held (x :: l) = Z.b2z (countedStream x) + held l.
Proof.
  destruct x as [k c p pg st ff dn cs]. unfold held. cbn.
  destruct cs; cbn [length Z.b2z]; lia.
Qed.

Lemma held_app (l : list Session) (x : Session) :
  held (l ++ [x]) = held l + Z.b2z (countedStream x).
Proof.
  induction l as [|y l IH].
  - change ([] ++ [x]) with [x]. rewrite held_cons. unfold held. cbn [List.filter length]. lia.
  - change ((y :: l) ++ [x]) with (y :: (l ++ [x])). rewrite !held_cons, IH. lia.
Qed.

Lemma held_alter (f : Session -> Session) (i : nat) (l : list Session) (x : Session) :
  l !! i = Some x ->
  held (alter f i l) = held l - Z.b2z (countedStream x) + Z.b2z (countedStream (f x)).
Proof.
  revert i. induction l as [|y l IH]; intros [|i] Hx; try discriminate.
  - injection Hx as ->. cbn [alter list_alter]. rewrite !held_cons. lia.
  - cbn [alter list_alter]. rewrite !held_cons. cbn in Hx.
    change (list_alter f i l) with (alter f i l). rewrite (IH i Hx). lia.
Qed.

Lemma held_alter_keep (f : Session -> Session) (i : nat) (l : list Session) :
  (forall y, countedStream (f y) = countedStream y) ->
  held (alter f i l) = held l.
Proof.
  intros Hf. revert i. induction l as [|y l IH]; intros [|i]; try reflexivity.
  - cbn [alter list_alter]. now rewrite !held_cons, Hf.
  - cbn [alter list_alter]. rewrite !held_cons.
    change (list_alter f i l) with (alter f i l). now rewrite IH.
Qed.

Lemma held_wakeHead (q : list nat) (l : list Session) : held (wakeHead q l) = held l.
Proof.
  destruct q as [|w q]; [reflexivity|]. apply held_alter_keep.
  intros y. unfold settle. now destruct (pc y) as [| | |[|]| | | | |].
Qed.

Lemma held_pos (l : list Session) (i : nat) (x : Session) :
  l !! i = Some x -> countedStream x = true -> 1 <= held l.
Proof.
  revert i. induction l as [|y l IH]; intros [|i] Hx Hc; try discriminate.
  - injection Hx as ->. rewrite held_cons, Hc. unfold held. simpl. lia.
  - rewrite held_cons. specialize (IH i Hx Hc). destruct (countedStream y); simpl; lia.
Qed.

(** The counter is the number of sessions whose [_countedStream] is set. *)
Definition balanced (s : State) : Prop := activeStreams s = held (sessions s).

Lemma cleanup_balanced (i : nat) (reason : string) (s : State) :
  balanced s -> balanced (cleanup i reason s).
Proof.
  unfold balanced. intros Hb. destruct (sessions s !! i) as [x|] eqn:Hx.
  - destruct (done_ x) eqn:Hd.
    + rewrite cleanup_skip; [exact Hb|]. intros y Hy. congruence.
    + destruct (cleanup_body i reason s x Hx Hd) as (-> & _ & _ & _ & _ & _ & -> & _).
      destruct (countedStream x) eqn:Hc; cbn [id andb].
      * rewrite held_wakeHead, (held_alter tidy i _ x Hx), Hc. cbn.
        pose proof (held_pos _ i x Hx Hc) as Hpos.
        destruct (Z.ltb_spec 0 (activeStreams s)); lia.
      * rewrite (held_alter tidy i _ x Hx), Hc. cbn. lia.
  - rewrite cleanup_skip; [exact Hb|]. intros y Hy. congruence.
Qed.

Lemma step_balanced (mpegts : bool) (e : Event) (s : State) :
  eachSession (fun _ => local) (sessions s) -> balanced s -> balanced (step mpegts e s).
Proof.
  intros Hl Hb. split_event mpegts e s; unfold balanced in *;
    cbn [sessions activeStreams] in Hl, Hb.
  all: try exact Hb.
  all: crunch; split_conds; crunch.
  all: try exact Hb.
  all: try (apply cleanup_balanced; exact Hb).
  all: rewrite ?list_alter_alter_eq.
  all: try (rewrite held_alter_keep by (intros ?; reflexivity)).
  all: try exact Hb.
  all: try (apply cleanup_balanced; exact Hb).
  all: try (rewrite held_app; cbn; lia).
  all: try (apply cleanup_balanced; unfold balanced; cbn [sessions activeStreams];
            rewrite ?held_alter_keep by (intros ?; reflexivity); exact Hb).
  all: try (rewrite (held_alter _ i ss _ Hx); cbn;
            destruct (Hl i _ Hx) as [Hcs _]; cbn in Hcs; destruct cs;
            [specialize (Hcs eq_refl); discriminate|cbn; lia]).
Qed.

(** *** What one turn of the loop adds to the log *)

Definition doneOf (s : State) (i : nat) : option bool :=
  (fun x => done_ x) <$> (sessions s !! i).

(** Effects that are no action of any [cleanup]. *)
Definition calm (d : list Effect) : Prop :=
  (forall i, occurrences (ranBy i) d = 0%nat /\ occurrences (closedBy i) d = 0%nat
             /\ occurrences (decrementedBy i) d = 0%nat
             /\ occurrences (notifiedBy i) d = 0%nat)
  /\ woken d = [].

Lemma lookup_alter_keep {A : Type} (g : Session -> A) (f : Session -> Session)
      (i j : nat) (l : list Session) :
  (forall y, g (f y) = g y) -> g <$> (alter f i l !! j) = g <$> (l !! j).
Proof.
  intros Hf. rewrite list_lookup_alter. case_decide as Hij; [subst j|reflexivity].
  destruct (l !! i); cbn; [now rewrite Hf|reflexivity].
Qed.

Lemma lookup_wakeHead_keep {A : Type} (g : Session -> A) (q : list nat) (j : nat)
      (l : list Session) :
  (forall y, g (settle true y) = g y) -> g <$> (wakeHead q l !! j) = g <$> (l !! j).
Proof. intros Hg. destruct q as [|w q]; [reflexivity|]. now apply lookup_alter_keep. Qed.

Lemma done_settle (b : bool) (y : Session) : done_ (settle b y) = done_ y.
Proof. unfold settle. now destruct (pc y) as [| | |[|]| | | | |]. Qed.

Lemma counted_settle (b : bool) (y : Session) :
  countedStream (settle b y) = countedStream y.
Proof. unfold settle. now destruct (pc y) as [| | |[|]| | | | |]. Qed.

Lemma kind_settle (b : bool) (y : Session) : kind (settle b y) = kind y.
Proof. unfold settle. now destruct (pc y) as [| | |[|]| | | | |]. Qed.

Lemma doneOf_cleaned (i j : nat) (q : list nat) (b : bool) (ss : list Session) (x : Session) :
  ss !! i = Some x ->
  (fun y => done_ y) <$> ((if b then wakeHead q else id) (alter tidy i ss) !! j)
  = if decide (j = i) then Some true else (fun y => done_ y) <$> (ss !! j).
Proof.
  intros Hx.
  assert (Hal : (fun y => done_ y) <$> (alter tidy i ss !! j)
                = if decide (j = i) then Some true else (fun y => done_ y) <$> (ss !! j)).
  { rewrite list_lookup_alter. case_decide; case_decide; try congruence.
    subst j. now rewrite Hx. }
  destruct b; cbn [id]; [|exact Hal].
  rewrite lookup_wakeHead_keep by (intros ?; apply done_settle). exact Hal.
Qed.

(** A turn either runs no [cleanup] body, or the body of one session. *)
Definition stepQuiet (s s' : State) : Prop :=
  exists d, log s' = log s ++ d /\ calm d
            /\ forall j, doneOf s' j = doneOf s j
                         \/ (doneOf s j = None /\ doneOf s' j = Some false).

Definition stepCleans (s s' : State) : Prop :=
  exists i x x' reason pre,
    sessions s !! i = Some x /\ done_ x = false
    /\ countedStream x' = countedStream x /\ page x' = page x
    /\ calm pre
    /\ log s' = log s ++ pre ++ cleanupEffects i reason x' (activeStreams s) (waiters s)
    /\ activeStreams s'
       = (if countedStream x && (0 <? activeStreams s) then activeStreams s - 1
          else activeStreams s)
    /\ waiters s' = (if countedStream x then tail (waiters s) else waiters s)
    /\ forall j, doneOf s' j = if decide (j = i) then Some true else doneOf s j.

Ltac quiet_step :=
  left; eexists; split;
  [ cbn [log]; rewrite <- ?app_assoc; cbn [app];
    first [reflexivity | symmetry; apply app_nil_r]
  | split;
    [ split; [intros ?; repeat split; reflexivity | reflexivity]
    | intros j; left; unfold doneOf; cbn [sessions];
      rewrite ?list_alter_alter_eq;
      first [ reflexivity
            | apply lookup_alter_keep; intros ?; reflexivity
            | apply lookup_alter_keep; intros ?; apply done_settle ] ] ].

Ltac cleans_step Hx0 pre :=
  match goal with
  | |- context [cleanupEffects ?i ?r ?x' _ _] =>
      match type of Hx0 with
      | _ = Some ?x =>
          right; exists i, x, x', r, pre;
          split; [exact Hx0|];
          split; [reflexivity|];
          split; [reflexivity|];
          split; [reflexivity|];
          split; [split; [intros ?; repeat split; reflexivity|reflexivity]|];
          split; [cbn [log]; rewrite <- ?app_assoc; reflexivity|];
          split; [reflexivity|];
          split; [reflexivity|];
          intros j; unfold doneOf; cbn [sessions];
          rewrite ?(lookup_alter_keep (fun y => done_ y) (withPc Returned))
            by (intros ?; reflexivity)
      end
  end.

Lemma start_quiet (a : Z) (q : list nat) (b : option nat) (n : nat) (ps : gset nat)
      (np : nat) (ss : list Session) (lg : list Effect) (x : Session) (e : Effect) :
  done_ x = false -> calm [e] ->
  stepQuiet
    {| activeStreams := a; waiters := q; currentBrowser := b; launches := n;
       pagesInUse := ps; nextPage := np; sessions := ss; log := lg |}
    {| activeStreams := a; waiters := q; currentBrowser := b; launches := n;
       pagesInUse := ps; nextPage := np; sessions := ss ++ [x]; log := lg ++ [e] |}.
Proof.
  intros Hd Hcalm. exists [e]. split; [reflexivity|]. split; [exact Hcalm|].
  intros j. unfold doneOf. cbn [sessions].
  destruct (lt_eq_lt_dec j (length ss)) as [[Hlt|Heq]|Hgt].
  - left. now rewrite lookup_app_l.
  - right. subst j. rewrite list_lookup_middle by reflexivity.
    rewrite lookup_ge_None_2 by lia. cbn. now rewrite Hd.
  - left. rewrite !lookup_ge_None_2; [reflexivity|lia|rewrite length_app; cbn; lia].
Qed.

Ltac pre_of L lg :=
  match L with
  | lg => constr:(@nil Effect)
  | ?L' ++ [?e] => let p := pre_of L' lg in constr:(p ++ [e])
  end.

Ltac cleans_auto Hx0 lg :=
  match goal with
  | |- context [?L ++ cleanupEffects _ _ _ _ _] =>
      let p := pre_of L lg in cleans_step Hx0 p
  end.

Lemma step_summary (mpegts : bool) (e : Event) (s : State) :
  stepQuiet s (step mpegts e s) \/ stepCleans s (step mpegts e s).
Proof.
  split_event mpegts e s.
  all: crunch; split_conds; crunch.
  all: try solve [quiet_step].
  all: try solve [left; apply start_quiet;
                  [reflexivity|split; [intros ?; repeat split; reflexivity|reflexivity]]].
  all: try solve [destruct dn; open_cleanup Hx; crunch;
                  [quiet_step
                  |cleans_auto Hx lg; apply (doneOf_cleaned _ _ _ _ _ _ Hx)]].
  assert (Hx' : alter (withStream true) i ss !! i
                = Some (withStream true
                          {| kind := GenericStream; channel := c; pc := StartingCapture;
                             page := pg; stream := st; ffmpegProcess := ff; done_ := dn;
                             countedStream := cs |}))
    by (now rewrite list_lookup_alter_eq, Hx).
  destruct dn; open_cleanup Hx'; crunch.
  - quiet_step.
  - cleans_auto Hx lg. rewrite (doneOf_cleaned _ _ _ _ _ _ Hx').
    case_decide; [reflexivity|]. apply lookup_alter_keep. reflexivity.
Qed.

(** *** Cleanup runs at most once per session *)

Definition quiet (i : nat) (l : list Effect) : Prop :=
  occurrences (ranBy i) l = 0%nat /\ occurrences (closedBy i) l = 0%nat
  /\ occurrences (decrementedBy i) l = 0%nat /\ occurrences (notifiedBy i) l = 0%nat.

Definition once (i : nat) (l : list Effect) : Prop :=
  occurrences (ranBy i) l = 1%nat /\ (occurrences (closedBy i) l <= 1)%nat
  /\ (occurrences (decrementedBy i) l <= 1)%nat
  /\ (occurrences (notifiedBy i) l <= 1)%nat.

(** The log shows one run of the body of [cleanup] for a session whose
    guard is set, and none for the others. *)
Definition accounted (s : State) : Prop :=
  forall i, match doneOf s i with
            | Some true => once i (log s)
            | _ => quiet i (log s)
            end.

Lemma doneOf_lookup (s : State) (i : nat) (x : Session) :
  sessions s !! i = Some x -> doneOf s i = Some (done_ x).
Proof. intros Hx. unfold doneOf. now rewrite Hx. Qed.

Lemma cleanupEffects_counts (i j : nat) (reason : string) (x : Session) (a : Z)
      (q : list nat) :
  occurrences (ranBy j) (cleanupEffects i reason x a q) = (if Nat.eqb i j then 1 else 0)%nat
  /\ occurrences (closedBy j) (cleanupEffects i reason x a q)
     = (if Nat.eqb i j then match page x with Some _ => 1 | None => 0 end else 0)%nat
  /\ occurrences (decrementedBy j) (cleanupEffects i reason x a q)
     = (if Nat.eqb i j then if countedStream x && (0 <? a)%Z then 1 else 0 else 0)%nat
  /\ occurrences (notifiedBy j) (cleanupEffects i reason x a q)
     = (if Nat.eqb i j then if countedStream x then 1 else 0 else 0)%nat
  /\ woken (cleanupEffects i reason x a q)
     = (if countedStream x then firstn 1 q else []).
Proof.
  unfold cleanupEffects, occurrences.
  destruct x as [k c p [pg|] [|] [[sd [|]]|] dn [|]]; destruct (0 <? a); destruct q as [|w q];
    cbn; destruct (Nat.eqb i j); repeat split; reflexivity.
Qed.

Lemma calm_occurrences (d : list Effect) (l : list Effect) (i : nat) :
  calm d ->
  occurrences (ranBy i) (l ++ d) = occurrences (ranBy i) l
  /\ occurrences (closedBy i) (l ++ d) = occurrences (closedBy i) l
  /\ occurrences (decrementedBy i) (l ++ d) = occurrences (decrementedBy i) l
  /\ occurrences (notifiedBy i) (l ++ d) = occurrences (notifiedBy i) l
  /\ woken (l ++ d) = woken l.
Proof.
  intros [Hc Hw]. destruct (Hc i) as (H1 & H2 & H3 & H4).
  rewrite !occurrences_app, woken_app, H1, H2, H3, H4, Hw, app_nil_r.
  repeat split; lia.
Qed.

Lemma step_accounted (mpegts : bool) (e : Event) (s : State) :
  accounted s -> accounted (step mpegts e s).
Proof.
  intros Hacc j. specialize (Hacc j).
  destruct (step_summary mpegts e s) as [(d & -> & Hcalm & Hdone)
    |(i & x & x' & reason & pre & Hx & Hd & Hc & Hp & Hcalm & -> & _ & _ & Hdone)].
  - destruct (calm_occurrences d (log s) j Hcalm) as (E1 & E2 & E3 & E4 & _).
    unfold once, quiet in *. rewrite E1, E2, E3, E4.
    destruct (Hdone j) as [->|[Hn ->]]; [exact Hacc|]. now rewrite Hn in Hacc.
  - rewrite Hdone.
    destruct Hcalm as [Hpre _]. destruct (Hpre j) as (E1 & E2 & E3 & E4).
    destruct (cleanupEffects_counts i j reason x' (activeStreams s) (waiters s))
      as (C1 & C2 & C3 & C4 & _).
    unfold once, quiet in *.
    rewrite !occurrences_app, E1, E2, E3, E4, C1, C2, C3, C4.
    case_decide as Hji.
    + subst j. rewrite Nat.eqb_refl.
      assert (Hq : doneOf s i = Some false) by (rewrite (doneOf_lookup _ _ _ Hx); now rewrite Hd).
      rewrite Hq in Hacc. destruct Hacc as (-> & -> & -> & ->).
      destruct (page x'), (countedStream x' && (0 <? activeStreams s)), (countedStream x');
        repeat split; lia.
    + assert (Hne : Nat.eqb i j = false) by (apply Nat.eqb_neq; congruence).
      rewrite Hne, !Nat.add_0_r. exact Hacc.
Qed.

(** Once a session's cleanup has run, no turn of the loop adds to its
    cleanup actions. *)
Lemma step_frozen (mpegts : bool) (e : Event) (s : State) (i : nat) :
  doneOf s i = Some true ->
  doneOf (step mpegts e s) i = Some true
  /\ occurrences (ranBy i) (log (step mpegts e s)) = occurrences (ranBy i) (log s)
  /\ occurrences (closedBy i) (log (step mpegts e s)) = occurrences (closedBy i) (log s)
  /\ occurrences (decrementedBy i) (log (step mpegts e s))
     = occurrences (decrementedBy i) (log s)
  /\ occurrences (notifiedBy i) (log (step mpegts e s))
     = occurrences (notifiedBy i) (log s).
Proof.
  intros Hi.
  destruct (step_summary mpegts e s) as [(d & -> & Hcalm & Hdone)
    |(i' & x & x' & reason & pre & Hx & Hd & Hc & Hp & Hcalm & -> & _ & _ & Hdone)].
  - destruct (calm_occurrences d (log s) i Hcalm) as (E1 & E2 & E3 & E4 & _).
    rewrite E1, E2, E3, E4. repeat split; try reflexivity.
    destruct (Hdone i) as [->|[Hn _]]; [exact Hi|congruence].
  - assert (Hne : i <> i').
    { intros ->. rewrite (doneOf_lookup _ _ _ Hx) in Hi. congruence. }
    destruct Hcalm as [Hpre _]. destruct (Hpre i) as (E1 & E2 & E3 & E4).
    destruct (cleanupEffects_counts i' i reason x' (activeStreams s) (waiters s))
      as (C1 & C2 & C3 & C4 & _).
    assert (Hb : Nat.eqb i' i = false) by (apply Nat.eqb_neq; congruence).
    rewrite !occurrences_app, E1, E2, E3, E4, C1, C2, C3, C4, Hb, Hdone.
    case_decide; [congruence|]. repeat split; auto; lia.
Qed.

Lemma run_frozen (mpegts : bool) (t : list Event) (s : State) (i : nat) :
  doneOf s i = Some true ->
  doneOf (run mpegts t s) i = Some true
  /\ occurrences (ranBy i) (log (run mpegts t s)) = occurrences (ranBy i) (log s)
  /\ occurrences (closedBy i) (log (run mpegts t s)) = occurrences (closedBy i) (log s)
  /\ occurrences (decrementedBy i) (log (run mpegts t s))
     = occurrences (decrementedBy i) (log s)
  /\ occurrences (notifiedBy i) (log (run mpegts t s))
     = occurrences (notifiedBy i) (log s).
Proof.
  revert s. induction t as [|e t IH]; intros s Hi; cbn [run]; [repeat split; auto|].
  destruct (step_frozen mpegts e s i Hi) as (Hd & E1 & E2 & E3 & E4).
  destruct (IH _ Hd) as (Hd' & F1 & F2 & F3 & F4).
  rewrite F1, F2, F3, F4, E1, E2, E3, E4. auto.
Qed.

(** The turn in which the cleanup of a session runs. *)
Lemma step_cleans (mpegts : bool) (e : Event) (s : State) (i : nat) (x : Session) :
  balanced s -> accounted s ->
  sessions s !! i = Some x -> done_ x = false ->
  doneOf (step mpegts e s) i = Some true ->
  activeStreams (step mpegts e s)
  = (if countedStream x then activeStreams s - 1 else activeStreams s)
  /\ waiters (step mpegts e s) = (if countedStream x then tail (waiters s) else waiters s)
  /\ woken (log (step mpegts e s))
     = woken (log s) ++ (if countedStream x then firstn 1 (waiters s) else [])
  /\ occurrences (ranBy i) (log (step mpegts e s)) = 1%nat
  /\ occurrences (closedBy i) (log (step mpegts e s))
     = match page x with Some _ => 1%nat | None => 0%nat end
  /\ occurrences (decrementedBy i) (log (step mpegts e s))
     = (if countedStream x then 1 else 0)%nat
  /\ occurrences (notifiedBy i) (log (step mpegts e s))
     = (if countedStream x then 1 else 0)%nat.
Proof.
  intros Hb Hacc Hx Hd Hflip.
  assert (Hq : doneOf s i = Some false) by (rewrite (doneOf_lookup _ _ _ Hx); now rewrite Hd).
  specialize (Hacc i). rewrite Hq in Hacc. destruct Hacc as (A1 & A2 & A3 & A4).
  destruct (step_summary mpegts e s) as [(d & _ & _ & Hdone)
    |(i' & y & x' & reason & pre & Hy & Hdy & Hc & Hp & Hcalm & -> & -> & -> & Hdone)].
  - destruct (Hdone i) as [E|[E _]]; congruence.
  - rewrite Hdone in Hflip. case_decide as Hii; [subst i'|congruence].
    assert (y = x) by congruence. subst y.
    destruct Hcalm as [Hpre E5]. destruct (Hpre i) as (E1 & E2 & E3 & E4).
    destruct (cleanupEffects_counts i i reason x' (activeStreams s) (waiters s))
      as (C1 & C2 & C3 & C4 & C5).
    rewrite !occurrences_app, !woken_app, E1, E2, E3, E4, E5, C1, C2, C3, C4, C5.
    rewrite Nat.eqb_refl, A1, A2, A3, A4, Hc, Hp.
    destruct (countedStream x) eqn:Hcs; cbn [andb].
    + pose proof (held_pos _ i x Hx Hcs) as Hpos. unfold balanced in Hb.
      destruct (Z.ltb_spec 0 (activeStreams s)); [|lia].
      repeat split; reflexivity.
    + repeat split; reflexivity.
Qed.

(** The invariants hold in every state the server can be in. *)
Lemma run_invariants (mpegts : bool) (t : list Event) (s : State) :
  eachSession (fun _ => local) (sessions s) /\ balanced s /\ accounted s ->
  eachSession (fun _ => local) (sessions (run mpegts t s))
  /\ balanced (run mpegts t s) /\ accounted (run mpegts t s).
Proof.
  revert s. induction t as [|e t IH]; intros s (Hl & Hb & Ha); cbn [run]; [auto|].
  apply IH. split; [|split].
  - now apply step_local.
  - now apply step_balanced.
  - now apply step_accounted.
Qed.

Lemma initial_invariants :
  eachSession (fun _ => local) (sessions initial) /\ balanced initial /\ accounted initial.
Proof.
  split; [|split].
  - intros j y Hy. discriminate.
  - reflexivity.
  - intros i. unfold doneOf. cbn. repeat split.
Qed.

Lemma trigger_cleans (mpegts : bool) (s : State) (i : nat) (x : Session) (src : Source)
      (reason : string) :
  sessions s !! i = Some x -> trigger x src = Some reason ->
  doneOf (step mpegts (Fire i src) s) i = Some true.
Proof.
  intros Hx Ht. unfold step. rewrite Hx, Ht. unfold doneOf.
  destruct (done_ x) eqn:Hd.
  - rewrite cleanup_skip by (intros y Hy; congruence).
    fold (doneOf s i). rewrite (doneOf_lookup _ _ _ Hx). now rewrite Hd.
  - destruct (cleanup_body i reason s x Hx Hd) as (_ & _ & _ & _ & _ & _ & -> & _).
    rewrite (doneOf_cleaned _ _ _ _ _ _ Hx). case_decide; congruence.
Qed.

Definition pcOf (s : State) (i : nat) : option Pc :=
  (fun x => pc x) <$> (sessions s !! i).

Lemma wakeHead_length (q : list nat) (l : list Session) :
  length (wakeHead q l) = length l.
Proof. destruct q; [reflexivity|]. apply length_alter. Qed.

Lemma cleaned_is_Some (i : nat) (q : list nat) (b : bool) (ss : list Session) (x : Session) :
  ss !! i = Some x -> is_Some ((if b then wakeHead q else id) (alter tidy i ss) !! i).
Proof.
  intros Hx. apply lookup_lt_is_Some.
  destruct b; cbn [id]; rewrite ?wakeHead_length, length_alter;
    now apply lookup_lt_Some in Hx.
Qed.

Lemma pc_goto (c : Pc) (i : nat) (l : list Session) :
  is_Some (l !! i) -> (fun x => pc x) <$> (alter (withPc c) i l !! i) = Some c.
Proof. intros [y Hy]. now rewrite list_lookup_alter_eq, Hy. Qed.

Lemma lookup_withStream (i : nat) (ss : list Session) (x : Session) :
  ss !! i = Some x ->
  alter (withStream true) i ss !! i
  = Some {| kind := kind x; channel := channel x; pc := pc x; page := page x;
            stream := true; ffmpegProcess := ffmpegProcess x; done_ := done_ x;
            countedStream := countedStream x |}.
Proof. intros Hx. now rewrite list_lookup_alter_eq, Hx. Qed.

Lemma failure_cleans (mpegts : bool) (s : State) (i : nat) (x : Session) (o : Outcome) :
  sessions s !! i = Some x -> failure x o = true ->
  doneOf (step mpegts (Settle i o) s) i = Some true
  /\ pcOf (step mpegts (Settle i o) s) i = Some Returned.
Proof.
  intros Hx Hf. destruct s as [a q b n ps np ss lg]. unfold step. cbn [sessions] in *.
  rewrite Hx. destruct x as [k c p pg st ff dn cs].
  destruct k; [unfold resumeChannel|unfold resumeGeneric]; cbn [kind pc];
    destruct p as [| | |[ms|[|]]| | | | |]; destruct o; try discriminate Hf.
  all: crunch.
  all: try solve [destruct dn; open_cleanup Hx; crunch; unfold doneOf, pcOf; cbn [sessions];
            (split;
             [ rewrite ?(lookup_alter_keep (fun y => done_ y) (withPc Returned))
                 by (intros ?; reflexivity);
               rewrite ?(doneOf_cleaned _ _ _ _ _ _ Hx), ?Hx;
               try case_decide; try congruence; reflexivity
             | apply pc_goto; first [ now rewrite Hx | apply (cleaned_is_Some _ _ _ _ _ Hx) ] ])].
  pose proof (lookup_withStream _ _ _ Hx) as Hx'.
  cbn [kind channel pc page stream ffmpegProcess done_ countedStream] in Hx'.
  destruct dn; open_cleanup Hx'; crunch; unfold doneOf, pcOf; cbn [sessions].
  - split; [|apply pc_goto; rewrite Hx'; eauto].
    rewrite (lookup_alter_keep (fun y => done_ y) (withPc Returned)) by (intros ?; reflexivity).
    now rewrite Hx'.
  - split; [|apply pc_goto, (cleaned_is_Some _ _ _ _ _ Hx')].
    rewrite (lookup_alter_keep (fun y => done_ y) (withPc Returned)) by (intros ?; reflexivity).
    rewrite (doneOf_cleaned _ _ _ _ _ _ Hx'). now case_decide.
Qed.

(** *** The waiter queue *)

(** Where a session stands with respect to the queue: 0 before it has
    asked for a slot, 1 while its promise is pending in the queue, 2 once
    the promise is settled. *)
Definition phase (x : Session) : nat :=
  match pc x with
  | AcquiringPage | Navigating => 0
  | StartingCapture => match kind x with ChannelStream => 0 | GenericStream => 2 end
  | WaitingSlot (Queued _) => 1
  | _ => 2
  end.

Definition phaseOf (s : State) (j : nat) : option nat :=
  (fun x => phase x) <$> (sessions s !! j).

Definition queueStill (s s' : State) : Prop :=
  waiters s' = waiters s
  /\ enqueued (log s') = enqueued (log s)
  /\ woken (log s') = woken (log s)
  /\ forall j, phaseOf s' j = phaseOf s j
               \/ (phaseOf s j = None /\ phaseOf s' j = Some 0%nat)
               \/ (phaseOf s j = Some 0%nat /\ phaseOf s' j = Some 2%nat).

Definition queueJoins (i : nat) (s s' : State) : Prop :=
  phaseOf s i = Some 0%nat /\ phaseOf s' i = Some 1%nat
  /\ waiters s' = waiters s ++ [i]
  /\ enqueued (log s') = enqueued (log s) ++ [i]
  /\ woken (log s') = woken (log s)
  /\ forall j, j <> i -> phaseOf s' j = phaseOf s j.

Definition queueExpires (i : nat) (s s' : State) : Prop :=
  phaseOf s i = Some 1%nat /\ phaseOf s' i = Some 2%nat
  /\ pcOf s' i = Some (WaitingSlot (Settled false))
  /\ waiters s' = removeFirst i (waiters s)
  /\ enqueued (log s') = enqueued (log s)
  /\ woken (log s') = woken (log s)
  /\ forall j, j <> i -> phaseOf s' j = phaseOf s j.

Definition queueWakes (s s' : State) : Prop :=
  waiters s' = tail (waiters s)
  /\ enqueued (log s') = enqueued (log s)
  /\ woken (log s') = woken (log s) ++ firstn 1 (waiters s)
  /\ (forall w, head (waiters s) = Some w -> phaseOf s w = Some 1%nat ->
                pcOf s' w = Some (WaitingSlot (Settled true)))
  /\ forall j, phaseOf s' j = phaseOf s j
               \/ (phaseOf s j = Some 0%nat /\ phaseOf s' j = Some 2%nat)
               \/ (phaseOf s j = Some 1%nat /\ phaseOf s' j = Some 2%nat
                   /\ head (waiters s) = Some j).

Lemma phase_lookup_alter (f : Session -> Session) (i j : nat) (ss : list Session)
      (x : Session) :
  ss !! i = Some x ->
  (fun y => phase y) <$> (alter f i ss !! j)
  = if decide (i = j) then Some (phase (f x)) else (fun y => phase y) <$> (ss !! j).
Proof.
  intros Hx. rewrite list_lookup_alter. case_decide; [subst j; now rewrite Hx|reflexivity].
Qed.

Lemma phase_tidy (y : Session) : phase (tidy y) = phase y.
Proof. reflexivity. Qed.

Lemma phase_settle (b : bool) (y : Session) :
  phase (settle b y) = if Nat.eqb (phase y) 1 then 2%nat else phase y.
Proof.
  destruct y as [k c p pg st ff dn cs]. unfold settle, phase. cbn.
  destruct p as [| | |[ms|[|]]| | | | |]; try reflexivity. now destruct k.
Qed.

Lemma phase_wakeHead (q : list nat) (l : list Session) (j : nat) :
  (fun y => phase y) <$> (wakeHead q l !! j) = (fun y => phase y) <$> (l !! j)
  \/ ((fun y => phase y) <$> (l !! j) = Some 1%nat
      /\ (fun y => phase y) <$> (wakeHead q l !! j) = Some 2%nat
      /\ head q = Some j).
Proof.
  destruct q as [|w q]; [now left|]. cbn [wakeHead head].
  rewrite list_lookup_alter. case_decide as Hw; [subst w|now left].
  destruct (l !! j) as [y|]; cbn; [|now left].
  rewrite phase_settle. destruct (Nat.eqb_spec (phase y) 1) as [->|_]; [right|left]; auto.
Qed.

Lemma phase_cleaned (i j : nat) (q : list nat) (b : bool) (ss : list Session) :
  (fun y => phase y) <$> ((if b then wakeHead q else id) (alter tidy i ss) !! j)
  = (fun y => phase y) <$> (ss !! j)
  \/ (b = true
      /\ (fun y => phase y) <$> (ss !! j) = Some 1%nat
      /\ (fun y => phase y) <$> ((if b then wakeHead q else id) (alter tidy i ss) !! j)
         = Some 2%nat
      /\ head q = Some j).
Proof.
  assert (Ht : (fun y => phase y) <$> (alter tidy i ss !! j) = (fun y => phase y) <$> (ss !! j))
    by (apply lookup_alter_keep; intros ?; apply phase_tidy).
  destruct b; cbn [id]; [|now left].
  destruct (phase_wakeHead q (alter tidy i ss) j) as [E|(E1 & E2 & E3)].
  - left. now rewrite E.
  - right. rewrite <- Ht. auto.
Qed.

Lemma pc_settle (y : Session) :
  phase y = 1%nat -> pc (settle true y) = WaitingSlot (Settled true).
Proof.
  destruct y as [k c p pg st ff dn cs]. unfold settle, phase. cbn.
  destruct p as [| | |[ms|[|]]| | | | |]; try discriminate; try reflexivity.
  destruct k; discriminate.
Qed.

Lemma pc_woken (i w : nat) (q : list nat) (ss : list Session) :
  head q = Some w -> (fun y => phase y) <$> (ss !! w) = Some 1%nat ->
  (fun y => pc y) <$> (wakeHead q (alter tidy i ss) !! w)
  = Some (WaitingSlot (Settled true)).
Proof.
  intros Hw Hph. destruct q as [|w' q]; [discriminate|]. injection Hw as ->.
  cbn [wakeHead]. rewrite list_lookup_alter_eq, list_lookup_alter.
  destruct (ss !! w) as [y|] eqn:Hy; [|discriminate]. injection Hph as Hph.
  case_decide; [subst i|]; rewrite ?Hy; cbn; f_equal; apply pc_settle; auto.
Qed.

Lemma pc_woken_failed (i w : nat) (q : list nat) (ss : list Session) (x : Session) :
  ss !! i = Some x -> phase x <> 1%nat ->
  head q = Some w -> (fun y => phase y) <$> (ss !! w) = Some 1%nat ->
  (fun y => pc y) <$> (alter (withPc Returned) i (wakeHead q (alter tidy i ss)) !! w)
  = Some (WaitingSlot (Settled true)).
Proof.
  intros Hx Hne Hw Hph. rewrite list_lookup_alter_ne; [now apply pc_woken|].
  intros ->. rewrite Hx in Hph. cbn in Hph. congruence.
Qed.


Lemma phaseOf_start (ss : list Session) (k : Kind) (c : Js.Property Tuner.Channel) (j : nat) :
  (fun y => phase y) <$> ((ss ++ [newSession k c]) !! j) = (fun y => phase y) <$> (ss !! j)
  \/ ((fun y => phase y) <$> (ss !! j) = None
      /\ (fun y => phase y) <$> ((ss ++ [newSession k c]) !! j) = Some 0%nat).
Proof.
  destruct (lt_eq_lt_dec j (length ss)) as [[Hlt|Heq]|Hgt].
  - left. now rewrite lookup_app_l.
  - right. subst j. rewrite list_lookup_middle by reflexivity.
    rewrite lookup_ge_None_2 by lia. now destruct k.
  - left. rewrite !lookup_ge_None_2; [reflexivity|lia|rewrite length_app; cbn; lia].
Qed.

Ltac log_facts :=
  cbn [log waiters]; rewrite ?enqueued_app, ?woken_app;
  cbn [enqueued woken flat_map app]; rewrite ?app_nil_r.

Ltac phase_at Hx :=
  let j := fresh "j" in
  intros j; unfold phaseOf; cbn [sessions]; rewrite ?list_alter_alter_eq;
  first
    [ left; reflexivity
    | rewrite (phase_lookup_alter _ _ _ _ _ Hx); case_decide;
      [ subst; rewrite Hx; cbn; first [left; reflexivity | right; right; split; reflexivity]
      | left; reflexivity ] ].

Ltac still_step Hx :=
  left; split; [reflexivity|]; split; [log_facts; reflexivity|];
  split; [log_facts; reflexivity|]; phase_at Hx.

Lemma start_still (a : Z) (q : list nat) (b : option nat) (n : nat) (ps : gset nat)
      (np : nat) (ss : list Session) (lg : list Effect) (k : Kind)
      (c : Js.Property Tuner.Channel) (m : Mark) :
  queueStill
    {| activeStreams := a; waiters := q; currentBrowser := b; launches := n;
       pagesInUse := ps; nextPage := np; sessions := ss; log := lg |}
    {| activeStreams := a; waiters := q; currentBrowser := b; launches := n;
       pagesInUse := ps; nextPage := np; sessions := ss ++ [newSession k c];
       log := lg ++ [Progress (length ss) m] |}.
Proof.
  split; [reflexivity|]; split; [log_facts; reflexivity|]; split; [log_facts; reflexivity|].
  intros j. unfold phaseOf. cbn [sessions].
  destruct (phaseOf_start ss k c j) as [E|[E1 E2]]; auto.
Qed.

Lemma cleanupEffects_queue (i : nat) (reason : string) (x : Session) (a : Z) (q : list nat) :
  enqueued (cleanupEffects i reason x a q) = []
  /\ woken (cleanupEffects i reason x a q) = (if countedStream x then firstn 1 q else []).
Proof.
  unfold cleanupEffects.
  destruct x as [k c p [pg|] [|] [[sd [|]]|] dn [|]]; destruct (0 <? a); destruct q as [|w q];
    cbn; split; reflexivity.
Qed.

Lemma phase_failed (i j : nat) (q : list nat) (b : bool) (ss : list Session) (x : Session) :
  ss !! i = Some x -> phase x <> 1%nat ->
  (fun y => phase y)
    <$> (alter (withPc Returned) i ((if b then wakeHead q else id) (alter tidy i ss)) !! j)
  = (fun y => phase y) <$> (ss !! j)
  \/ ((fun y => phase y) <$> (ss !! j) = Some 0%nat
      /\ (fun y => phase y)
           <$> (alter (withPc Returned) i
                  ((if b then wakeHead q else id) (alter tidy i ss)) !! j) = Some 2%nat)
  \/ ((fun y => phase y) <$> (ss !! j) = Some 1%nat
      /\ (fun y => phase y)
           <$> (alter (withPc Returned) i
                  ((if b then wakeHead q else id) (alter tidy i ss)) !! j) = Some 2%nat
      /\ b = true /\ head q = Some j).
Proof.
  intros Hx Hph. rewrite list_lookup_alter. case_decide as Hij.
  - subst j. destruct (cleaned_is_Some i q b ss x Hx) as [y ->]. rewrite Hx. cbn.
    change (phase (withPc Returned y)) with 2%nat.
    destruct (phase x) as [|[|[|p]]] eqn:Hp; try congruence; auto.
    + exfalso. revert Hp. unfold phase. destruct (pc x) as [| | |[|]| | | | |];
        try destruct (kind x); discriminate.
  - destruct (phase_cleaned i j q b ss) as [E|(Hb & E1 & E2 & E3)]; auto.
    right. right. auto.
Qed.

Ltac queue_effects :=
  match goal with
  | |- context [cleanupEffects ?i ?r ?x ?a ?q] =>
      let Eq := fresh "Eq" in let Ew := fresh "Ew" in
      destruct (cleanupEffects_queue i r x a q) as [Eq Ew]; cbn [countedStream] in Ew;
      split; [log_facts; rewrite ?Eq, ?app_nil_r; reflexivity|];
      split; [log_facts; rewrite ?Ew, ?app_nil_r; reflexivity|]
  end.

Ltac queue_split E :=
  let E0 := fresh "E" in let E1 := fresh "E" in let E2 := fresh "E" in
  let E3 := fresh "E" in let Hb := fresh "Hb" in
  first
    [ destruct E as [E0|[(E1 & E2)|(E1 & E2 & Hb & E3)]];
      [ left; exact E0
      | first [ right; left; split; [exact E1|exact E2]
              | right; right; split; [exact E1|exact E2] ]
      | first [discriminate Hb | right; right; split; [exact E1|split; [exact E2|exact E3]]] ]
    | destruct E as [E0|(Hb & E1 & E2 & E3)];
      [ left; exact E0
      | first [discriminate Hb | right; right; split; [exact E1|split; [exact E2|exact E3]]] ] ].

Ltac queue_phases Hx' :=
  let j := fresh "j" in let E := fresh "E" in
  intros j; unfold phaseOf; cbn [sessions];
  match goal with
  | |- context [alter (withPc Returned) ?i (wakeHead ?q (alter tidy ?i ?l))] =>
      pose proof (phase_failed i j q true l _ Hx' ltac:(cbn; discriminate)) as E
  | |- context [alter (withPc Returned) ?i (id (alter tidy ?i ?l))] =>
      pose proof (phase_failed i j [] false l _ Hx' ltac:(cbn; discriminate)) as E
  | |- context [wakeHead ?q (alter tidy ?i ?l)] =>
      pose proof (phase_cleaned i j q true l) as E
  | |- context [id (alter tidy ?i ?l)] =>
      pose proof (phase_cleaned i j [] false l) as E
  end;
  rewrite ?(lookup_alter_keep (fun y => phase y) (withStream true)) in E
    by (intros ?; reflexivity);
  queue_split E.

Ltac queue_head Hx' :=
  let w := fresh "w" in let Hw := fresh "Hw" in let Hph := fresh "Hph" in
  intros w Hw Hph; unfold phaseOf in Hph; unfold pcOf; cbn [sessions waiters] in *;
  first
    [ apply (pc_woken_failed _ _ _ _ _ Hx' ltac:(cbn; discriminate) Hw)
    | apply (pc_woken _ _ _ _ Hw) ];
  rewrite ?(lookup_alter_keep (fun y => phase y) (withStream true)) by (intros ?; reflexivity);
  exact Hph.

Ltac queue_cleanup Hx Hx' dn cs :=
  destruct dn, cs; open_cleanup Hx'; crunch;
  first
    [ still_step Hx
    | left; split; [reflexivity|]; queue_effects; queue_phases Hx'
    | right; right; right; split; [reflexivity|]; queue_effects;
      split; [queue_head Hx'|]; queue_phases Hx' ].

(** The four ways a turn of the loop can change the queue. *)
Lemma step_queue (mpegts : bool) (e : Event) (s : State) :
  queueStill s (step mpegts e s)
  \/ (exists i, queueJoins i s (step mpegts e s))
  \/ (exists i, queueExpires i s (step mpegts e s))
  \/ queueWakes s (step mpegts e s).
Proof.
  split_event mpegts e s.
  all: crunch; split_conds; crunch.
  all: try solve [still_step Hx].
  all: try solve [left; apply start_still].
  all: try solve [right; left; exists i; split; [unfold phaseOf; cbn [sessions]; now rewrite Hx|];
                  split; [unfold phaseOf; cbn [sessions];
                          rewrite ?list_alter_alter_eq, list_lookup_alter_eq, Hx; reflexivity|];
                  split; [reflexivity|]; split; [log_facts; reflexivity|];
                  split; [log_facts; reflexivity|];
                  intros j Hj; unfold phaseOf; cbn [sessions];
                  rewrite ?list_alter_alter_eq, list_lookup_alter_ne by congruence;
                  reflexivity].
  all: try solve [right; right; left; exists i;
                  split; [unfold phaseOf; cbn [sessions]; now rewrite Hx|];
                  split; [unfold phaseOf; cbn [sessions];
                          rewrite list_lookup_alter_eq, Hx; reflexivity|];
                  split; [unfold pcOf; cbn [sessions];
                          rewrite list_lookup_alter_eq, Hx; reflexivity|];
                  split; [reflexivity|]; split; [reflexivity|]; split; [reflexivity|];
                  intros j Hj; unfold phaseOf; cbn [sessions];
                  rewrite list_lookup_alter_ne by congruence; reflexivity].
  all: try solve [queue_cleanup Hx Hx dn cs].
  pose proof (lookup_withStream _ _ _ Hx) as Hx'.
  cbn [kind channel pc page stream ffmpegProcess done_ countedStream] in Hx'.
  queue_cleanup Hx Hx' dn cs.
Qed.

(** *** The queue holds the callers still waiting, in arrival order *)

(** Session [j] waits in the queue: its promise is pending. *)
Definition waiting (s : State) (j : nat) : bool :=
  match pcOf s j with
  | Some (WaitingSlot (Queued _)) => true
  | _ => false
  end.

(** No session joins the queue twice; the queue is the sessions that
    joined it and still wait, in that order; a session that joined has
    asked for its slot. *)
Definition queueInv (s : State) : Prop :=
  List.NoDup (enqueued (log s))
  /\ waiters s = List.filter (waiting s) (enqueued (log s))
  /\ forall j, In j (enqueued (log s)) -> phaseOf s j = Some 1%nat \/ phaseOf s j = Some 2%nat.

Lemma waiting_phase (s : State) (j : nat) :
  waiting s j = match phaseOf s j with Some 1%nat => true | _ => false end.
Proof.
  unfold waiting, pcOf, phaseOf. destruct (sessions s !! j) as [x|]; [|reflexivity].
  cbn. unfold phase. destruct (pc x) as [| | |[ms|[|]]| | | | |]; try reflexivity.
  now destruct (kind x).
Qed.

Lemma waiting_same (s s' : State) (j : nat) :
  phaseOf s' j = phaseOf s j -> waiting s' j = waiting s j.
Proof. intros E. now rewrite !waiting_phase, E. Qed.

Lemma NoDup_snoc (i : nat) (l : list nat) :
  List.NoDup l -> ~ In i l -> List.NoDup (l ++ [i]).
Proof.
  induction 1 as [|a l Ha Hl IH]; cbn; intros Hi.
  - constructor; [intros []|constructor].
  - constructor; [|apply IH; tauto].
    rewrite in_app_iff. cbn. intros [?|[?|[]]]; [tauto|]. subst. tauto.
Qed.

Lemma removeFirst_absent (i : nat) (l : list nat) : ~ In i l -> removeFirst i l = l.
Proof.
  induction l as [|a l IH]; [reflexivity|]. cbn. intros Hn.
  destruct (Nat.eqb_spec a i) as [->|Hne]; [tauto|]. f_equal. apply IH. tauto.
Qed.

Lemma removeFirst_filter (i : nat) (f f' : nat -> bool) (l : list nat) :
  List.NoDup l -> (forall j, j <> i -> f' j = f j) -> f' i = false ->
  removeFirst i (List.filter f l) = List.filter f' l.
Proof.
  intros Hnd Hext Hi. induction Hnd as [|a l Hnin Hnd IH]; [reflexivity|]. cbn.
  destruct (Nat.eq_dec a i) as [->|Hne].
  - rewrite Hi.
    assert (Hl : List.filter f' l = List.filter f l).
    { apply List.filter_ext_in. intros j Hj. apply Hext. congruence. }
    rewrite Hl. destruct (f i).
    + cbn. now rewrite Nat.eqb_refl.
    + apply removeFirst_absent. rewrite List.filter_In. tauto.
  - rewrite (Hext a Hne). destruct (f a); [|exact IH].
    cbn. destruct (Nat.eqb_spec a i); [congruence|]. now rewrite IH.
Qed.

Lemma tail_filter (f f' : nat -> bool) (l : list nat) :
  List.NoDup l ->
  (forall j, f j = false -> f' j = false) ->
  (forall j, f j = true -> f' j = true \/ head (List.filter f l) = Some j) ->
  (forall w, head (List.filter f l) = Some w -> f' w = false) ->
  tail (List.filter f l) = List.filter f' l.
Proof.
  intros Hnd Hoff. induction Hnd as [|a l Hnin Hnd IH]; [reflexivity|]. cbn.
  destruct (f a) eqn:Ha; cbn [head tail]; intros Hon Hw.
  - rewrite (Hw a eq_refl). apply List.filter_ext_in. intros j Hj.
    destruct (f j) eqn:Hfj.
    + destruct (Hon j Hfj) as [E|E]; [now rewrite E|]. congruence.
    + now rewrite Hoff.
  - rewrite (Hoff a Ha). now apply IH.
Qed.

(** The first element a filter keeps. *)
Lemma filter_head (f : nat -> bool) (l : list nat) (w : nat) (rest : list nat) :
  List.filter f l = w :: rest ->
  exists l1 l2, l = l1 ++ w :: l2 /\ (forall a, In a l1 -> f a = false) /\ f w = true
                /\ rest = List.filter f l2.
Proof.
  induction l as [|a l IH]; [discriminate|]. cbn. destruct (f a) eqn:Ha.
  - intros [= -> <-]. exists [], l. repeat split; auto. intros ? [].
  - intros E. destruct (IH E) as (l1 & l2 & -> & H1 & H2 & H3).
    exists (a :: l1), l2. repeat split; auto. intros b [<-|Hb]; auto.
Qed.

Lemma step_queueInv (mpegts : bool) (e : Event) (s : State) :
  queueInv s -> queueInv (step mpegts e s).
Proof.
  intros (Hnd & Hq & Hph). unfold queueInv.
  destruct (step_queue mpegts e s)
    as [(Ew & Ee & _ & Ep)
       |[(i & P0 & P1 & Ew & Ee & _ & Ep)
        |[(i & P1 & P2 & _ & Ew & Ee & _ & Ep)
         |(Ew & Ee & _ & Epc & Ep)]]].
  - assert (Hsame : forall j, In j (enqueued (log s)) ->
                              phaseOf (step mpegts e s) j = phaseOf s j).
    { intros j Hj. destruct (Hph j Hj), (Ep j) as [E|[[E _]|[E _]]]; congruence. }
    rewrite Ew, Ee. split; [exact Hnd|]. split.
    + rewrite Hq. apply List.filter_ext_in. intros j Hj. symmetry.
      now apply waiting_same, Hsame.
    + intros j Hj. rewrite (Hsame j Hj). now apply Hph.
  - assert (Hnew : ~ In i (enqueued (log s))).
    { intros Hi. destruct (Hph i Hi); congruence. }
    rewrite Ew, Ee. split; [|split].
    + now apply NoDup_snoc.
    + rewrite List.filter_app. cbn [List.filter]. rewrite (waiting_phase _ i), P1, Hq.
      f_equal. apply List.filter_ext_in. intros j Hj. symmetry.
      apply waiting_same, Ep. congruence.
    + intros j Hj. apply in_app_or in Hj as [Hj|[<-|[]]]; [|now left].
      rewrite Ep by congruence. now apply Hph.
  - rewrite Ew, Ee. split; [exact Hnd|]. split.
    + rewrite Hq. apply removeFirst_filter; [exact Hnd| |].
      * intros j Hj. now apply waiting_same, Ep.
      * now rewrite waiting_phase, P2.
    + intros j Hj. destruct (Nat.eq_dec j i) as [->|Hne]; [now right|].
      rewrite Ep by exact Hne. now apply Hph.
  - rewrite Ew, Ee. split; [exact Hnd|]. split.
    + rewrite Hq. apply tail_filter; [exact Hnd| | |].
      * intros j. rewrite !waiting_phase.
        destruct (Ep j) as [->|[[E ->]|[E _]]]; [auto|auto|]. rewrite E. discriminate.
      * intros j. rewrite <- Hq, !waiting_phase.
        destruct (Ep j) as [->|[[E ->]|(E & _ & Hh)]]; [auto| |auto].
        rewrite E. discriminate.
      * intros w Hw. rewrite <- Hq in Hw.
        assert (Hin : In w (waiters s)) by (destruct (waiters s); [discriminate|left; cbn in Hw; congruence]).
        rewrite Hq in Hin. apply List.filter_In in Hin as [_ Hwait].
        rewrite waiting_phase in Hwait.
        assert (P : phaseOf s w = Some 1%nat).
        { destruct (phaseOf s w) as [[|[|?]]|]; try discriminate. reflexivity. }
        unfold waiting. now rewrite (Epc w Hw P).
    + intros j Hj. destruct (Ep j) as [->|[[E ->]|(_ & -> & _)]]; auto.
Qed.

Lemma run_queueInv (mpegts : bool) (t : list Event) (s : State) :
  queueInv s -> queueInv (run mpegts t s).
Proof.
  revert s. induction t as [|e t IH]; intros s Hs; cbn [run]; [exact Hs|].
  now apply IH, step_queueInv.
Qed.

Lemma initial_queueInv : queueInv initial.
Proof. split; [constructor|]. split; [reflexivity|]. intros j []. Qed.

(** What a turn adds to the woken callers. *)
Lemma step_woken (mpegts : bool) (e : Event) (s : State) :
  queueInv s ->
  woken (log (step mpegts e s)) = woken (log s)
  \/ exists w rest,
       waiters s = w :: rest
       /\ waiters (step mpegts e s) = rest
       /\ woken (log (step mpegts e s)) = woken (log s) ++ [w]
       /\ pcOf (step mpegts e s) w = Some (WaitingSlot (Settled true)).
Proof.
  intros (Hnd & Hq & Hph).
  destruct (step_queue mpegts e s)
    as [(_ & _ & E & _)
       |[(i & _ & _ & _ & _ & E & _)
        |[(i & _ & _ & _ & _ & _ & E & _)
         |(Ew & _ & E & Epc & _)]]]; auto.
  destruct (waiters s) as [|w rest] eqn:Hws.
  - left. rewrite E. cbn. apply app_nil_r.
  - right. exists w, rest. repeat split; auto. apply Epc; [reflexivity|].
    assert (Hin : In w (List.filter (waiting s) (enqueued (log s))))
      by (rewrite <- Hq; now left).
    apply List.filter_In in Hin as [_ Hwait]. rewrite waiting_phase in Hwait.
    destruct (phaseOf s w) as [[|[|?]]|]; try discriminate. reflexivity.
Qed.

(** A settled promise stays settled, and its caller is never woken. *)
Lemma step_settled (mpegts : bool) (e : Event) (s : State) (i : nat) :
  queueInv s -> phaseOf s i = Some 2%nat ->
  phaseOf (step mpegts e s) i = Some 2%nat
  /\ exists d, woken (log (step mpegts e s)) = woken (log s) ++ d /\ ~ In i d.
Proof.
  intros (Hnd & Hq & Hph) Hi.
  destruct (step_queue mpegts e s)
    as [(_ & _ & E & Ep)
       |[(i' & P0 & _ & _ & _ & E & Ep)
        |[(i' & P1 & _ & _ & _ & _ & E & Ep)
         |(_ & _ & E & _ & Ep)]]].
  - split; [destruct (Ep i) as [->|[[E' _]|[E' _]]]; congruence|].
    exists []. rewrite app_nil_r. auto.
  - split; [rewrite Ep; congruence|]. exists []. rewrite app_nil_r. auto.
  - split; [rewrite Ep; congruence|]. exists []. rewrite app_nil_r. auto.
  - split; [destruct (Ep i) as [->|[[E' _]|[E' _]]]; congruence|].
    exists (firstn 1 (waiters s)). split; [exact E|]. intros Hin.
    assert (Hin' : In i (waiters s)).
    { destruct (waiters s) as [|w r]; [destruct Hin|]. cbn in Hin. destruct Hin as [<-|[]]. now left. }
    rewrite Hq in Hin'. apply List.filter_In in Hin' as [_ Hwait].
    rewrite waiting_phase, Hi in Hwait. discriminate.
Qed.

Lemma run_settled (mpegts : bool) (t : list Event) (s : State) (i : nat) :
  queueInv s -> phaseOf s i = Some 2%nat ->
  exists d, woken (log (run mpegts t s)) = woken (log s) ++ d /\ ~ In i d.
Proof.
  revert s. induction t as [|e t IH]; intros s Hs Hi; cbn [run].
  - exists []. rewrite app_nil_r. auto.
  - destruct (step_settled mpegts e s i Hs Hi) as (Hi' & d & Ed & Hd).
    destruct (IH _ (step_queueInv mpegts e s Hs) Hi') as (d' & Ed' & Hd').
    exists (d ++ d'). rewrite Ed', Ed, app_assoc. split; [reflexivity|].
    intros Hin. apply in_app_or in Hin. tauto.
Qed.

(** *** Each handler follows its script *)

(** How far into the script of its handler a session has come. *)
Inductive Place := At (n : nat) | AfterFailure | Unused.

Definition place (k : Kind) (c : Pc) : Place :=
  match c, k with
  | AcquiringPage, _ => At 1
  | Navigating, _ => At 3
  | StartingCapture, ChannelStream => At 5
  | WaitingSlot _, ChannelStream => At 7
  | SelectingChannel, ChannelStream => At 9
  | VerifyingPlayback, ChannelStream => At 11
  | TogglingFullscreen, ChannelStream => At 12
  | Piping, ChannelStream => At 14
  | WaitingSlot _, GenericStream => At 5
  | StartingCapture, GenericStream => At 7
  | Piping, GenericStream => At 10
  | Returned, _ => AfterFailure
  | _, GenericStream => Unused
  end.

Definition spot (x : Session) : Kind * Place := (kind x, place (kind x) (pc x)).

Definition spotOf (s : State) (j : nat) : option (Kind * Place) :=
  (fun x => spot x) <$> (sessions s !! j).

(** What a turn does to the marks of session [j]: nothing, the first
    mark of a new session, or the next marks of its script. *)
Definition marksKept (s s' : State) (j : nat) : Prop :=
  spotOf s' j = spotOf s j /\ history j (log s') = history j (log s).

Definition marksBegun (s s' : State) (j : nat) : Prop :=
  spotOf s j = None /\ (exists k, spotOf s' j = Some (k, At 1))
  /\ history j (log s') = history j (log s) ++ [Began AcquirePage].

Definition marksAdded (s s' : State) (j : nat) : Prop :=
  exists k n d,
    spotOf s j = Some (k, At n)
    /\ history j (log s') = history j (log s) ++ d
    /\ d = firstn (length d) (skipn n (script k))
    /\ (spotOf s' j = Some (k, At (n + length d))
        \/ (spotOf s' j = Some (k, AfterFailure)
            /\ (k = ChannelStream -> entered d = []))).

Lemma history_cleanupEffects (j i : nat) (reason : string) (x : Session) (a : Z)
      (q : list nat) :
  history j (cleanupEffects i reason x a q) = [].
Proof.
  unfold cleanupEffects.
  destruct x as [k c p [pg|] [|] [[sd [|]]|] dn [|]]; destruct (0 <? a); destruct q as [|w q];
    reflexivity.
Qed.

Lemma spot_settle (b : bool) (y : Session) : spot (settle b y) = spot y.
Proof.
  destruct y as [k c p pg st ff dn cs]. unfold settle, spot. cbn.
  destruct p as [| | |[ms|[|]]| | | | |]; reflexivity.
Qed.

Lemma spot_goto (c : Pc) (i j : nat) (l : list Session) :
  (fun y => spot y) <$> (alter (withPc c) i l !! j)
  = (if decide (i = j) then fun p : Kind * Place => (p.1, place p.1 c) else id)
      <$> ((fun y => spot y) <$> (l !! j)).
Proof.
  rewrite list_lookup_alter. case_decide as Hij.
  - subst j. destruct (l !! i); reflexivity.
  - destruct (l !! j); reflexivity.
Qed.

Lemma spot_wakeHead (q : list nat) (l : list Session) (j : nat) :
  (fun y => spot y) <$> (wakeHead q l !! j) = (fun y => spot y) <$> (l !! j).
Proof. apply lookup_wakeHead_keep. intros ?. apply spot_settle. Qed.

Lemma start_marks (a : Z) (q : list nat) (b : option nat) (n : nat) (ps : gset nat)
      (np : nat) (ss : list Session) (lg : list Effect) (k : Kind)
      (c : Js.Property Tuner.Channel) (j : nat) :
  let s := {| activeStreams := a; waiters := q; currentBrowser := b; launches := n;
              pagesInUse := ps; nextPage := np; sessions := ss; log := lg |} in
  let s' := {| activeStreams := a; waiters := q; currentBrowser := b; launches := n;
               pagesInUse := ps; nextPage := np; sessions := ss ++ [newSession k c];
               log := lg ++ [Progress (length ss) (Began AcquirePage)] |} in
  marksKept s s' j \/ marksBegun s s' j.
Proof.
  intros s s'. unfold marksKept, marksBegun, spotOf. cbn [s s' sessions log].
  rewrite history_app. cbn [history flat_map app].
  destruct (lt_eq_lt_dec j (length ss)) as [[Hlt|Heq]|Hgt].
  - left. rewrite lookup_app_l by exact Hlt.
    destruct (Nat.eqb_spec (length ss) j); [lia|]. now rewrite app_nil_r.
  - right. subst j. rewrite list_lookup_middle by reflexivity.
    rewrite lookup_ge_None_2 by lia. rewrite Nat.eqb_refl.
    split; [reflexivity|]. split; [exists k; now destruct k|reflexivity].
  - left. rewrite !lookup_ge_None_2; [|lia|rewrite length_app; cbn; lia].
    destruct (Nat.eqb_spec (length ss) j); [lia|]. now rewrite app_nil_r.
Qed.

Ltac spots :=
  unfold spotOf; cbn [sessions log id];
  rewrite ?spot_goto;
  repeat first
    [ rewrite spot_wakeHead
    | rewrite (lookup_alter_keep (fun y => spot y) tidy) by (intros ?; reflexivity)
    | rewrite (lookup_alter_keep (fun y => spot y) (withStream true)) by (intros ?; reflexivity)
    | rewrite (lookup_alter_keep (fun y => spot y) (withCounted true)) by (intros ?; reflexivity)
    | rewrite (lookup_alter_keep (fun y => spot y) (withPage _)) by (intros ?; reflexivity)
    | rewrite (lookup_alter_keep (fun y => spot y) (withFfmpeg _)) by (intros ?; reflexivity)
    | rewrite (lookup_alter_keep (fun y => spot y) (settle false))
        by (intros ?; apply spot_settle)
    | rewrite spot_goto ].

Ltac marks_here Hx :=
  rewrite ?Nat.eqb_refl, ?Hx; rewrite ?decide_True by reflexivity;
  cbn [app fmap option_fmap option_map];
  first
    [ left; split; [reflexivity|rewrite ?app_nil_r; reflexivity]
    | right; right; eexists _, _, _;
      split; [reflexivity|];
      split; [reflexivity|];
      split; [reflexivity|];
      first [ left; reflexivity
            | right; split; [reflexivity|intros Hk; first [reflexivity|discriminate Hk]] ] ].

Ltac marks_there Hne :=
  let Hb := fresh "Hb" in
  match type of Hne with
  | ?i <> ?j =>
      assert (Hb : Nat.eqb i j = false) by (now apply Nat.eqb_neq);
      rewrite ?Hb; rewrite ?decide_False by exact Hne;
      cbn [app]; rewrite ?option_fmap_id, ?app_nil_r;
      left; split; reflexivity
  end.

Ltac marks_case Hx :=
  let j := fresh "j" in
  intros j; unfold marksKept, marksBegun, marksAdded; spots;
  rewrite ?history_app, ?history_cleanupEffects, <- ?app_assoc;
  cbn [history flat_map];
  match goal with
  | |- _ => first [ left; split; reflexivity | idtac ]
  end;
  match goal with
  | Hx : _ !! ?i = Some _ |- _ =>
      destruct (Nat.eq_dec i j) as [<-|Hne]; [marks_here Hx|marks_there Hne]
  end.

Lemma step_marks (mpegts : bool) (e : Event) (s : State) :
  forall j, marksKept s (step mpegts e s) j
            \/ marksBegun s (step mpegts e s) j
            \/ marksAdded s (step mpegts e s) j.
Proof.
  split_event mpegts e s.
  all: crunch; split_conds; crunch.
  all: try solve [intros j; left; split; [reflexivity|]; cbn [log]; rewrite ?history_app; cbn;
                  now rewrite ?app_nil_r].
  all: try solve [intros j; destruct (start_marks a q b n ps np ss lg ChannelStream c j); auto].
  all: try solve [intros j;
                  destruct (start_marks a q b n ps np ss lg GenericStream Js.Undefined j); auto].
  all: try solve [marks_case Hx].
  all: try solve [destruct dn, cs; open_cleanup Hx; crunch; marks_case Hx].
  pose proof (lookup_withStream _ _ _ Hx) as Hx'.
  cbn [kind channel pc page stream ffmpegProcess done_ countedStream] in Hx'.
  destruct dn, cs; open_cleanup Hx'; crunch; clear Hx'; marks_case Hx.
Qed.


(** The marks of each session are what its place in the script says. *)
Definition scripted (s : State) : Prop :=
  forall j, match spotOf s j with
            | None => history j (log s) = []
            | Some (k, At n) => history j (log s) = firstn n (script k)
            | Some (k, _) => exists n, history j (log s) = firstn n (script k)
            end.

Lemma firstn_more {A : Type} (n m : nat) (l : list A) :
  firstn n l ++ firstn m (skipn n l) = firstn (n + m) l.
Proof.
  revert l. induction n as [|n IH]; intros l; [reflexivity|].
  destruct l as [|a l]; cbn; [now destruct m|]. now rewrite IH.
Qed.

Lemma step_scripted (mpegts : bool) (e : Event) (s : State) :
  scripted s -> scripted (step mpegts e s).
Proof.
  intros Hs j. specialize (Hs j).
  destruct (step_marks mpegts e s j)
    as [[-> ->]|[(Hn & (k & ->) & ->)|(k & n & d & Hk & -> & Hd & [->|[-> _]])]].
  - exact Hs.
  - rewrite Hn in Hs. rewrite Hs. now destruct k.
  - rewrite Hk in Hs. rewrite Hs, Hd at 1. apply firstn_more.
  - rewrite Hk in Hs. exists (n + length d)%nat. rewrite Hs, Hd at 1. apply firstn_more.
Qed.

Lemma run_scripted (mpegts : bool) (t : list Event) (s : State) :
  scripted s -> scripted (run mpegts t s).
Proof.
  revert s. induction t as [|e t IH]; intros s Hs; cbn [run]; [exact Hs|].
  now apply IH, step_scripted.
Qed.

Lemma initial_scripted : scripted initial.
Proof. intros j. reflexivity. Qed.

Lemma spotOf_lookup (s : State) (i : nat) (x : Session) :
  sessions s !! i = Some x -> spotOf s i = Some (kind x, place (kind x) (pc x)).
Proof. intros Hx. unfold spotOf. now rewrite Hx. Qed.

Lemma spotOf_returned (s : State) (i : nat) :
  pcOf s i = Some Returned -> exists k, spotOf s i = Some (k, AfterFailure).
Proof.
  unfold pcOf, spotOf. destruct (sessions s !! i) as [x|]; [|discriminate].
  cbn. intros [= Hp]. exists (kind x). unfold spot. rewrite Hp. now destruct (kind x).
Qed.

Lemma entered_app (h h' : list Mark) : entered (h ++ h') = entered h ++ entered h'.
Proof. apply flat_map_app. Qed.

(** After a failure the handler has returned: it marks nothing more. *)
Lemma step_returned (mpegts : bool) (e : Event) (s : State) (i : nat) (k : Kind) :
  spotOf s i = Some (k, AfterFailure) ->
  spotOf (step mpegts e s) i = Some (k, AfterFailure)
  /\ history i (log (step mpegts e s)) = history i (log s).
Proof.
  intros Hi.
  destruct (step_marks mpegts e s i)
    as [[E1 E2]|[(Hn & _)|(k' & n & d & Hk & _)]]; [|congruence|congruence].
  rewrite E1, E2. auto.
Qed.

Lemma run_returned (mpegts : bool) (t : list Event) (s : State) (i : nat) (k : Kind) :
  spotOf s i = Some (k, AfterFailure) ->
  history i (log (run mpegts t s)) = history i (log s).
Proof.
  revert s. induction t as [|e t IH]; intros s Hi; cbn [run]; [reflexivity|].
  destruct (step_returned mpegts e s i k Hi) as [Hi' E]. now rewrite (IH _ Hi'), E.
Qed.

(** The marks of the turn in which a stage fails. *)
Lemma failure_marks (mpegts : bool) (s : State) (i : nat) (x : Session) (o : Outcome) :
  sessions s !! i = Some x -> failure x o = true ->
  exists d, history i (log (step mpegts (Settle i o) s)) = history i (log s) ++ d
            /\ (kind x = ChannelStream -> entered d = []).
Proof.
  intros Hx Hf. destruct (failure_cleans mpegts s i x o Hx Hf) as [_ Hpc].
  destruct (spotOf_returned _ _ Hpc) as [k' Hk'].
  destruct (step_marks mpegts (Settle i o) s i)
    as [[_ E]|[(Hn & _)|(k & n & d & Hk & E & _ & [E'|[_ Hd]])]].
  - exists []. rewrite E, app_nil_r. auto.
  - rewrite (spotOf_lookup _ _ _ Hx) in Hn. discriminate.
  - congruence.
  - exists d. split; [exact E|]. intros Hkind. apply Hd.
    rewrite (spotOf_lookup _ _ _ Hx) in Hk. congruence.
Qed.

Lemma nth_error_firstn_Some {A : Type} (k : nat) (l : list A) (n : nat) (v : A) :
  nth_error (firstn k l) n = Some v <-> (n < k)%nat /\ nth_error l n = Some v.
Proof.
  revert l n. induction k as [|k IH]; intros l n.
  - cbn. destruct n; split; try discriminate; intros [? _]; lia.
  - destruct l as [|a l]; cbn.
    + destruct n; split; try discriminate; intros [_ ?]; discriminate.
    + destruct n as [|n]; cbn.
      * split; [intros ?; split; [lia|assumption]|intros [_ ?]; assumption].
      * rewrite IH. split; intros [? ?]; split; auto; lia.
Qed.

(** In a prefix of a script, the mark at position [m] comes before the
    mark at a later position [n]. *)
Lemma script_before (l : list Mark) (k n m : nat) (u v : Mark) :
  nth_error (firstn k l) n = Some v -> (m < n)%nat -> nth_error l m = Some u ->
  nth_error (firstn k l) m = Some u.
Proof.
  intros Hn Hm Hu. apply nth_error_firstn_Some in Hn as [Hk _].
  apply nth_error_firstn_Some. split; [lia|exact Hu].
Qed.

Lemma timed_out_429 (mpegts : bool) (s : State) (i : nat) (x : Session) (o : Outcome) :
  sessions s !! i = Some x -> pc x = WaitingSlot (Settled false) ->
  In (Responded i 429
        (match kind x with
         | ChannelStream => "Too many concurrent streams (timed out waiting for a slot)"
         | GenericStream => "Too many concurrent streams"
         end))
     (log (step mpegts (Settle i o) s)).
Proof.
  intros Hx Hp. destruct s as [a q b n ps np ss lg]. unfold step. cbn [sessions] in *.
  rewrite Hx. destruct x as [k c p pg st ff dn cs]. cbn in Hp. subst p.
  destruct k; [unfold resumeChannel|unfold resumeGeneric]; cbn [kind pc]; crunch.
  all: destruct dn, cs; open_cleanup Hx; crunch; cbn [log];
    rewrite ?in_app_iff; cbn [In]; auto.
Qed.

(** *** Reachable states *)

Definition invariant (s : State) : Prop :=
  eachSession (fun _ => local) (sessions s) /\ balanced s /\ accounted s
  /\ queueInv s /\ scripted s.

Lemma run_app (mpegts : bool) (t t' : list Event) (s : State) :
  run mpegts (t ++ t') s = run mpegts t' (run mpegts t s).
Proof. revert s. induction t as [|e t IH]; intros s; cbn; [reflexivity|apply IH]. Qed.

Lemma reachable (mpegts : bool) (t : list Event) : invariant (run mpegts t initial).
Proof.
  destruct (run_invariants mpegts t initial initial_invariants) as (Hl & Hb & Ha).
  split; [exact Hl|]. split; [exact Hb|]. split; [exact Ha|]. split.
  - apply run_queueInv, initial_queueInv.
  - apply run_scripted, initial_scripted.
Qed.

Lemma reachable_step (mpegts : bool) (t : list Event) (e : Event) :
  invariant (step mpegts e (run mpegts t initial)).
Proof.
  pose proof (reachable mpegts (t ++ [e])) as H. now rewrite run_app in H.
Qed.

(** The session whose [cleanup] is called in turn [e]: by a listener of
    the event of a source, or by its handler when a stage fails. *)
Definition invoked (e : Event) (s : State) : option nat :=
  match e with
  | Fire i src =>
      match sessions s !! i with
      | Some x => match trigger x src with Some _ => Some i | None => None end
      | None => None
      end
  | Settle i o =>
      match sessions s !! i with
      | Some x => if failure x o then Some i else None
      | None => None
      end
  | _ => None
  end.

Lemma invoked_cleans (mpegts : bool) (e : Event) (s : State) (i : nat) :
  invoked e s = Some i -> doneOf (step mpegts e s) i = Some true.
Proof.
  destruct e as [param|u|j o|j src|j|]; try discriminate; cbn [invoked].
  - destruct (sessions s !! j) as [x|] eqn:Hx; [|discriminate].
    destruct (failure x o) eqn:Hf; [|discriminate]. intros [= <-].
    apply (failure_cleans mpegts s j x o Hx Hf).
  - destruct (sessions s !! j) as [x|] eqn:Hx; [|discriminate].
    destruct (trigger x src) as [reason|] eqn:Ht; [|discriminate]. intros [= <-].
    apply (trigger_cleans mpegts s j x src reason Hx Ht).
Qed.

Lemma accounted_bounds (s : State) (j : nat) :
  accounted s ->
  (occurrences (ranBy j) (log s) <= 1)%nat /\ (occurrences (closedBy j) (log s) <= 1)%nat
  /\ (occurrences (decrementedBy j) (log s) <= 1)%nat
  /\ (occurrences (notifiedBy j) (log s) <= 1)%nat.
Proof.
  intros Ha. specialize (Ha j). unfold once, quiet in Ha.
  destruct (doneOf s j) as [[|]|]; destruct Ha as (H1 & H2 & H3 & H4); repeat split; lia.
Qed.

Lemma held_nonneg (l : list Session) : 0 <= held l.
Proof. unfold held. lia. Qed.

(** The counter never goes negative. *)
Lemma activeStreams_nonneg (mpegts : bool) (t : list Event) :
  0 <= activeStreams (run mpegts t initial).
Proof.
  destruct (reachable mpegts t) as (_ & Hb & _). rewrite Hb. apply held_nonneg.
Qed.

Lemma removeFirst_gone (i : nat) (l : list nat) : List.NoDup l -> ~ In i (removeFirst i l).
Proof.
  induction 1 as [|a l Ha Hl IH]; cbn; [tauto|].
  destruct (Nat.eqb_spec a i) as [->|Hne]; [exact Ha|]. cbn. tauto.
Qed.

(** The timer of a queued caller fires. *)
Lemma timer_expires (mpegts : bool) (s : State) (i : nat) :
  waiting s i = true ->
  waiters (step mpegts (Timer i) s) = removeFirst i (waiters s)
  /\ pcOf (step mpegts (Timer i) s) i = Some (WaitingSlot (Settled false))
  /\ phaseOf (step mpegts (Timer i) s) i = Some 2%nat.
Proof.
  unfold waiting, pcOf, phaseOf. destruct s as [a q b n ps np ss lg]. unfold step.
  cbn [sessions]. destruct (ss !! i) as [x|] eqn:Hx; [|discriminate].
  destruct x as [k c p pg st ff dn cs]. cbn [fmap option_fmap option_map pc].
  destruct p as [| | |[ms|[|]]| | | | |]; try discriminate. intros _.
  crunch. rewrite list_lookup_alter_eq, Hx. repeat split.
Qed.

(** ** Cleanup *)

(** Two channel sessions hold the slots; a third channel request and a
    legacy request are queued behind them. *)
Definition twoQueued : list Event :=
  [ Request "espn"; Settle 0 Ok; Settle 0 Ok; Settle 0 Ok; Settle 0 Ok;
    Request "footy"; Settle 1 Ok; Settle 1 Ok; Settle 1 Ok; Settle 1 Ok;
    Request "news"; Settle 2 Ok; Settle 2 Ok; Settle 2 Ok;
    LegacyRequest (Some "http://example.org/"); Settle 3 Ok; Settle 3 Ok ]%string.

(** What the guard of [cleanup] gives.  Whatever calls the [cleanup] of
    session [i] -- the listener of any source, or the handler when a
    stage fails -- and whatever happens before and after, the body of a
    session's cleanup runs at most once, and that of session [i] exactly
    once: a call that finds the guard set does nothing; the call that
    finds it unset closes the session's page once if it has one and, if
    the session holds an admission slot at that moment, decrements the
    counter by one and wakes the head of the queue, once. *)
Theorem cleanup_body_runs_once (mpegts : bool) (t t' : list Event) (e : Event) (i : nat) :
  let s := run mpegts t initial in
  let s' := step mpegts e s in
  let s'' := run mpegts t' s' in
  invoked e s = Some i ->
  (forall j, (occurrences (ranBy j) (log s'') <= 1)%nat
             /\ (occurrences (closedBy j) (log s'') <= 1)%nat
             /\ (occurrences (decrementedBy j) (log s'') <= 1)%nat
             /\ (occurrences (notifiedBy j) (log s'') <= 1)%nat)
  /\ occurrences (ranBy i) (log s'') = 1%nat
  /\ (doneOf s i = Some true ->
      occurrences (ranBy i) (log s') = occurrences (ranBy i) (log s)
      /\ occurrences (closedBy i) (log s') = occurrences (closedBy i) (log s)
      /\ occurrences (decrementedBy i) (log s') = occurrences (decrementedBy i) (log s)
      /\ occurrences (notifiedBy i) (log s') = occurrences (notifiedBy i) (log s))
  /\ (forall x, sessions s !! i = Some x -> done_ x = false ->
      activeStreams s' = (if countedStream x then activeStreams s - 1 else activeStreams s)
      /\ woken (log s')
         = woken (log s) ++ (if countedStream x then firstn 1 (waiters s) else [])
      /\ occurrences (closedBy i) (log s'')
         = match page x with Some _ => 1%nat | None => 0%nat end
      /\ occurrences (decrementedBy i) (log s'') = (if countedStream x then 1 else 0)%nat
      /\ occurrences (notifiedBy i) (log s'') = (if countedStream x then 1 else 0)%nat).
Proof.
  intros s s' s'' Hinv.
  destruct (reachable mpegts t) as (_ & Hb & Ha & _). fold s in Hb, Ha.
  destruct (reachable_step mpegts t e) as (_ & _ & Ha' & _). fold s s' in Ha'.
  pose proof (invoked_cleans mpegts e s i Hinv) as Hd. fold s' in Hd.
  destruct (run_frozen mpegts t' s' i Hd) as (Hd'' & F1 & F2 & F3 & F4). fold s'' in Hd'', F1, F2, F3, F4.
  split; [|split; [|split]].
  - intros j. apply accounted_bounds. subst s'' s' s.
    assert (E : run mpegts t' (step mpegts e (run mpegts t initial))
                = run mpegts (t ++ e :: t') initial) by (now rewrite run_app).
    destruct (reachable mpegts (t ++ e :: t')) as (_ & _ & Hacc & _).
    now rewrite <- E in Hacc.
  - rewrite F1. specialize (Ha' i). rewrite Hd in Ha'. apply Ha'.
  - intros Hdone. destruct (step_frozen mpegts e s i Hdone) as (_ & E1 & E2 & E3 & E4).
    auto.
  - intros x Hx Hdx.
    destruct (step_cleans mpegts e s i x Hb Ha Hx Hdx Hd) as (K1 & _ & K3 & _ & K5 & K6 & K7).
    rewrite F2, F3, F4. auto.
Qed.

Lemma cleanup_body_runs_once_witness :
  invoked (Fire 0 ResClose) (run true twoQueued initial) = Some 0%nat
  /\ occurrences (ranBy 0)
       (log (run true [Fire 0 ReqAborted; Settle 0 (Threw "closed"); Settle 2 Ok]
               (step true (Fire 0 ResClose) (run true twoQueued initial)))) = 1%nat.
Proof.
  split; [vm_compute; reflexivity|].
  pose proof (cleanup_body_runs_once true twoQueued
                [Fire 0 ReqAborted; Settle 0 (Threw "closed"); Settle 2 Ok]
                (Fire 0 ResClose) 0%nat) as H.
  cbv zeta in H. destruct H as (_ & H & _); [vm_compute; reflexivity|exact H].
Defined.

(** A slot taken after the cleanup has run is kept: session 2 is aborted
    while it waits in the queue, is woken by the release of session 0,
    takes the slot and fails at the channel selection, where its
    [cleanup] finds the guard set.  When all four sessions are over the
    counter is still 1. *)
Example slot_taken_after_cleanup :
  let s := run true [ Fire 2 ReqAborted; Fire 0 ResClose; Settle 2 Ok;
                      Settle 2 (Threw "closed"); Fire 2 ResClose; Fire 1 ResClose;
                      Settle 3 Ok; Fire 3 ResClose ]
               (run true twoQueued initial) in
  activeStreams s = 1
  /\ waiters s = []
  /\ map done_ (sessions s) = [true; true; true; true]
  /\ map countedStream (sessions s) = [false; false; true; false].
Proof. vm_compute. repeat split; reflexivity. Qed.

(** ** Admission control *)

(** Three requests whose captures have started before any of them
    resumes from its [await] of [waitForStreamSlot]. *)
Definition threeAtOnce : list Event :=
  [ Request "espn"; Request "footy"; Request "news";
    Settle 0 Ok; Settle 0 Ok; Settle 0 Ok;
    Settle 1 Ok; Settle 1 Ok; Settle 1 Ok;
    Settle 2 Ok; Settle 2 Ok; Settle 2 Ok;
    Settle 0 Ok; Settle 1 Ok; Settle 2 Ok ]%string.

(** C2.  The test of [waitForStreamSlot] and the [activeStreams++] of its
    caller are in different turns of the loop: three handlers pass the
    test while the counter is 0, and then each of them increments it.
    Three sessions hold a slot, one more than [MAX_CONCURRENT_STREAMS];
    none of them was queued or refused. *)
Theorem admission_overshoot (mpegts : bool) :
  let s := run mpegts threeAtOnce initial in
  activeStreams s = 3
  /\ MAX_CONCURRENT_STREAMS < activeStreams s
  /\ map countedStream (sessions s) = [true; true; true]
  /\ map pc (sessions s) = [SelectingChannel; SelectingChannel; SelectingChannel]
  /\ enqueued (log s) = []
  /\ occurrences (fun e => match e with Responded _ _ _ => true | _ => false end) (log s)
     = 0%nat.
Proof. destruct mpegts; vm_compute; repeat split; reflexivity. Qed.

(** ** The waiter queue *)

Lemma pcOf_lookup (s : State) (i : nat) (c : Pc) :
  pcOf s i = Some c -> exists x, sessions s !! i = Some x /\ pc x = c.
Proof.
  unfold pcOf. destruct (sessions s !! i) as [x|]; [|discriminate].
  intros [= <-]. eauto.
Qed.

(** C3.  In every state the server can be in, the queue holds the
    callers whose promise is pending, in the order they joined it.  A
    turn of the loop wakes nobody or exactly the first of them -- no
    caller that joined before it is still waiting -- and its promise
    resolves to [true]; the turn in which the cleanup of a slot holder
    runs wakes the head of the queue.  When the timer of a waiting
    caller fires, the caller leaves the queue, its promise resolves to
    [false], its handler answers 429, and no later turn wakes it. *)
Theorem waiters_fifo_and_timeout (mpegts : bool) (t : list Event) (e : Event) :
  let s := run mpegts t initial in
  let s' := step mpegts e s in
  List.NoDup (enqueued (log s))
  /\ waiters s = List.filter (waiting s) (enqueued (log s))
  /\ (woken (log s') = woken (log s)
      \/ exists w before after,
           enqueued (log s) = before ++ w :: after
           /\ (forall a, In a before -> waiting s a = false)
           /\ waiting s w = true
           /\ woken (log s') = woken (log s) ++ [w]
           /\ waiters s' = List.filter (waiting s) after
           /\ pcOf s' w = Some (WaitingSlot (Settled true)))
  /\ (forall i x, sessions s !! i = Some x -> done_ x = false -> countedStream x = true ->
                  doneOf s' i = Some true ->
                  woken (log s') = woken (log s) ++ firstn 1 (waiters s))
  /\ (forall i t', e = Timer i -> waiting s i = true ->
        ~ In i (waiters s')
        /\ pcOf s' i = Some (WaitingSlot (Settled false))
        /\ (forall o, exists body,
               In (Responded i 429 body) (log (step mpegts (Settle i o) s')))
        /\ exists d, woken (log (run mpegts t' s')) = woken (log s') ++ d /\ ~ In i d).
Proof.
  intros s s'.
  destruct (reachable mpegts t) as (_ & Hb & Ha & Hq & _). fold s in Hb, Ha, Hq.
  destruct (reachable_step mpegts t e) as (_ & _ & _ & Hq' & _). fold s s' in Hq'.
  pose proof Hq as (Hnd & Hw & _).
  split; [exact Hnd|]. split; [exact Hw|]. split; [|split].
  - destruct (step_woken mpegts e s Hq) as [E|(w & rest & E1 & E2 & E3 & E4)]; [now left|].
    right. fold s' in E2, E3, E4. rewrite Hw in E1.
    destruct (filter_head _ _ _ _ E1) as (l1 & l2 & El & H1 & H2 & H3).
    exists w, l1, l2. rewrite E2, H3. repeat split; assumption.
  - intros i x Hx Hd Hc Hflip.
    destruct (step_cleans mpegts e s i x Hb Ha Hx Hd Hflip) as (_ & _ & E & _).
    now rewrite Hc in E.
  - intros i t' -> Hwait.
    destruct (timer_expires mpegts s i Hwait) as (E1 & E2 & E3). fold s' in E1, E2, E3.
    split; [|split; [exact E2|split]].
    + rewrite E1. apply removeFirst_gone. rewrite Hw. now apply List.NoDup_filter.
    + intros o. destruct (pcOf_lookup _ _ _ E2) as (x' & Hx' & Hp').
      eexists. apply (timed_out_429 mpegts s' i x' o Hx' Hp').
    + apply (run_settled mpegts t' s' i Hq' E3).
Qed.

Lemma waiters_fifo_and_timeout_witness :
  waiting (run true twoQueued initial) 2 = true
  /\ ~ In 2%nat (waiters (step true (Timer 2) (run true twoQueued initial)))
  /\ woken (log (step true (Fire 0 ResClose) (run true twoQueued initial))) = [2%nat].
Proof.
  split; [vm_compute; reflexivity|]. split.
  - pose proof (waiters_fifo_and_timeout true twoQueued (Timer 2)) as H. cbv zeta in H.
    destruct H as (_ & _ & _ & _ & H).
    destruct (H 2%nat [] eq_refl) as [H1 _]; [vm_compute; reflexivity|exact H1].
  - pose proof (waiters_fifo_and_timeout true twoQueued (Fire 0 ResClose)) as H.
    cbv zeta in H. destruct H as (_ & _ & _ & H & _).
    rewrite (H 0%nat (withPc SelectingChannel
                        (withCounted true
                           (withStream true
                              (withPage (Some 0%nat)
                                 (newSession ChannelStream
                                    (Js.Own (Tuner.kayo "5bce8eb9e4b0a8faf3c14a94" "ESPN" 509))))))));
      vm_compute; reflexivity.
Defined.

(** ** The pipeline *)

Lemma history_prefix (s : State) (i : nat) (x : Session) :
  scripted s -> sessions s !! i = Some x ->
  exists n, history i (log s) = firstn n (script (kind x)).
Proof.
  intros Hs Hx. specialize (Hs i). rewrite (spotOf_lookup _ _ _ Hx) in Hs.
  destruct (place (kind x) (pc x)) as [n| |]; eauto.
Qed.

Lemma history_piping (s : State) (i : nat) (x : Session) :
  scripted s -> sessions s !! i = Some x -> pc x = Piping ->
  history i (log s) = script (kind x).
Proof.
  intros Hs Hx Hp. specialize (Hs i). rewrite (spotOf_lookup _ _ _ Hx), Hp in Hs.
  destruct (kind x); exact Hs.
Qed.

Lemma entered_prefix (k : Kind) (n : nat) :
  entered (firstn n (script k))
  = firstn (length (entered (firstn n (script k)))) (entered (script k)).
Proof. destruct k; do 15 (destruct n as [|n]; [reflexivity|]); reflexivity. Qed.

Lemma channelScript_admission (n : nat) :
  nth_error channelScript n = Some (Began Admission) -> n = 6%nat.
Proof.
  do 14 (destruct n as [|n]; [first [discriminate|reflexivity]|]). now destruct n.
Qed.

Lemma channelScript_selection (n : nat) :
  nth_error channelScript n = Some (Began SelectChannel) -> n = 8%nat.
Proof.
  do 14 (destruct n as [|n]; [first [discriminate|reflexivity]|]). now destruct n.
Qed.

Lemma genericScript_capture (n : nat) :
  nth_error genericScript n = Some (Began StartCapture) -> n = 6%nat.
Proof.
  do 10 (destruct n as [|n]; [first [discriminate|reflexivity]|]). now destruct n.
Qed.

(** The turn in which a stage of session [i] fails, and what follows. *)
Lemma failure_ends (mpegts : bool) (t' : list Event) (s : State) (i : nat) (x : Session)
      (o : Outcome) :
  sessions s !! i = Some x -> failure x o = true ->
  let s' := step mpegts (Settle i o) s in
  doneOf s' i = Some true /\ pcOf s' i = Some Returned
  /\ (kind x = ChannelStream -> entered (history i (log s')) = entered (history i (log s)))
  /\ history i (log (run mpegts t' s')) = history i (log s').
Proof.
  intros Hx Hf s'. destruct (failure_cleans mpegts s i x o Hx Hf) as [Hd Hp].
  split; [exact Hd|]. split; [exact Hp|]. split.
  - intros Hk. destruct (failure_marks mpegts s i x o Hx Hf) as (d & E & Hd').
    fold s' in E. rewrite E, entered_app, (Hd' Hk). apply app_nil_r.
  - destruct (spotOf_returned _ _ Hp) as [k Hk]. apply (run_returned mpegts t' _ i k Hk).
Qed.

(** C4.  The marks of a session of [handleChannelStream] are at every
    moment a prefix of its script: the states are entered in the order
    PageAcquired, Navigated, CaptureStarted, SlotAcquired,
    ChannelSelected, PlaybackVerified, Piping, each at most once.  The
    capture has started when admission control is consulted and when the
    channel selection begins; a session that pipes has gone through all
    the states.  The turn in which a stage fails enters no state, runs
    the cleanup and returns, and the session enters no state
    afterwards. *)
Theorem channel_pipeline_order (mpegts : bool) (t : list Event) (i : nat) (x : Session) :
  let s := run mpegts t initial in
  let h := history i (log s) in
  sessions s !! i = Some x -> kind x = ChannelStream ->
  (exists n, h = firstn n channelScript)
  /\ (exists n, entered h
                = firstn n [PageAcquired; Navigated; CaptureStarted; SlotAcquired;
                            ChannelSelected; PlaybackVerified; PipingStage])
  /\ (forall n, nth_error h n = Some (Began Admission) ->
                (5 < n)%nat /\ nth_error h 5 = Some (Entered CaptureStarted))
  /\ (forall n, nth_error h n = Some (Began SelectChannel) ->
                (7 < n)%nat /\ nth_error h 5 = Some (Entered CaptureStarted)
                /\ nth_error h 7 = Some (Entered SlotAcquired))
  /\ (pc x = Piping -> h = channelScript)
  /\ (forall o t', failure x o = true ->
        let s' := step mpegts (Settle i o) s in
        doneOf s' i = Some true /\ pcOf s' i = Some Returned
        /\ entered (history i (log s')) = entered h
        /\ history i (log (run mpegts t' s')) = history i (log s')).
Proof.
  intros s h Hx Hk.
  destruct (reachable mpegts t) as (_ & _ & _ & _ & Hs). fold s in Hs.
  destruct (history_prefix s i x Hs Hx) as [k Hh]. rewrite Hk in Hh.
  cbn [script] in Hh. fold h in Hh.
  split; [eauto|]. split; [|split; [|split; [|split]]].
  - rewrite Hh. eexists. apply (entered_prefix ChannelStream k).
  - intros n Hn. rewrite Hh in Hn |- *.
    pose proof (proj1 (nth_error_firstn_Some _ _ _ _) Hn) as [_ Hn'].
    apply channelScript_admission in Hn'. subst n. split; [lia|].
    apply (script_before _ _ _ _ _ _ Hn); [lia|reflexivity].
  - intros n Hn. rewrite Hh in Hn |- *.
    pose proof (proj1 (nth_error_firstn_Some _ _ _ _) Hn) as [_ Hn'].
    apply channelScript_selection in Hn'. subst n. split; [lia|].
    split; (apply (script_before _ _ _ _ _ _ Hn); [lia|reflexivity]).
  - intros Hp. unfold h. rewrite (history_piping s i x Hs Hx Hp), Hk. reflexivity.
  - intros o t' Hf s'.
    destruct (failure_ends mpegts t' s i x o Hx Hf) as (H1 & H2 & H3 & H4). auto.
Qed.

(** One channel session from the request to the piping. *)
Definition channelRun : list Event :=
  [ Request "espn"; Settle 0 Ok; Settle 0 Ok; Settle 0 Ok; Settle 0 Ok;
    Settle 0 Ok; Settle 0 Ok; Settle 0 Ok ]%string.

(** One legacy session from the request to the piping. *)
Definition legacyRun : list Event :=
  [ LegacyRequest (Some "http://example.org/"); Settle 0 Ok; Settle 0 Ok; Settle 0 Ok;
    Settle 0 Ok ]%string.

Lemma channel_pipeline_order_witness :
  history 0 (log (run true channelRun initial)) = channelScript
  /\ exists n, history 0 (log (run true (firstn 4 channelRun) initial))
               = firstn n channelScript.
Proof.
  split.
  - pose proof (channel_pipeline_order true channelRun 0
                  (withPc Piping
                     (withFfmpeg (Some Transcoder.spawned)
                        (withCounted true
                           (withStream true
                              (withPage (Some 0%nat)
                                 (newSession ChannelStream
                                    (Js.Own (Tuner.kayo "5bce8eb9e4b0a8faf3c14a94"
                                               "ESPN" 509))))))))) as H.
    cbv zeta in H. destruct H as (_ & _ & _ & _ & H & _);
      [vm_compute; reflexivity|reflexivity|]. apply H. reflexivity.
  - pose proof (channel_pipeline_order true (firstn 4 channelRun) 0
                  (withPc (WaitingSlot (Settled true))
                     (withStream true
                        (withPage (Some 0%nat)
                           (newSession ChannelStream
                              (Js.Own (Tuner.kayo "5bce8eb9e4b0a8faf3c14a94"
                                         "ESPN" 509))))))) as H.
    cbv zeta in H. destruct H as (H & _); [vm_compute; reflexivity|reflexivity|exact H].
Defined.

(** [handleChannelStream] with the Channel Target Resolver stage
    removed, as the comparison of the two handlers is worded. *)
Definition withoutResolver (h : list Mark) : list Mark :=
  List.filter (fun m => match m with
                        | Began SelectChannel | Entered ChannelSelected => false
                        | _ => true
                        end) h.

(** The same with the playback verification removed as well. *)
Definition withoutSelection (h : list Mark) : list Mark :=
  List.filter (fun m => match m with
                        | Began VerifyPlayback | Entered PlaybackVerified => false
                        | _ => true
                        end) (withoutResolver h).

(** C5, as worded: a complete legacy session is not a complete channel
    session with the resolver stage removed, nor one with the playback
    verification removed as well: the legacy handler takes its admission
    slot before it starts the capture, the channel handler after. *)
Lemma legacy_slot_before_capture :
  let legacy := history 0 (log (run true legacyRun initial)) in
  let channel := history 0 (log (run true channelRun initial)) in
  legacy <> withoutResolver channel
  /\ legacy <> withoutSelection channel
  /\ entered legacy = [PageAcquired; Navigated; SlotAcquired; CaptureStarted; PipingStage]
  /\ entered (withoutSelection channel)
     = [PageAcquired; Navigated; CaptureStarted; SlotAcquired; PipingStage].
Proof. vm_compute. repeat split; discriminate. Qed.

(** C5, amended.  The marks of a session of [handleGenericStream] are at
    every moment a prefix of its own script, in which the admission slot
    is acquired BEFORE the capture starts and there is neither channel
    selection nor playback verification.  It waits for a slot with the
    same budget [QUEUE_WAIT_MS] and answers 429 when the wait times out;
    it wires the capture to the response with the same [pipe]; its
    cleanup runs at most once; a failing stage runs the cleanup and
    returns, and the session marks nothing afterwards. *)
Theorem legacy_pipeline_contract (mpegts : bool) (t : list Event) (i : nat) (x : Session) :
  let s := run mpegts t initial in
  let h := history i (log s) in
  sessions s !! i = Some x -> kind x = GenericStream ->
  (exists n, h = firstn n genericScript)
  /\ (exists n, entered h
                = firstn n [PageAcquired; Navigated; SlotAcquired; CaptureStarted;
                            PipingStage])
  /\ (forall n, nth_error h n = Some (Began StartCapture) ->
                (5 < n)%nat /\ nth_error h 5 = Some (Entered SlotAcquired))
  /\ (forall ms, pc x = WaitingSlot (Queued ms) -> ms = QUEUE_WAIT_MS)
  /\ (pc x = WaitingSlot (Settled false) ->
      forall o, In (Responded i 429 "Too many concurrent streams")
                   (log (step mpegts (Settle i o) s)))
  /\ (pc x = StartingCapture ->
      step mpegts (Settle i Ok) s
      = pipe mpegts i (mark i (Entered CaptureStarted) (modify i (withStream true) s)))
  /\ (forall y, pc y = TogglingFullscreen ->
                resumeChannel mpegts i y Ok s = pipe mpegts i s)
  /\ (occurrences (ranBy i) (log s) <= 1)%nat
  /\ (forall o t', failure x o = true ->
        let s' := step mpegts (Settle i o) s in
        doneOf s' i = Some true /\ pcOf s' i = Some Returned
        /\ history i (log (run mpegts t' s')) = history i (log s')).
Proof.
  intros s h Hx Hk.
  destruct (reachable mpegts t) as (Hl & _ & Ha & _ & Hs). fold s in Hl, Ha, Hs.
  destruct (history_prefix s i x Hs Hx) as [k Hh]. rewrite Hk in Hh.
  cbn [script] in Hh. fold h in Hh.
  split; [eauto|]. split; [|split; [|split; [|split; [|split; [|split; [|split]]]]]].
  - rewrite Hh. eexists. apply (entered_prefix GenericStream k).
  - intros n Hn. rewrite Hh in Hn |- *.
    pose proof (proj1 (nth_error_firstn_Some _ _ _ _) Hn) as [_ Hn'].
    apply genericScript_capture in Hn'. subst n. split; [lia|].
    apply (script_before _ _ _ _ _ _ Hn); [lia|reflexivity].
  - apply (Hl i x Hx).
  - intros Hp o. pose proof (timed_out_429 mpegts s i x o Hx Hp) as H.
    now rewrite Hk in H.
  - intros Hp. unfold step. rewrite Hx, Hk. unfold resumeGeneric. now rewrite Hp.
  - intros y Hp. unfold resumeChannel. now rewrite Hp.
  - apply accounted_bounds, Ha.
  - intros o t' Hf s'.
    destruct (failure_ends mpegts t' s i x o Hx Hf) as (H1 & H2 & _ & H4). auto.
Qed.

Lemma legacy_pipeline_contract_witness :
  history 0 (log (run true legacyRun initial)) = genericScript
  /\ exists n, history 0 (log (run true (firstn 3 legacyRun) initial))
               = firstn n genericScript.
Proof.
  split.
  - vm_compute. reflexivity.
  - pose proof (legacy_pipeline_contract true (firstn 3 legacyRun) 0
                  (withPc (WaitingSlot (Settled true))
                     (withPage (Some 0%nat) (newSession GenericStream Js.Undefined)))) as H.
    cbv zeta in H. destruct H as (H & _); [vm_compute; reflexivity|reflexivity|exact H].
Defined.

(** * Helpers and endpoints *)

(** ** Properties of [findFFmpegPath] *)

Lemma find_Some_first {A : Type} (f : A -> bool) (l : list A) (a : A) :
  List.find f l = Some a <->
  exists before after, l = before ++ a :: after /\ f a = true
                       /\ forall e, In e before -> f e = false.
Proof.
  split.
  - induction l as [|b l IH]; [discriminate|]. cbn. destruct (f b) eqn:Hb.
    + intros [= ->]. exists [], l. repeat split; auto. intros e [].
    + intros Hl. destruct (IH Hl) as (before & after & -> & Ha & Hbefore).
      exists (b :: before), after. repeat split; auto.
      intros e [<-|He]; auto.
  - intros (before & after & -> & Ha & Hbefore).
    induction before as [|b before IH]; cbn; [now rewrite Ha|].
    rewrite (Hbefore b) by (now left). apply IH. intros e He. apply Hbefore. now right.
Qed.

Lemma find_None_all {A : Type} (f : A -> bool) (l : list A) :
  List.find f l = None <-> forall e, In e l -> f e = false.
Proof.
  induction l as [|b l IH]; cbn; [split; [intros _ e []|reflexivity]|].
  destruct (f b) eqn:Hb.
  - split; [discriminate|]. intros H. rewrite (H b) in Hb by (now left). discriminate.
  - rewrite IH. split; [intros Hl e [<-|He]; auto|intros H e He; apply H; now right].
Qed.

Lemma commonPaths_truthy (m : Ffmpeg.Machine) (p : string) :
  In p (Ffmpeg.commonPaths m) -> Js.truthy p = true.
Proof.
  unfold Ffmpeg.commonPaths. destruct (String.eqb _ _); cbn; intuition (subst; reflexivity).
Qed.

(** X1.  Once [findFFmpegPath] has resolved with a path, that path is
    not empty, it is what [cachedFFmpegPath] holds, every later call
    resolves with it whatever the machine looks like by then, and it is
    the command [spawnMpegTsTranscoder] spawns.  A call that throws
    leaves [cachedFFmpegPath] as it was. *)
Theorem findFFmpegPath_caches (m : Ffmpeg.Machine) (cached : option string) :
  (forall p cached',
      Ffmpeg.findFFmpegPath m cached = (inl p, cached') ->
      p <> ""%string /\ cached' = Some p
      /\ (forall m', Ffmpeg.findFFmpegPath m' cached' = (inl p, cached'))
      /\ Ffmpeg.ffmpegPath cached' = p)
  /\ (forall e cached',
        Ffmpeg.findFFmpegPath m cached = (inr e, cached') ->
        e = Ffmpeg.notFound /\ cached' = cached).
Proof.
  assert (Hkeep : forall p, Js.truthy p = true ->
            p <> ""%string
            /\ (forall m', Ffmpeg.findFFmpegPath m' (Some p) = (inl p, Some p))
            /\ Ffmpeg.ffmpegPath (Some p) = p).
  { intros p Hp. split; [now apply truthy_nonempty|].
    unfold Ffmpeg.findFFmpegPath, Ffmpeg.ffmpegPath. rewrite Hp. auto. }
  assert (Hsearch : forall c p cached',
            (if Ffmpeg.execSync m (Ffmpeg.probe m) then (inl "ffmpeg"%string, Some "ffmpeg"%string)
             else match List.find (Ffmpeg.existsSync m) (Ffmpeg.commonPaths m) with
                  | Some q => (inl q, Some q)
                  | None => (inr Ffmpeg.notFound, c)
                  end) = (inl p, cached') ->
            Js.truthy p = true /\ cached' = Some p).
  { intros c p cached'. destruct (Ffmpeg.execSync m (Ffmpeg.probe m)).
    - intros [= <- <-]. auto.
    - destruct (List.find _ _) as [q|] eqn:Hf; [|discriminate]. intros [= <- <-].
      apply List.find_some in Hf as [Hin _]. split; [|reflexivity].
      now apply (commonPaths_truthy m). }
  split.
  - intros p cached' H. unfold Ffmpeg.findFFmpegPath in H.
    destruct cached as [q|]; [destruct (Js.truthy q) eqn:Hq|].
    + injection H as <- <-. destruct (Hkeep q Hq) as (H1 & H2 & H3). auto.
    + destruct (Hsearch _ _ _ H) as [Hp ->]. destruct (Hkeep p Hp) as (H1 & H2 & H3). auto.
    + destruct (Hsearch _ _ _ H) as [Hp ->]. destruct (Hkeep p Hp) as (H1 & H2 & H3). auto.
  - intros e cached' H. unfold Ffmpeg.findFFmpegPath in H.
    destruct cached as [q|]; [destruct (Js.truthy q) eqn:Hq|]; try discriminate;
      destruct (Ffmpeg.execSync m (Ffmpeg.probe m)); try discriminate;
      destruct (List.find _ _); try discriminate; injection H as <- <-; auto.
Qed.

(** A Linux machine without [ffmpeg] on the PATH but with
    [/usr/local/bin/ffmpeg]. *)
Definition localInstall : Ffmpeg.Machine :=
  {| Ffmpeg.platform := "linux";
     Ffmpeg.execSync := fun _ => false;
     Ffmpeg.existsSync := String.eqb "/usr/local/bin/ffmpeg" |}.

(** A machine with nothing installed. *)
Definition bareMachine : Ffmpeg.Machine :=
  {| Ffmpeg.platform := "linux";
     Ffmpeg.execSync := fun _ => false;
     Ffmpeg.existsSync := fun _ => false |}.

Lemma findFFmpegPath_caches_witness :
  Ffmpeg.findFFmpegPath localInstall None
  = (inl "/usr/local/bin/ffmpeg"%string, Some "/usr/local/bin/ffmpeg"%string)
  /\ Ffmpeg.findFFmpegPath bareMachine (Some "/usr/local/bin/ffmpeg"%string)
     = (inl "/usr/local/bin/ffmpeg"%string, Some "/usr/local/bin/ffmpeg"%string)
  /\ snd (Ffmpeg.findFFmpegPath bareMachine None) = None.
Proof.
  split; [reflexivity|]. split.
  - exact (proj1 (proj2 (proj2
             (proj1 (findFFmpegPath_caches localInstall None) _ _ eq_refl))) bareMachine).
  - exact (proj2 (proj2 (findFFmpegPath_caches bareMachine None) _ _ eq_refl)).
Defined.

(** X2.  With nothing cached, [findFFmpegPath] resolves with [ffmpeg]
    when the [which]/[where] probe succeeds; otherwise with the first of
    the common installation paths that exists; and it throws exactly
    when the probe fails and none of them exists -- after which
    [spawnMpegTsTranscoder] still spawns the command [ffmpeg]. *)
Theorem findFFmpegPath_search (m : Ffmpeg.Machine) :
  (Ffmpeg.execSync m (Ffmpeg.probe m) = true ->
   Ffmpeg.findFFmpegPath m None = (inl "ffmpeg"%string, Some "ffmpeg"%string))
  /\ (forall p,
        Ffmpeg.execSync m (Ffmpeg.probe m) = false ->
        (Ffmpeg.findFFmpegPath m None = (inl p, Some p) <->
         exists before after,
           Ffmpeg.commonPaths m = before ++ p :: after
           /\ Ffmpeg.existsSync m p = true
           /\ forall q, In q before -> Ffmpeg.existsSync m q = false))
  /\ (Ffmpeg.findFFmpegPath m None = (inr Ffmpeg.notFound, None) <->
      Ffmpeg.execSync m (Ffmpeg.probe m) = false
      /\ forall q, In q (Ffmpeg.commonPaths m) -> Ffmpeg.existsSync m q = false)
  /\ (forall e c, Ffmpeg.findFFmpegPath m None = (inr e, c) ->
                  Ffmpeg.ffmpegPath c = "ffmpeg"%string).
Proof.
  unfold Ffmpeg.findFFmpegPath. split; [|split; [|split]].
  - now intros ->.
  - intros p ->. rewrite <- find_Some_first.
    destruct (List.find _ _) as [q|]; split; congruence.
  - rewrite <- find_None_all. destruct (Ffmpeg.execSync m (Ffmpeg.probe m)).
    + split; [discriminate|intros [? _]; discriminate].
    + destruct (List.find _ _) as [q|].
      * split; [discriminate|intros [_ ?]; discriminate].
      * split; auto.
  - intros e c. destruct (Ffmpeg.execSync m (Ffmpeg.probe m)); [discriminate|].
    destruct (List.find _ _); [discriminate|]. now intros [= <- <-].
Qed.

Lemma findFFmpegPath_search_witness :
  Ffmpeg.findFFmpegPath localInstall None
  = (inl "/usr/local/bin/ffmpeg"%string, Some "/usr/local/bin/ffmpeg"%string).
Proof.
  apply (proj1 (proj2 (findFFmpegPath_search localInstall)) _ eq_refl).
  exists ["/usr/bin/ffmpeg"%string], ["/opt/homebrew/bin/ffmpeg"%string].
  split; [reflexivity|]. split; [reflexivity|]. intros q [<-|[]]. reflexivity.
Defined.

(** ** Properties of the stderr filter *)

Fixpoint allSpace (s : string) : bool :=
  match s with
  | EmptyString => true
  | String c r => Ffmpeg.isSpace c && allSpace r
  end.

Definition firstChar (s : string) : option ascii :=
  match s with
  | EmptyString => None
  | String c _ => Some c
  end.

Fixpoint lastChar (s : string) : option ascii :=
  match s with
  | EmptyString => None
  | String c EmptyString => Some c
  | String _ r => lastChar r
  end.

Definition blackChar (c : option ascii) : bool :=
  match c with
  | Some a => negb (Ffmpeg.isSpace a)
  | None => false
  end.

Lemma append_cons (c : ascii) (a b : string) :
  (String c a ++ b)%string = String c (a ++ b)%string.
Proof. reflexivity. Qed.

Lemma append_nil (b : string) : (""%string ++ b)%string = b.
Proof. reflexivity. Qed.

Lemma trimStart_spec (s : string) :
  exists before, s = (before ++ Ffmpeg.trimStart s)%string /\ allSpace before = true
                 /\ (Ffmpeg.trimStart s = ""%string
                     \/ blackChar (firstChar (Ffmpeg.trimStart s)) = true).
Proof.
  induction s as [|c r (before & E & Hb & Hf)]; [exists ""%string; cbn; auto|].
  cbn. destruct (Ffmpeg.isSpace c) eqn:Hc.
  - exists (String c before). split; [rewrite ?append_cons, ?append_nil; now f_equal|].
    split; [cbn; now rewrite Hc|exact Hf].
  - exists ""%string. split; [reflexivity|]. split; [reflexivity|]. right. cbn. now rewrite Hc.
Qed.

Lemma trimEnd_spec (s : string) :
  exists after, s = (Ffmpeg.trimEnd s ++ after)%string /\ allSpace after = true
                /\ (Ffmpeg.trimEnd s = ""%string
                    \/ blackChar (lastChar (Ffmpeg.trimEnd s)) = true).
Proof.
  induction s as [|c r (after & E & Ha & Hl)]; [exists ""%string; cbn; auto|].
  cbn. destruct (Ffmpeg.trimEnd r) as [|d r'] eqn:Hr.
  - rewrite ?append_cons, ?append_nil in E. destruct (Ffmpeg.isSpace c) eqn:Hc.
    + exists (String c after). split; [rewrite ?append_cons, ?append_nil; now f_equal|].
      split; [cbn; now rewrite Hc|now left].
    + exists after. split; [rewrite ?append_cons, ?append_nil; now f_equal|].
      split; [exact Ha|]. right. cbn. now rewrite Hc.
  - exists after. split; [rewrite ?append_cons, ?append_nil; now f_equal|].
    split; [exact Ha|]. right. destruct Hl as [Hl|Hl]; [discriminate|].
    destruct r'; exact Hl.
Qed.

Lemma trimEnd_first (s : string) :
  Ffmpeg.trimEnd s = ""%string \/ firstChar (Ffmpeg.trimEnd s) = firstChar s.
Proof.
  destruct s as [|c r]; [now left|]. cbn.
  destruct (Ffmpeg.trimEnd r); [destruct (Ffmpeg.isSpace c)|]; auto.
Qed.

Lemma includes_cons (c : ascii) (r pat : string) :
  Js.includes (String c r) pat = String.prefix pat (String c r) || Js.includes r pat.
Proof.
  unfold Js.includes. cbn [String.index].
  destruct (String.prefix pat (String c r)); [reflexivity|].
  now destruct (String.index 0 pat r).
Qed.

Lemma includes_nonempty (s pat : string) :
  pat <> ""%string -> Js.includes s pat = true -> s <> ""%string.
Proof. intros Hp Hi ->. destruct pat; [congruence|discriminate]. Qed.

Lemma includes_trimStart (s pat : string) :
  blackChar (firstChar pat) = true ->
  Js.includes (Ffmpeg.trimStart s) pat = Js.includes s pat.
Proof.
  intros Hp. induction s as [|c r IH]; [reflexivity|]. cbn [Ffmpeg.trimStart].
  destruct (Ffmpeg.isSpace c) eqn:Hc; [|reflexivity].
  rewrite IH, includes_cons. destruct pat as [|a p]; [discriminate|]. cbn in *.
  destruct (ascii_dec a c) as [->|_]; [|reflexivity].
  rewrite Hc in Hp. discriminate.
Qed.

Lemma prefix_trimEnd (pat s : string) :
  blackChar (lastChar pat) = true ->
  String.prefix pat s = true -> String.prefix pat (Ffmpeg.trimEnd s) = true.
Proof.
  revert s. induction pat as [|a p IH]; [discriminate|]. intros [|c r] Hl; [discriminate|].
  cbn [String.prefix]. destruct (ascii_dec a c) as [->|_]; [|discriminate]. intros Hp.
  cbn [Ffmpeg.trimEnd]. destruct p as [|b p].
  - cbn in Hl. destruct (Ffmpeg.isSpace c); [discriminate|].
    destruct (Ffmpeg.trimEnd r); cbn; now destruct (ascii_dec c c).
  - specialize (IH r Hl Hp). destruct (Ffmpeg.trimEnd r) as [|d r']; [discriminate|].
    cbn [String.prefix]. now destruct (ascii_dec c c).
Qed.

Lemma includes_trimEnd (s pat : string) :
  blackChar (lastChar pat) = true ->
  Js.includes s pat = true -> Js.includes (Ffmpeg.trimEnd s) pat = true.
Proof.
  intros Hl. assert (Hne : pat <> ""%string) by (intros ->; discriminate).
  induction s as [|c r IH]; [now destruct pat|].
  rewrite includes_cons. intros Hi. apply orb_true_iff in Hi as [Hi|Hi].
  - apply (prefix_trimEnd _ _ Hl) in Hi.
    destruct (Ffmpeg.trimEnd (String c r)) as [|d t]; [now destruct pat|].
    rewrite includes_cons, Hi. reflexivity.
  - specialize (IH Hi). pose proof (includes_nonempty _ _ Hne IH) as Hr.
    cbn [Ffmpeg.trimEnd]. destruct (Ffmpeg.trimEnd r) as [|d t]; [congruence|].
    rewrite includes_cons, IH. apply orb_true_r.
Qed.

Lemma noisePatterns_black (pat : string) :
  In pat Ffmpeg.noisePatterns ->
  blackChar (firstChar pat) = true /\ blackChar (lastChar pat) = true.
Proof. cbn. intuition (subst; split; reflexivity). Qed.

Lemma existsb_false {A : Type} (f : A -> bool) (l : list A) :
  existsb f l = false <-> forall a, In a l -> f a = false.
Proof.
  induction l as [|b l IH]; cbn; [split; [intros _ a []|reflexivity]|].
  rewrite orb_false_iff, IH. split.
  - intros [Hb Hl] a [<-|Ha]; auto.
  - intros H. split; [apply H; now left|intros a Ha; apply H; now right].
Qed.

(** X3.  A line logged for a chunk of FFmpeg's stderr is the stream's
    prefix, [FFmpeg: ], and the chunk without the white space around it;
    the message is not empty, neither starts nor ends with white space,
    and contains none of the progress patterns. *)
Theorem stderr_line (p : Transcoder.Proc) (streamId : option string) (data line : string) :
  Ffmpeg.onStderr p streamId data = Some line ->
  exists before message after,
    data = (before ++ message ++ after)%string
    /\ allSpace before = true /\ allSpace after = true
    /\ blackChar (firstChar message) = true /\ blackChar (lastChar message) = true
    /\ (forall pat, In pat Ffmpeg.noisePatterns -> Js.includes message pat = false)
    /\ line = (Ffmpeg.logPrefix streamId ++ "FFmpeg: " ++ message)%string
    /\ Transcoder.shuttingDown p = false.
Proof.
  unfold Ffmpeg.onStderr. destruct (Transcoder.shuttingDown p); [discriminate|].
  destruct (existsb _ _) eqn:Hn; [discriminate|].
  destruct (Nat.ltb_spec 0 (String.length (Ffmpeg.trim data))) as [Hlen|_]; [|discriminate].
  intros [= <-]. unfold Ffmpeg.trim in *.
  destruct (trimStart_spec data) as (before & E1 & Hb & Hf).
  destruct (trimEnd_spec (Ffmpeg.trimStart data)) as (after & E2 & Ha & Hl).
  exists before, (Ffmpeg.trimEnd (Ffmpeg.trimStart data)), after.
  assert (Hne : Ffmpeg.trimEnd (Ffmpeg.trimStart data) <> ""%string)
    by (intros E; rewrite E in Hlen; cbn in Hlen; lia).
  split; [now rewrite <- E2|]. split; [exact Hb|]. split; [exact Ha|].
  split; [|split; [|split; [|split]]]; auto.
  - destruct (trimEnd_first (Ffmpeg.trimStart data)) as [E|E]; [congruence|].
    rewrite E. destruct Hf as [Hf|Hf]; [|exact Hf]. rewrite Hf in Hne. now cbn in Hne.
  - destruct Hl as [Hl|Hl]; [congruence|exact Hl].
  - now apply existsb_false.
Qed.

Lemma stderr_line_witness :
  Ffmpeg.onStderr Transcoder.spawned (Some "espn"%string)
    (String (ascii_of_nat 10) "  Non-monotonic DTS in output stream  ")
  = Some "[espn] FFmpeg: Non-monotonic DTS in output stream"%string
  /\ exists before message after,
       String (ascii_of_nat 10) "  Non-monotonic DTS in output stream  "
       = (before ++ message ++ after)%string
       /\ allSpace before = true /\ allSpace after = true.
Proof.
  split; [reflexivity|].
  destruct (stderr_line Transcoder.spawned (Some "espn"%string)
              (String (ascii_of_nat 10) "  Non-monotonic DTS in output stream  ")
              _ eq_refl) as (before & message & after & E & Hb & Ha & _).
  exists before, message, after. auto.
Defined.

(** X4.  Nothing is logged for a chunk that contains one of the progress
    patterns, wherever in the chunk and whatever white space surrounds
    it, nor for a chunk of white space only; and once [kill] has been
    called the wrapper is silent: it logs no chunk and hands no process
    error to [onError]. *)
Theorem stderr_silent (p : Transcoder.Proc) (streamId : option string) (data : string) :
  (forall pat, In pat Ffmpeg.noisePatterns -> Js.includes data pat = true ->
               Ffmpeg.onStderr p streamId data = None)
  /\ (allSpace data = true -> Ffmpeg.onStderr p streamId data = None)
  /\ Ffmpeg.onStderr (fst (Transcoder.kill p)) streamId data = None
  /\ (forall message, Transcoder.onProcessError (fst (Transcoder.kill p)) message = None).
Proof.
  split; [|split; [|split]].
  - intros pat Hin Hi. unfold Ffmpeg.onStderr. destruct (Transcoder.shuttingDown p); [reflexivity|].
    destruct (noisePatterns_black pat Hin) as [Hf Hl].
    assert (Ht : Js.includes (Ffmpeg.trim data) pat = true).
    { unfold Ffmpeg.trim. apply (includes_trimEnd _ _ Hl). now rewrite includes_trimStart. }
    assert (He : existsb (fun q => Js.includes (Ffmpeg.trim data) q) Ffmpeg.noisePatterns = true)
      by (apply existsb_exists; eauto).
    now rewrite He.
  - intros Hs. unfold Ffmpeg.onStderr. destruct (Transcoder.shuttingDown p); [reflexivity|].
    assert (Ht : Ffmpeg.trim data = ""%string).
    { unfold Ffmpeg.trim. induction data as [|c r IH]; [reflexivity|].
      cbn in Hs. apply andb_true_iff in Hs as [Hc Hr]. cbn. rewrite Hc. auto. }
    rewrite Ht. reflexivity.
  - reflexivity.
  - reflexivity.
Qed.

Lemma stderr_silent_witness :
  Ffmpeg.onStderr Transcoder.spawned None "  frame=  120 fps= 50 q=-1.0 size=    2048kB  "
  = None.
Proof.
  apply (proj1 (stderr_silent Transcoder.spawned None
                  "  frame=  120 fps= 50 q=-1.0 size=    2048kB  ") "frame="%string).
  - cbn. auto.
  - reflexivity.
Defined.

(** ** Properties of [getExecutablePath] *)

Section ChromeFacts.

Variable join : list string -> string.

Local Abbreviation getExecutablePath := (Chrome.getExecutablePath join).

(** X5.  A non-empty [CHROME_BIN] is returned as it is on every
    platform, whatever is installed; without it, a platform other than
    linux, darwin and win32 makes the function throw. *)
Theorem CHROME_BIN_overrides (h : Chrome.Host) :
  (forall p, Chrome.CHROME_BIN h = Some p -> p <> ""%string ->
             getExecutablePath h = Chrome.Returns (Some p))
  /\ (Chrome.truthy (Chrome.CHROME_BIN h) = false ->
      Chrome.platform h <> "linux"%string -> Chrome.platform h <> "darwin"%string ->
      Chrome.platform h <> "win32"%string ->
      getExecutablePath h
      = Chrome.Throws ("Unsupported platform: " ++ Chrome.platform h)%string).
Proof.
  unfold Chrome.getExecutablePath. split.
  - intros p Hp Hne. rewrite Hp. cbn. apply truthy_nonempty in Hne. now rewrite Hne.
  - intros -> Hl Hd Hw.
    apply String.eqb_neq in Hl, Hd, Hw. now rewrite Hl, Hd, Hw.
Qed.

Lemma firstLine_prefix (output : string) :
  exists rest, output = (Chrome.firstLine output ++ rest)%string
               /\ (rest = ""%string \/ exists r, rest = String Chrome.LF r)
               /\ Js.includes (Chrome.firstLine output) (String Chrome.LF "") = false.
Proof.
  induction output as [|c r (rest & E & Hr & Hn)]; [exists ""%string; auto|].
  cbn [Chrome.firstLine]. destruct (Ascii.eqb_spec c Chrome.LF) as [->|Hc].
  - exists (String Chrome.LF r). rewrite append_nil. repeat split; eauto.
  - exists rest. rewrite append_cons, <- E. repeat split; auto.
    rewrite includes_cons, Hn. cbn. destruct (ascii_dec Chrome.LF c); [congruence|reflexivity].
Qed.

(** X6.  On linux without [CHROME_BIN] the function never returns
    without a path: it returns the first line of the output of
    [which chromium-browser] when that line is not empty, else the first
    line of the output of [which chromium] when that one is not empty,
    and else it throws. *)
Theorem linux_path_or_throw (h : Chrome.Host) :
  Chrome.truthy (Chrome.CHROME_BIN h) = false -> Chrome.platform h = "linux"%string ->
  let line := fun command => match Chrome.execSync h command with
                             | Some output => Chrome.firstLine output
                             | None => ""%string
                             end in
  (line "which chromium-browser"%string <> ""%string ->
   getExecutablePath h = Chrome.Returns (Some (line "which chromium-browser"%string)))
  /\ (line "which chromium-browser"%string = ""%string ->
      line "which chromium"%string <> ""%string ->
      getExecutablePath h = Chrome.Returns (Some (line "which chromium"%string)))
  /\ (line "which chromium-browser"%string = ""%string ->
      line "which chromium"%string = ""%string ->
      getExecutablePath h = Chrome.Throws "Chromium not found (which chromium)")
  /\ (forall r, getExecutablePath h = Chrome.Returns r ->
                exists p, r = Some p /\ p <> ""%string
                          /\ Js.includes p (String Chrome.LF "") = false).
Proof.
  intros Hc Hp line. unfold Chrome.getExecutablePath. rewrite Hc, Hp, String.eqb_refl.
  subst line. cbv beta.
  destruct (Chrome.execSync h "which chromium-browser") as [o1|];
    destruct (Chrome.execSync h "which chromium") as [o2|]; cbn [Chrome.truthy].
  all: repeat match goal with
              | |- context [Js.truthy ?s] =>
                  let H := fresh "Ht" in
                  destruct (Js.truthy s) eqn:H;
                  [apply truthy_nonempty in H
                  |assert (s = ""%string) by (destruct s; [reflexivity|discriminate]); clear H]
              end.
  all: repeat split; try congruence.
  all: try (intros r [= <-]; eexists; split; [reflexivity|]; split; [assumption|]).
  all: try match goal with
           | |- Js.includes (Chrome.firstLine ?o) _ = false =>
               destruct (firstLine_prefix o) as (? & _ & _ & Hn); exact Hn
           end.
  all: try (intros; congruence).
Qed.

(** X7.  On darwin and win32 without [CHROME_BIN] the function never
    throws: it returns the first candidate path that exists, and
    [undefined] when none of them exists. *)
Theorem mac_and_windows_first_candidate (h : Chrome.Host) :
  Chrome.truthy (Chrome.CHROME_BIN h) = false ->
  Chrome.platform h = "darwin"%string \/ Chrome.platform h = "win32"%string ->
  let candidates := if String.eqb (Chrome.platform h) "darwin" then Chrome.macCandidates
                    else Chrome.winCandidates join h in
  (forall p, getExecutablePath h = Chrome.Returns (Some p) <->
             exists before after,
               candidates = before ++ p :: after /\ Chrome.existsSync h p = true
               /\ forall q, In q before -> Chrome.existsSync h q = false)
  /\ (getExecutablePath h = Chrome.Returns None <->
      forall q, In q candidates -> Chrome.existsSync h q = false)
  /\ (forall message, getExecutablePath h <> Chrome.Throws message).
Proof.
  intros Hc Hp candidates.
  assert (E : getExecutablePath h
              = Chrome.Returns (List.find (Chrome.existsSync h) candidates)).
  { unfold Chrome.getExecutablePath, candidates. rewrite Hc.
    destruct Hp as [-> | ->]; reflexivity. }
  rewrite E. split; [|split].
  - intros p. rewrite <- find_Some_first. split; congruence.
  - rewrite <- find_None_all. split; congruence.
  - discriminate.
Qed.

End ChromeFacts.

(** A Debian machine where only [chromium] is installed. *)
Definition debian : Chrome.Host :=
  {| Chrome.CHROME_BIN := None; Chrome.USERPROFILE := None; Chrome.platform := "linux";
     Chrome.execSync := fun command =>
       if String.eqb command "which chromium"
       then Some (String.append "/usr/bin/chromium" (String Chrome.LF ""))
       else None;
     Chrome.existsSync := fun _ => false |}.

(** A Mac with Chromium and Brave, and one with no browser. *)
Definition mac (installed : list string) : Chrome.Host :=
  {| Chrome.CHROME_BIN := None; Chrome.USERPROFILE := None; Chrome.platform := "darwin";
     Chrome.execSync := fun _ => None;
     Chrome.existsSync := fun p => existsb (String.eqb p) installed |}.

(** A FreeBSD machine with [CHROME_BIN] set. *)
Definition freebsd : Chrome.Host :=
  {| Chrome.CHROME_BIN := Some "/usr/local/bin/chrome"%string; Chrome.USERPROFILE := None;
     Chrome.platform := "freebsd";
     Chrome.execSync := fun _ => None; Chrome.existsSync := fun _ => false |}.

Lemma CHROME_BIN_overrides_witness :
  Chrome.getExecutablePath (Js.join "/") freebsd
  = Chrome.Returns (Some "/usr/local/bin/chrome"%string)
  /\ Chrome.getExecutablePath (Js.join "/") (mac [])
     = Chrome.Returns None.
Proof.
  split.
  - apply (proj1 (CHROME_BIN_overrides (Js.join "/") freebsd)); [reflexivity|discriminate].
  - reflexivity.
Defined.

Lemma linux_path_or_throw_witness :
  Chrome.getExecutablePath (Js.join "/") debian
  = Chrome.Returns (Some "/usr/bin/chromium"%string).
Proof.
  apply (proj1 (proj2 (linux_path_or_throw (Js.join "/") debian eq_refl eq_refl)));
    [reflexivity|discriminate].
Defined.

Lemma mac_and_windows_first_candidate_witness :
  Chrome.getExecutablePath (Js.join "/")
    (mac [ "/Applications/Brave Browser.app/Contents/MacOS/Brave Browser"%string;
           "/Applications/Chromium.app/Contents/MacOS/Chromium"%string ])
  = Chrome.Returns (Some "/Applications/Chromium.app/Contents/MacOS/Chromium"%string).
Proof.
  apply (proj1 (mac_and_windows_first_candidate (Js.join "/")
                  (mac [ "/Applications/Brave Browser.app/Contents/MacOS/Brave Browser"%string;
                         "/Applications/Chromium.app/Contents/MacOS/Chromium"%string ])
                  eq_refl (or_introl eq_refl))).
  exists ["/Applications/Google Chrome.app/Contents/MacOS/Google Chrome"%string],
         ["/Applications/Brave Browser.app/Contents/MacOS/Brave Browser"%string].
  split; [reflexivity|]. split; [reflexivity|]. intros q [<-|[]]. reflexivity.
Defined.

(** ** Properties of [setChromeViewScale] *)

(** X8.  A scale that is not finite or not positive makes no call at
    all.  For a positive scale the function asks for that page scale
    factor; it sets a zoom level only after that request has failed; a
    failure of either request is swallowed, and the promise rejects only
    when the CDP session cannot be created. *)
Theorem setChromeViewScale_calls (scale : Scale.Number) (ok : Scale.Command -> bool) :
  let calls := fst (Scale.setChromeViewScale scale ok) in
  let outcome := snd (Scale.setChromeViewScale scale ok) in
  ((forall s, scale = Scale.Finite s -> ~ 0 < s)%Q -> calls = [] /\ outcome = Scale.Fulfilled)
  /\ (forall s, scale = Scale.Finite s -> (0 < s)%Q ->
        (outcome = Scale.Rejected <-> ok Scale.CreateCDPSession = false)
        /\ (ok Scale.CreateCDPSession = true ->
            exists rest,
              calls = Scale.CreateCDPSession :: Scale.SetPageScaleFactor s :: rest
              /\ (ok (Scale.SetPageScaleFactor s) = true -> rest = [])
              /\ (ok (Scale.SetPageScaleFactor s) = false ->
                  rest = [Scale.SetZoomLevel (Scale.zoomLevelFor s)])))
  /\ (forall zl, In (Scale.SetZoomLevel zl) calls ->
        exists s, scale = Scale.Finite s /\ ok (Scale.SetPageScaleFactor s) = false
                  /\ zl = Scale.zoomLevelFor s).
Proof.
  intros calls outcome. subst calls outcome. unfold Scale.setChromeViewScale.
  split; [|split].
  - intros Hs. destruct scale as [s| | |]; auto.
    destruct (Qle_bool s 0) eqn:Hle; [auto|]. exfalso. apply (Hs s eq_refl).
    apply Qnot_le_lt. intros H. apply Qle_bool_iff in H. congruence.
  - intros s -> Hs.
    assert (Hle : Qle_bool s 0 = false).
    { destruct (Qle_bool s 0) eqn:Hle; [|reflexivity]. apply Qle_bool_iff in Hle.
      exfalso. now apply (Qlt_not_le _ _ Hs). }
    rewrite Hle. destruct (ok Scale.CreateCDPSession).
    + split.
      * destruct (ok (Scale.SetPageScaleFactor s)); split; discriminate.
      * intros _. destruct (ok (Scale.SetPageScaleFactor s)); eexists; split;
          try reflexivity; split; congruence.
    + split; [split; reflexivity|discriminate].
  - intros zl. destruct scale as [s| | |]; try (intros []).
    destruct (Qle_bool s 0); [intros []|].
    destruct (ok Scale.CreateCDPSession); [|intros [H|[]]; discriminate].
    destruct (ok (Scale.SetPageScaleFactor s)) eqn:Hok.
    + intros [H|[H|[]]]; discriminate.
    + intros [H|[H|[H|[]]]]; try discriminate. injection H as <-. eauto.
Qed.

Lemma setChromeViewScale_calls_witness :
  Scale.setChromeViewScale (Scale.Finite (1 # 4))
    (fun c => match c with Scale.SetPageScaleFactor _ => false | _ => true end)
  = ([Scale.CreateCDPSession; Scale.SetPageScaleFactor (1 # 4); Scale.SetZoomLevel (-3)],
     Scale.Fulfilled)
  /\ exists rest,
       fst (Scale.setChromeViewScale (Scale.Finite (1 # 4))
              (fun c => match c with Scale.SetPageScaleFactor _ => false | _ => true end))
       = Scale.CreateCDPSession :: Scale.SetPageScaleFactor (1 # 4) :: rest.
Proof.
  split; [reflexivity|].
  destruct (proj2 (proj1 (proj2
              (setChromeViewScale_calls (Scale.Finite (1 # 4))
                 (fun c => match c with Scale.SetPageScaleFactor _ => false | _ => true end)))
              (1 # 4) eq_refl eq_refl) eq_refl) as (rest & E & _).
  exists rest. exact E.
Defined.

Lemma Qle_bool_false (x y : Q) : Qle_bool x y = false -> (y < x)%Q.
Proof.
  intros H. apply Qnot_le_lt. intros Hle. apply Qle_bool_iff in Hle. congruence.
Qed.

(** X9.  The zoom level of the fallback is one of -3, -2, -1 and 0; it
    does not decrease when the scale grows; it is 0 for every scale
    above the double 0.76, so that the fallback never zooms in; and it
    is -3 for every scale up to a quarter. *)
Theorem zoomLevelFor_steps (s s' : Q) :
  (-3 <= Scale.zoomLevelFor s <= 0)
  /\ ((s <= s')%Q -> Scale.zoomLevelFor s <= Scale.zoomLevelFor s')
  /\ (Scale.zoomLevelFor s = 0 <-> (Scale.d076 < s)%Q)
  /\ ((s <= 1 # 4)%Q -> Scale.zoomLevelFor s = -3).
Proof.
  unfold Scale.zoomLevelFor. split; [|split; [|split]].
  - destruct (Qle_bool s Scale.d026), (Qle_bool s Scale.d051), (Qle_bool s Scale.d076); lia.
  - intros Hle.
    assert (Hmono : forall d, Qle_bool s' d = true -> Qle_bool s d = true).
    { intros d Hd. apply Qle_bool_iff. apply Qle_bool_iff in Hd.
      now apply (Qle_trans _ s'). }
    destruct (Qle_bool s' Scale.d026) eqn:H1; [rewrite (Hmono _ H1); lia|].
    destruct (Qle_bool s' Scale.d051) eqn:H2;
      [rewrite (Hmono _ H2); destruct (Qle_bool s Scale.d026); lia|].
    destruct (Qle_bool s' Scale.d076) eqn:H3;
      [rewrite (Hmono _ H3); destruct (Qle_bool s Scale.d026), (Qle_bool s Scale.d051); lia|].
    destruct (Qle_bool s Scale.d026), (Qle_bool s Scale.d051), (Qle_bool s Scale.d076); lia.
  - destruct (Qle_bool s Scale.d076) eqn:H3.
    + assert (Hno : ~ (Scale.d076 < s)%Q)
        by (apply Qle_not_lt; now apply Qle_bool_iff).
      destruct (Qle_bool s Scale.d026), (Qle_bool s Scale.d051); split;
        try discriminate; tauto.
    + pose proof (Qle_bool_false _ _ H3) as Hlt.
      assert (H2 : Qle_bool s Scale.d051 = false).
      { destruct (Qle_bool s Scale.d051) eqn:H; [|reflexivity]. apply Qle_bool_iff in H.
        exfalso. apply (Qlt_not_le _ _ Hlt). apply (Qle_trans _ _ _ H). discriminate. }
      assert (H1 : Qle_bool s Scale.d026 = false).
      { destruct (Qle_bool s Scale.d026) eqn:H; [|reflexivity]. apply Qle_bool_iff in H.
        exfalso. apply (Qlt_not_le _ _ Hlt). apply (Qle_trans _ _ _ H). discriminate. }
      rewrite H1, H2. tauto.
  - intros Hq.
    assert (H1 : Qle_bool s Scale.d026 = true).
    { apply Qle_bool_iff. apply (Qle_trans _ _ _ Hq). discriminate. }
    now rewrite H1.
Qed.

Lemma zoomLevelFor_steps_witness :
  Scale.zoomLevelFor (1 # 4) <= Scale.zoomLevelFor (3 # 5)
  /\ Scale.zoomLevelFor (1 # 4) = -3.
Proof.
  split.
  - apply (proj1 (proj2 (zoomLevelFor_steps (1 # 4) (3 # 5)))). discriminate.
  - apply (proj2 (proj2 (proj2 (zoomLevelFor_steps (1 # 4) 0)))). discriminate.
Defined.

(** ** Properties of the window helpers *)

Ltac run_block :=
  unfold Window.run, Window.fullscreenBlock, Window.runKayoFullscreenToggle,
    Window.minimizeWindow, Window.ensurePageIsActive, Window.setWindowBounds,
    Window.try, Window.bind, Window.await, Window.delay, Window.log, Window.ret,
    Window.start;
  cbn [Window.calls Window.console app fst snd].

(** X10.  [minimizeWindow] never throws, whichever of its calls fail,
    and writes exactly one line: that the window is minimized and kept
    active when all five calls succeed, that it is minimized but not
    forced active when the first three succeed and one of the last two
    fails, and that minimizing failed when one of the first three
    fails.  A failure stops the calls of its group: after a failed
    [Page.setWebLifecycleState] the focus emulation is not requested. *)
Theorem minimizeWindow_best_effort (ok : Window.Call -> bool) :
  let t := fst (Window.run Window.minimizeWindow ok) in
  let minimized := ok Window.CreateCDPSession && ok Window.GetWindowForTarget
                   && ok (Window.SetWindowBounds "minimized" None) in
  let active := ok (Window.SetWebLifecycleState "active")
                && ok (Window.SetFocusEmulationEnabled true) in
  snd (Window.run Window.minimizeWindow ok) = Some tt
  /\ Window.console t
     = [ if minimized
         then if active then Window.MinimizedKeptActive else Window.MinimizedNotActive
         else Window.FailedToMinimize ]
  /\ (In (Window.SetWebLifecycleState "active") (Window.calls t) <-> minimized = true)
  /\ (In (Window.SetFocusEmulationEnabled true) (Window.calls t) <->
      minimized = true /\ ok (Window.SetWebLifecycleState "active") = true).
Proof.
  run_block.
  destruct (ok Window.CreateCDPSession); cbn;
    [destruct (ok Window.GetWindowForTarget); cbn;
     [destruct (ok (Window.SetWindowBounds "minimized" None)); cbn;
      [destruct (ok (Window.SetWebLifecycleState "active")); cbn;
       [destruct (ok (Window.SetFocusEmulationEnabled true)); cbn|]|]|]|].
  all: repeat split; intros; cbn in *; intuition (try discriminate; auto).
Qed.

(** X11.  [ensurePageIsActive] never throws.  It always tries to bring
    the page to the front and to open a CDP session; when the session
    opens it sends both the lifecycle and the focus command, the second
    also after the first has failed; when it does not open, neither. *)
Theorem ensurePageIsActive_best_effort (ok : Window.Call -> bool) :
  Window.run Window.ensurePageIsActive ok
  = ({| Window.calls :=
          [Window.BringToFront; Window.CreateCDPSession]
            ++ (if ok Window.CreateCDPSession
                then [Window.SetWebLifecycleState "active";
                      Window.SetFocusEmulationEnabled true]
                else []);
        Window.console := [] |}, Some tt).
Proof.
  run_block.
  destruct (ok Window.BringToFront); cbn;
    destruct (ok Window.CreateCDPSession); cbn; try reflexivity;
    destruct (ok (Window.SetWebLifecycleState "active")); cbn;
    destruct (ok (Window.SetFocusEmulationEnabled true)); reflexivity.
Qed.

(** The calls [setWindowBounds] means to make. *)
Definition boundsPlan (width height : Z) (minimizeOnStart : bool) : list Window.Call :=
  [ Window.CreateCDPSession; Window.GetWindowForTarget;
    Window.SetWindowBounds "normal" (Some (width + 80, height + 160)) ]
    ++ (if minimizeOnStart then [Window.SetWindowBounds "minimized" None] else []).

(** X12.  [setWindowBounds] gives the window the size of the viewport
    plus 80 by 160 and minimizes it afterwards exactly when
    [--minimizeWindow] is set.  It has no handler of its own: it throws
    at the first call that fails and makes no call after it, and it
    returns exactly when all its calls succeed. *)
Theorem setWindowBounds_stops_at_failure
  (width height : Z) (minimizeOnStart : bool) (ok : Window.Call -> bool) :
  let r := Window.run (Window.setWindowBounds width height minimizeOnStart) ok in
  let plan := boundsPlan width height minimizeOnStart in
  (snd r = Some tt <-> forallb ok plan = true)
  /\ (snd r = Some tt -> Window.calls (fst r) = plan)
  /\ (forall before c after,
        plan = before ++ c :: after -> forallb ok before = true -> ok c = false ->
        Window.calls (fst r) = before ++ [c] /\ snd r = None)
  /\ Window.console (fst r) = [].
Proof.
  intros r plan. subst r plan. unfold boundsPlan. run_block.
  change Window.extraW with 80. change Window.extraH with 160.
  set (c1 := Window.CreateCDPSession). set (c2 := Window.GetWindowForTarget).
  set (c3 := Window.SetWindowBounds "normal" (Some (width + 80, height + 160))).
  set (c4 := Window.SetWindowBounds "minimized" None).
  assert (Hcases : forall before c after (l : list Window.Call),
            l = before ++ c :: after -> forallb ok before = true -> ok c = false ->
            forallb ok l = false).
  { intros before c after l -> Hb Hc. rewrite forallb_app, Hb. cbn. now rewrite Hc. }
  destruct minimizeOnStart; cbn [app forallb];
    destruct (ok c1) eqn:H1; cbn;
    [destruct (ok c2) eqn:H2; cbn;
     [destruct (ok c3) eqn:H3; cbn; [destruct (ok c4) eqn:H4; cbn|]|]|
    |destruct (ok c2) eqn:H2; cbn; [destruct (ok c3) eqn:H3; cbn|]|].
  all: split; [split; congruence|].
  all: split; [try reflexivity; try discriminate|].
  all: split; [|reflexivity].
  all: intros before c after E Hb Hc.
  all: try (exfalso; pose proof (Hcases _ _ _ _ E Hb Hc) as Hall; cbn in Hall;
            rewrite ?H1, ?H2, ?H3, ?H4 in Hall; discriminate).
  all: repeat (destruct before as [|b before];
               [injection E as <- E; rewrite ?H1, ?H2, ?H3, ?H4 in Hc;
                first [discriminate | split; reflexivity]
               |injection E as <- E; cbn [forallb] in Hb;
                rewrite ?H1, ?H2, ?H3, ?H4 in Hb; cbn in Hb; try discriminate]).
  all: try (destruct before; discriminate).
Qed.

Lemma setWindowBounds_stops_at_failure_witness :
  Window.run (Window.setWindowBounds 1920 1080 true)
    (fun c => match c with Window.SetWindowBounds "normal" _ => false | _ => true end)
  = ({| Window.calls := [ Window.CreateCDPSession; Window.GetWindowForTarget;
                          Window.SetWindowBounds "normal" (Some (2000, 1240)) ];
        Window.console := [] |}, None)
  /\ snd (Window.run (Window.setWindowBounds 1920 1080 true) (fun _ => true)) = Some tt.
Proof.
  split; [reflexivity|].
  apply (proj1 (setWindowBounds_stops_at_failure 1920 1080 true (fun _ => true))).
  reflexivity.
Defined.

(** X13.  The fullscreen block of [handleChannelStream] never throws.
    When the evaluation in the page settles, the window is minimized
    next whatever the page function returned -- fullscreen obtained or
    not; when the evaluation rejects, the block logs the error and makes
    no further call. *)
Theorem fullscreenBlock_best_effort (d : Window.Document) (ok : Window.Call -> bool) :
  let r := Window.run (Window.fullscreenBlock d) ok in
  snd r = Some tt
  /\ (ok Window.Evaluate = true ->
      exists rest,
        Window.calls (fst r)
        = [Window.Evaluate; Window.Delay 100]
            ++ Window.calls (fst (Window.run Window.minimizeWindow ok))
        /\ Window.console (fst r)
           = [ Window.RequestingFullscreen;
               if snd (Window.inPage d) then Window.FullscreenRequested
               else Window.FullscreenNotAvailable; rest ]
        /\ Window.console (fst (Window.run Window.minimizeWindow ok)) = [rest])
  /\ (ok Window.Evaluate = false ->
      Window.calls (fst r) = [Window.Evaluate]
      /\ Window.console (fst r)
         = [Window.RequestingFullscreen; Window.FullscreenToggleError]).
Proof.
  intros r. subst r. run_block.
  destruct (ok Window.Evaluate); cbn.
  - destruct (ok Window.CreateCDPSession); cbn;
      [destruct (ok Window.GetWindowForTarget); cbn;
       [destruct (ok (Window.SetWindowBounds "minimized" None)); cbn;
        [destruct (ok (Window.SetWebLifecycleState "active")); cbn;
         [destruct (ok (Window.SetFocusEmulationEnabled true)); cbn|]|]|]|].
    all: split; [reflexivity|]; split; [|discriminate]; intros _;
      eexists; split; [reflexivity|]; split; reflexivity.
  - split; [reflexivity|]. split; [discriminate|]. intros _. split; reflexivity.
Qed.

(** A page whose video element has no fullscreen method, though the
    document has one. *)
Definition plainVideo : Window.Document :=
  {| Window.video := Some {| Window.requestFullscreen := None;
                            Window.webkitRequestFullscreen := None |};
     Window.documentElement := {| Window.requestFullscreen := Some true;
                                  Window.webkitRequestFullscreen := None |} |}.

Lemma fullscreenBlock_best_effort_witness :
  snd (Window.inPage plainVideo) = false
  /\ In (Window.SetWindowBounds "minimized" None)
        (Window.calls (fst (Window.run (Window.fullscreenBlock plainVideo) (fun _ => true)))).
Proof.
  split; [reflexivity|].
  destruct (proj1 (proj2 (fullscreenBlock_best_effort plainVideo (fun _ => true))) eq_refl)
    as (rest & E & _).
  rewrite E. cbn. auto 10.
Defined.

(** ** Properties of the endpoints *)

Lemma prefix_cons (a c : ascii) (p t : string) :
  String.prefix (String a p) (String c t)
  = if ascii_dec a c then String.prefix p t else false.
Proof. reflexivity. Qed.

Lemma beforeColon_spec (host : string) :
  Js.includes (Hdhr.beforeColon host) ":" = false
  /\ (Js.includes host ":" = false -> Hdhr.beforeColon host = host)
  /\ exists rest, host = (Hdhr.beforeColon host ++ rest)%string
                  /\ (rest = ""%string \/ exists r, rest = String ":" r).
Proof.
  induction host as [|c r (Hn & Hsame & rest & E & Hr)].
  - repeat split; auto. exists ""%string. auto.
  - cbn [Hdhr.beforeColon]. destruct (Ascii.eqb_spec c ":") as [->|Hc].
    + split; [reflexivity|]. split.
      * intros H. rewrite includes_cons in H. apply orb_false_iff in H as [H _].
        rewrite prefix_cons in H. destruct (ascii_dec ":" ":"); [|congruence].
        destruct r; discriminate H.
      * exists (String ":" r). rewrite append_nil. eauto.
    + assert (Hp : forall t, String.prefix ":" (String c t) = false)
        by (intros t; rewrite prefix_cons; destruct (ascii_dec ":" c); [congruence|reflexivity]).
      split; [now rewrite includes_cons, Hp, Hn|]. split.
      * rewrite includes_cons, Hp. cbn [orb]. intros H. now rewrite (Hsame H).
      * exists rest. rewrite append_cons, <- E. auto.
Qed.

Lemma append_assoc (a b c : string) : ((a ++ b) ++ c)%string = (a ++ b ++ c)%string.
Proof. induction a as [|x a IH]; [reflexivity|]. now rewrite !append_cons, IH. Qed.

(** X14.  The address the index page shows for Plex is made of the
    request's protocol, the text of its Host header before the first
    colon, and the server's own port: a Host header [name:port] with no
    colon in [name] gives [protocol://name:argv.port] whatever [port]
    is, and a header without a colon is taken whole. *)
Theorem plexAddress_uses_own_port (protocol name rest : string) (port : Z) :
  Js.includes name ":" = false ->
  Hdhr.plexAddress protocol (name ++ String ":" rest) port
  = (protocol ++ "://" ++ name ++ ":" ++ Js.String_of_number port)%string
  /\ Hdhr.plexAddress protocol name port
     = (protocol ++ "://" ++ name ++ ":" ++ Js.String_of_number port)%string.
Proof.
  intros Hn. unfold Hdhr.plexAddress.
  assert (E : Hdhr.beforeColon (name ++ String ":" rest) = name).
  { clear port protocol. induction name as [|c r IH]; [reflexivity|].
    rewrite includes_cons in Hn. apply orb_false_iff in Hn as [Hp Hr].
    rewrite append_cons. cbn [Hdhr.beforeColon].
    destruct (Ascii.eqb_spec c ":") as [->|_]; [|now rewrite IH].
    rewrite prefix_cons in Hp. destruct (ascii_dec ":" ":"); [|congruence].
    destruct r; discriminate Hp. }
  rewrite E. split; [reflexivity|].
  now rewrite (proj1 (proj2 (beforeColon_spec name)) Hn).
Qed.

Lemma plexAddress_uses_own_port_witness :
  Hdhr.plexAddress "http" "tuner.local:5004" 5589 = "http://tuner.local:5589"%string.
Proof.
  exact (proj1 (plexAddress_uses_own_port "http" "tuner.local" "5004" 5589 eq_refl)).
Defined.

(** X15.  What the server advertises is served by it.  The lineup URL of
    [/discover.json] and every stream URL of [/lineup.json] and
    [/playlist.m3u] start with the base URL of [/discover.json]; and the
    key of every item of [/lineup.json] is dispatched by
    [/stream/:channelName] to the channel the item names, also when it
    comes through the redirect of the second port. *)
Theorem advertised_urls_are_served (protocol host hostname : string) (port : Z) :
  let base := Hdhr.BaseURL (Hdhr.discover protocol host) in
  Hdhr.LineupURL (Hdhr.discover protocol host) = (base ++ "/lineup.json")%string
  /\ (forall item, In item (Tuner.lineup Tuner.CHANNELS protocol host) ->
        exists key ch,
          In (key, ch) Tuner.CHANNELS
          /\ Tuner.URL item = (base ++ "/stream/" ++ key)%string
          /\ Tuner.GuideName item = Tuner.name ch
          /\ Tuner.streamRoute key = Tuner.Dispatch (Js.Own ch) key
          /\ Hdhr.redirect protocol hostname port key
             = (protocol ++ "://" ++ hostname ++ ":" ++ Js.String_of_number port
                  ++ "/stream/" ++ key)%string)
  /\ (forall entry, In entry (Tuner.playlistEntries Tuner.CHANNELS protocol host) ->
        exists key header,
          In key (map fst Tuner.CHANNELS)
          /\ entry = (header ++ Tuner.newline ++ base ++ "/stream/" ++ key)%string).
Proof.
  cbn [Hdhr.discover Hdhr.BaseURL Hdhr.LineupURL]. split; [|split].
  - now rewrite !append_assoc.
  - intros item Hitem. unfold Tuner.lineup in Hitem.
    apply in_map_iff in Hitem as (key & <- & Hkey).
    assert (Hk : In key (map fst Tuner.CHANNELS)).
    { apply (Permutation_in _ (Object_keys_perm Tuner.CHANNELS)). exact Hkey. }
    clear Hkey. apply in_map_iff in Hk as ([k ch] & <- & Hin). cbn [fst].
    exists k, ch. split; [exact Hin|].
    unfold Tuner.lineupItem, Tuner.nameText, Tuner.streamUrl. cbn [Tuner.URL Tuner.GuideName].
    split; [now rewrite !append_assoc|].
    rewrite (getOwn_In Tuner.CHANNELS k ch CHANNELS_keys_distinct Hin).
    split; [reflexivity|]. split; [|reflexivity].
    unfold Tuner.CHANNELS in Hin. simpl in Hin.
    repeat (destruct Hin as [Hin|Hin]; [injection Hin as <- <-; vm_compute; reflexivity|]).
    contradiction.
  - intros entry Hentry. unfold Tuner.playlistEntries in Hentry.
    apply in_map_iff in Hentry as (key & <- & Hkey).
    assert (Hk : In key (map fst Tuner.CHANNELS)).
    { apply (Permutation_in _ (Object_keys_perm Tuner.CHANNELS)).
      unfold Tuner.playlistOrder in Hkey.
      apply (Permutation_in _ (sort_perm (Tuner.byNumber Tuner.CHANNELS) _)). exact Hkey. }
    exists key. eexists. split; [exact Hk|].
    unfold Tuner.playlistEntry, Tuner.streamUrl.
    rewrite <- !append_assoc. reflexivity.
Qed.

Lemma advertised_urls_are_served_witness :
  exists key ch,
    Tuner.streamRoute key = Tuner.Dispatch (Js.Own ch) key
    /\ Tuner.name ch = "Fox Sports 503"%string.
Proof.
  pose proof (advertised_urls_are_served "http" "tuner.local:5589" "tuner.local" 5589) as H.
  cbv zeta in H. destruct H as (_ & H & _).
  destruct (H {| Tuner.GuideNumber := "503"; Tuner.GuideName := "Fox Sports 503";
                 Tuner.URL := "http://tuner.local:5589/stream/503" |})
    as (key & ch & _ & _ & Hn & Hr & _).
  - vm_compute. left. reflexivity.
  - exists key, ch. split; [exact Hr|]. cbn [Tuner.GuideName] in Hn. now symmetry.
Defined.

(** * More about the event loop *)

(** ** What the status endpoint and the refusals show *)

(** X16.  In every state the server can be in, the counter
    [activeStreams], which [/status.json] reports as [ActiveStreams], is
    the number of sessions whose [_countedStream] flag is set, and so is
    never negative. *)
Theorem status_counts_slot_holders (mpegts : bool) (t : list Event) :
  let s := run mpegts t initial in
  Hdhr.ActiveStreams (Hdhr.status s) = held (sessions s)
  /\ 0 <= Hdhr.ActiveStreams (Hdhr.status s)
  /\ Hdhr.MaxStreams (Hdhr.status s) = 2.
Proof.
  intros s. destruct (reachable mpegts t) as (_ & Hb & _). fold s in Hb.
  cbn [Hdhr.status Hdhr.ActiveStreams Hdhr.MaxStreams]. rewrite Hb.
  split; [reflexivity|]. split; [apply held_nonneg|reflexivity].
Qed.

Lemma get_Undefined (key : string) :
  Js.get Tuner.CHANNELS key = Js.Undefined <->
  ~ In key (map fst Tuner.CHANNELS) /\ ~ In key Js.Object_prototype.
Proof.
  unfold Js.get.
  destruct (Js.getOwn Tuner.CHANNELS key) as [ch|] eqn:Hown.
  - split; [discriminate|]. intros [Hk _]. exfalso. apply Hk.
    clear Hk. revert Hown. generalize Tuner.CHANNELS.
    induction l as [|[k v] l IH]; cbn; [discriminate|].
    destruct (String.eqb_spec k key); auto.
  - assert (Hk : ~ In key (map fst Tuner.CHANNELS)).
    { revert Hown. generalize Tuner.CHANNELS.
      induction l as [|[k v] l IH]; cbn; [tauto|].
      destruct (String.eqb_spec k key) as [->|Hne]; [discriminate|]. intros H [E|Hin]; auto.
      now apply IH. }
    destruct (existsb (String.eqb key) Js.Object_prototype) eqn:Hp.
    + split; [discriminate|]. intros [_ Hn]. exfalso. apply Hn.
      apply existsb_exists in Hp as (x & Hx & E). apply String.eqb_eq in E. now subst.
    + split; [intros _|reflexivity]. split; [exact Hk|]. intros Hin.
      assert (existsb (String.eqb key) Js.Object_prototype = true)
        by (apply existsb_exists; exists key; split; [exact Hin|apply String.eqb_refl]).
      congruence.
Qed.

(** Whether a string is made of ASCII characters: code units below
    128. *)
Fixpoint isAscii (s : string) : bool :=
  match s with
  | EmptyString => true
  | String c r => (nat_of_ascii c <? 128)%nat && isAscii r
  end.

Lemma sameLetter_lowered (c : ascii) : sameLetter c (Js.lowerAscii c) = true.
Proof. destruct c as [[|] [|] [|] [|] [|] [|] [|] [|]]; vm_compute; reflexivity. Qed.

Lemma caseVariant_lowered (p : string) : caseVariant p (Js.toLowerCase p) = true.
Proof.
  induction p as [|c p IH]; simpl; [reflexivity|]. now rewrite sameLetter_lowered, IH.
Qed.

Lemma lowerAscii_twice (c : ascii) : Js.lowerAscii (Js.lowerAscii c) = Js.lowerAscii c.
Proof. destruct c as [[|] [|] [|] [|] [|] [|] [|] [|]]; vm_compute; reflexivity. Qed.

Lemma toLowerCase_twice (p : string) :
  Js.toLowerCase (Js.toLowerCase p) = Js.toLowerCase p.
Proof. induction p as [|c p IH]; simpl; [reflexivity|]. now rewrite lowerAscii_twice, IH. Qed.

(** The keys that [CHANNELS[channelName]] finds: the configured ones
    and the two lower-case members of [Object.prototype]. *)
Definition foundKeys : list string :=
  map fst Tuner.CHANNELS ++ ["constructor"; "__proto__"].

Lemma found_or_Undefined (name : string) :
  Js.toLowerCase name = name ->
  In name foundKeys \/ Js.get Tuner.CHANNELS name = Js.Undefined.
Proof.
  intros Hlow.
  destruct (in_dec string_dec name (map fst Tuner.CHANNELS)) as [Hk|Hk];
    [left; apply in_or_app; now left|].
  destruct (in_dec string_dec name Js.Object_prototype) as [Hp|Hp].
  - left. apply in_or_app. right. unfold Js.Object_prototype in Hp. simpl in Hp.
    repeat (destruct Hp as [Hp|Hp];
            [subst name; first [now left|right; now left|discriminate Hlow]|]).
    contradiction.
  - right. now apply get_Undefined.
Qed.

(** X17.  For a key of ASCII characters, [/stream/<key>] is refused
    exactly when the key is no case variant of a configured key, of
    [constructor] or of [__proto__]: then the answer is 404 with the
    list of the configured keys, no session is started, and the
    counter, the queue, the browser and the pages stay as they are;
    otherwise the handler of a channel session starts. *)
Theorem refused_requests_change_nothing (mpegts : bool) (s : State) (param : string) :
  isAscii param = true ->
  let refusal :=
    Rejected 404
      ("Channel not found. Available channels: "
         ++ "503, 505, 506, 507, espn, footy, cricket, league, news, racing, ufc, espn2")%string in
  let s' := step mpegts (Request param) s in
  ((forall k, In k foundKeys -> caseVariant param k = false) ->
   activeStreams s' = activeStreams s /\ waiters s' = waiters s
   /\ currentBrowser s' = currentBrowser s /\ pagesInUse s' = pagesInUse s
   /\ nextPage s' = nextPage s /\ sessions s' = sessions s
   /\ log s' = log s ++ [refusal])
  /\ (forall k, In k foundKeys -> caseVariant param k = true ->
        Js.get Tuner.CHANNELS k <> Js.Undefined
        /\ s' = start ChannelStream (Js.get Tuner.CHANNELS k) s
        /\ sessions s' = sessions s ++ [newSession ChannelStream (Js.get Tuner.CHANNELS k)]).
Proof.
  intros _ refusal s'. subst refusal s'. split.
  - intros Hno.
    assert (Hget : Js.get Tuner.CHANNELS (Js.toLowerCase param) = Js.Undefined).
    { destruct (found_or_Undefined _ (toLowerCase_twice param)) as [Hin|E]; [|exact E].
      specialize (Hno _ Hin). now rewrite caseVariant_lowered in Hno. }
    unfold step, Tuner.streamRoute. rewrite Hget. repeat split.
  - intros k Hk Hcase. apply caseVariant_lower in Hcase.
    assert (Hlow : Js.toLowerCase k = k /\ Js.get Tuner.CHANNELS k <> Js.Undefined).
    { unfold foundKeys, Tuner.CHANNELS in Hk. simpl in Hk.
      repeat (destruct Hk as [Hk|Hk]; [subst k; split; [reflexivity|discriminate]|]).
      contradiction. }
    destruct Hlow as [Hlow Hdef]. split; [exact Hdef|].
    assert (E : step mpegts (Request param) s = start ChannelStream (Js.get Tuner.CHANNELS k) s).
    { unfold step, Tuner.streamRoute. rewrite Hcase, Hlow.
      destruct (Js.get Tuner.CHANNELS k); [reflexivity..|contradiction]. }
    split; [exact E|]. rewrite E. destruct s. reflexivity.
Qed.

Lemma refused_requests_change_nothing_witness :
  log (step true (Request "ESPN3") initial)
  = [Rejected 404
       ("Channel not found. Available channels: "
          ++ "503, 505, 506, 507, espn, footy, cricket, league, news, racing, ufc, espn2")%string]
  /\ sessions (step true (Request "Constructor") initial)
     = [newSession ChannelStream (Js.Inherited "constructor")].
Proof.
  split.
  - apply (proj1 (refused_requests_change_nothing true initial "ESPN3" eq_refl)).
    intros k Hk. unfold foundKeys, Tuner.CHANNELS in Hk. simpl in Hk.
    repeat (destruct Hk as [<-|Hk]; [reflexivity|]). contradiction.
  - apply (proj2 (refused_requests_change_nothing true initial "Constructor" eq_refl)
             "constructor"); [|reflexivity].
    unfold foundKeys. apply in_or_app. right. now left.
Defined.

(** ** Callers are woken in the order in which they joined the queue *)

(** The callers that joined the queue split in two: an initial part in
    which nobody waits any more, which holds the woken callers in their
    order, and the rest. *)
Definition served (s : State) : Prop :=
  exists l1 l2, enqueued (log s) = l1 ++ l2
                /\ woken (log s) `sublist_of` l1
                /\ forall j, In j l1 -> waiting s j = false.

Lemma not_waiting_stays (mpegts : bool) (e : Event) (s : State) (j : nat) :
  queueInv s -> In j (enqueued (log s)) -> waiting s j = false ->
  waiting (step mpegts e s) j = false.
Proof.
  intros Hq Hj Hw. pose proof Hq as (_ & _ & Hph).
  assert (P : phaseOf s j = Some 2%nat).
  { rewrite waiting_phase in Hw. destruct (Hph j Hj) as [E|E]; rewrite E in Hw |- *;
      [discriminate|reflexivity]. }
  destruct (step_settled mpegts e s j Hq P) as [P' _]. now rewrite waiting_phase, P'.
Qed.

Lemma app_eq_prefix (l1 l2 before after : list nat) (w : nat) :
  l1 ++ l2 = before ++ w :: after -> ~ In w l1 ->
  exists m, before = l1 ++ m.
Proof.
  revert before. induction l1 as [|a l1 IH]; intros before E Hw; [eauto|].
  destruct before as [|b before]; cbn in E.
  - injection E as -> _. exfalso. apply Hw. now left.
  - injection E as -> E. destruct (IH before E) as [m ->]; [|now exists m].
    intros H. apply Hw. now right.
Qed.

Lemma step_served (mpegts : bool) (e : Event) (s : State) :
  queueInv s -> served s -> served (step mpegts e s).
Proof.
  intros Hq (l1 & l2 & El & Hsub & Hl1). pose proof Hq as (_ & Hwq & _).
  assert (Hstay : forall j, In j l1 -> waiting (step mpegts e s) j = false).
  { intros j Hj. apply not_waiting_stays; auto. rewrite El. apply in_or_app. now left. }
  destruct (step_queue mpegts e s)
    as [(_ & Ee & Ew & _)
       |[(i & _ & _ & _ & Ee & Ew & _)
        |[(i & _ & _ & _ & _ & Ee & Ew & _)
         |(_ & Ee & Ew & Epc & _)]]].
  - exists l1, l2. rewrite Ee, Ew. auto.
  - exists l1, (l2 ++ [i]). rewrite Ee, Ew, El, app_assoc. auto.
  - exists l1, l2. rewrite Ee, Ew. auto.
  - destruct (waiters s) as [|w rest] eqn:Hws.
    + exists l1, l2. rewrite Ee, Ew. cbn. rewrite app_nil_r. auto.
    + symmetry in Hwq. destruct (filter_head _ _ _ _ Hwq) as (before & after & Eb & Hb & Hw & _).
      assert (Hnot : ~ In w l1) by (intros H; rewrite (Hl1 w H) in Hw; discriminate).
      rewrite El in Eb. destruct (app_eq_prefix _ _ _ _ _ Eb Hnot) as [m ->].
      exists ((l1 ++ m) ++ [w]), after. rewrite Ee, Ew, El, Eb. cbn [firstn].
      split; [now rewrite <- !app_assoc|]. split.
      * apply sublist_app; [now apply sublist_inserts_r|reflexivity].
      * intros j Hj. apply in_app_or in Hj as [Hj|[<-|[]]].
        -- apply not_waiting_stays; auto.
           rewrite El, Eb. apply in_or_app. now left.
        -- unfold waiting. rewrite (Epc w eq_refl); [reflexivity|].
           rewrite waiting_phase in Hw. destruct (phaseOf s w) as [[|[|?]]|]; try discriminate.
           reflexivity.
Qed.

Lemma run_served (mpegts : bool) (t : list Event) (s : State) :
  queueInv s -> served s -> served (run mpegts t s).
Proof.
  revert s. induction t as [|e t IH]; intros s Hq Hs; cbn [run]; [exact Hs|].
  apply IH; [now apply step_queueInv|now apply step_served].
Qed.

(** X18.  Callers are woken in the order in which they joined the
    queue, and none of them twice: in every state the server can be in,
    the sequence of woken callers is a subsequence of the sequence of
    callers that joined -- of two woken callers, the one woken first
    joined first. *)
Theorem wake_order_is_arrival_order (mpegts : bool) (t : list Event) :
  let s := run mpegts t initial in
  woken (log s) `sublist_of` enqueued (log s)
  /\ List.NoDup (woken (log s))
  /\ (forall l1 a l2 b l3,
        woken (log s) = l1 ++ a :: l2 ++ b :: l3 ->
        a <> b /\ exists m1 m2 m3, enqueued (log s) = m1 ++ a :: m2 ++ b :: m3).
Proof.
  intros s.
  assert (Hserved : served s).
  { apply run_served; [apply initial_queueInv|]. exists [], [].
    split; [reflexivity|]. split; [reflexivity|]. intros j []. }
  destruct (reachable mpegts t) as (_ & _ & _ & (Hnd & _) & _). fold s in Hnd.
  destruct Hserved as (l1 & l2 & El & Hsub & _).
  assert (Hs : woken (log s) `sublist_of` enqueued (log s))
    by (rewrite El; now apply sublist_inserts_r).
  assert (Hndw : List.NoDup (woken (log s))).
  { apply NoDup_ListNoDup. apply (sublist_NoDup _ _ (proj2 (NoDup_ListNoDup _) Hnd) Hs). }
  split; [exact Hs|]. split; [exact Hndw|].
  intros k1 a k2 b k3 Ew. split.
  - intros <-. rewrite Ew in Hndw. apply NoDup_remove_2 in Hndw. apply Hndw.
    apply in_or_app. right. apply in_or_app. right. now left.
  - rewrite Ew in Hs. apply sublist_app_cons_l in Hs as (m1 & r & Er & _ & Hs).
    apply sublist_app_cons_l in Hs as (m2 & m3 & -> & _ & _).
    exists m1, m2, m3. exact Er.
Qed.

Lemma wake_order_is_arrival_order_witness :
  exists m1 m2 m3,
    enqueued (log (run true (twoQueued ++ [Fire 0 ResClose; Fire 1 ResClose]) initial))
    = m1 ++ 2%nat :: m2 ++ 3%nat :: m3.
Proof.
  pose proof (wake_order_is_arrival_order true
                (twoQueued ++ [Fire 0 ResClose; Fire 1 ResClose])) as H.
  cbv zeta in H. destruct H as (_ & _ & H).
  destruct (H [] 2%nat [] 3%nat []) as [_ H']; [vm_compute; reflexivity|exact H'].
Defined.

(** ** A slot taken after the cleanup has run *)

Definition countedOf (s : State) (j : nat) : option bool :=
  (fun y => countedStream y) <$> (sessions s !! j).

Lemma counted_taken (i j : nat) (l : list Session) :
  (fun y => countedStream y) <$> (l !! j) = Some true ->
  (fun y => countedStream y) <$> (alter (withCounted true) i l !! j) = Some true.
Proof.
  intros H. rewrite list_lookup_alter. case_decide; [subst j|exact H].
  destruct (l !! i); [reflexivity|discriminate].
Qed.

Lemma counted_started (l : list Session) (x : Session) (j : nat) :
  (fun y => countedStream y) <$> (l !! j) = Some true ->
  (fun y => countedStream y) <$> ((l ++ [x]) !! j) = Some true.
Proof.
  intros H. rewrite lookup_app_l; [exact H|].
  destruct (l !! j) eqn:E; [|discriminate]. now apply lookup_lt_Some in E.
Qed.

Ltac counted_views :=
  repeat first
    [ rewrite (lookup_alter_keep (fun y => countedStream y) (withPc _))
        by (intros ?; reflexivity)
    | rewrite (lookup_alter_keep (fun y => countedStream y) (withStream true))
        by (intros ?; reflexivity)
    | rewrite (lookup_alter_keep (fun y => countedStream y) (withPage _))
        by (intros ?; reflexivity)
    | rewrite (lookup_alter_keep (fun y => countedStream y) (withFfmpeg _))
        by (intros ?; reflexivity)
    | rewrite (lookup_alter_keep (fun y => countedStream y) (settle false))
        by (intros ?; apply counted_settle)
    | rewrite (lookup_wakeHead_keep (fun y => countedStream y))
        by (intros ?; apply counted_settle) ].

Ltac counted_case Hx :=
  let j := fresh "j" in let Hd := fresh "Hd" in let Hc := fresh "Hc" in
  intros j Hd Hc; unfold doneOf, countedOf in *; cbn [sessions id] in *;
  counted_views;
  first
    [ exact Hc
    | apply counted_taken; exact Hc
    | apply counted_started; exact Hc
    | match goal with
      | |- context [alter tidy ?i _ !! ?j] =>
          destruct (Nat.eq_dec i j) as [<-|Hne];
          [ rewrite ?(lookup_alter_keep (fun y => done_ y) (withStream true)) in Hd
              by (intros ?; reflexivity);
            rewrite Hx in Hd; discriminate Hd
          | rewrite list_lookup_alter_ne by exact Hne; counted_views; exact Hc ]
      end ].

Lemma step_keeps_slot (mpegts : bool) (e : Event) (s : State) :
  forall j, doneOf s j = Some true -> countedOf s j = Some true ->
            countedOf (step mpegts e s) j = Some true.
Proof.
  split_event mpegts e s.
  all: crunch; split_conds; crunch.
  all: try solve [counted_case Hx].
  all: try solve [destruct dn, cs; open_cleanup Hx; crunch; counted_case Hx].
  pose proof (lookup_withStream _ _ _ Hx) as Hx'.
  cbn [kind channel pc page stream ffmpegProcess done_ countedStream] in Hx'.
  destruct dn, cs; open_cleanup Hx'; crunch; clear Hx'; counted_case Hx.
Qed.

Lemma run_keeps_slot (mpegts : bool) (t : list Event) (s : State) (j : nat) :
  doneOf s j = Some true -> countedOf s j = Some true ->
  doneOf (run mpegts t s) j = Some true /\ countedOf (run mpegts t s) j = Some true.
Proof.
  revert s. induction t as [|e t IH]; intros s Hd Hc; cbn [run]; [auto|].
  apply IH; [now apply step_frozen|now apply step_keeps_slot].
Qed.

(** X19.  A slot taken after the cleanup has run is never given back.
    When the handler of a session whose cleanup has already run resumes
    from [waitForStreamSlot] with a slot, it increments the counter and
    sets [_countedStream]; from then on, whatever happens, the flag
    stays set, no decrement is made for the session, and the counter
    stays above zero. *)
Theorem slot_after_cleanup_is_kept
  (mpegts : bool) (t t' : list Event) (i : nat) (x : Session) (o : Outcome) :
  let s := run mpegts t initial in
  let s' := step mpegts (Settle i o) s in
  let s'' := run mpegts t' s' in
  sessions s !! i = Some x -> done_ x = true -> pc x = WaitingSlot (Settled true) ->
  activeStreams s' = activeStreams s + 1
  /\ countedOf s'' i = Some true
  /\ 1 <= activeStreams s''
  /\ occurrences (decrementedBy i) (log s'') = occurrences (decrementedBy i) (log s)
  /\ occurrences (notifiedBy i) (log s'') = occurrences (notifiedBy i) (log s).
Proof.
  intros s s' s'' Hx Hd Hp.
  assert (Hstep : activeStreams s' = activeStreams s + 1 /\ countedOf s' i = Some true).
  { subst s'. clearbody s. clear s''.
    destruct s as [a q b n ps np ss lg]. unfold step. cbn [sessions] in *. rewrite Hx.
    destruct x as [k c p pg st ff dn cs]. cbn in Hd, Hp. subst dn p.
    destruct k; [unfold resumeChannel|unfold resumeGeneric]; cbn [kind pc]; crunch;
      unfold countedOf; cbn [sessions];
      rewrite list_alter_alter_eq, list_lookup_alter_eq, Hx; auto. }
  destruct Hstep as (Ha & Hc).
  assert (Hdone : doneOf s i = Some true) by (rewrite (doneOf_lookup _ _ _ Hx); now rewrite Hd).
  destruct (step_frozen mpegts (Settle i o) s i Hdone) as (Hd' & _ & _ & E3 & E4).
  fold s' in Hd', E3, E4.
  destruct (run_keeps_slot mpegts t' s' i Hd' Hc) as [Hd'' Hc''].
  destruct (run_frozen mpegts t' s' i Hd') as (_ & _ & _ & F3 & F4).
  fold s'' in Hd'', Hc'', F3, F4.
  split; [exact Ha|]. split; [exact Hc''|]. split; [|split; congruence].
  assert (Hb : balanced s'').
  { subst s'' s' s. change (step mpegts (Settle i o) (run mpegts t initial))
      with (run mpegts [Settle i o] (run mpegts t initial)).
    rewrite <- !run_app. apply (reachable mpegts (t ++ [Settle i o] ++ t')). }
  unfold countedOf in Hc''. destruct (sessions s'' !! i) as [y|] eqn:Hy; [|discriminate].
  injection Hc'' as Hcy. rewrite Hb.
  pose proof (held_pos _ i y Hy Hcy). lia.
Qed.

Lemma slot_after_cleanup_is_kept_witness :
  1 <= activeStreams
         (run true [Settle 2 (Threw "closed"); Fire 2 ResClose; Fire 1 ResClose;
                    Settle 3 Ok; Fire 3 ResClose]
            (step true (Settle 2 Ok)
               (run true (twoQueued ++ [Fire 2 ReqAborted; Fire 0 ResClose]) initial))).
Proof.
  pose proof (slot_after_cleanup_is_kept true
                (twoQueued ++ [Fire 2 ReqAborted; Fire 0 ResClose])
                [Settle 2 (Threw "closed"); Fire 2 ResClose; Fire 1 ResClose;
                 Settle 3 Ok; Fire 3 ResClose] 2
                (withDone true
                   (withPc (WaitingSlot (Settled true))
                      (withStream true
                         (withPage (Some 2%nat)
                            (newSession ChannelStream
                               (Js.Own (Tuner.kayo "5bcefccee4b0a8faf3c14aef"
                                          "Fox Sports News" 500)))))))
                Ok) as H.
  cbv zeta in H. destruct H as (_ & _ & H & _);
    [vm_compute; reflexivity|reflexivity|reflexivity|exact H].
Defined.

(** ** A cleanup call for a slot taken late *)

(** The turns that leave session 2 of [twoQueued] with a slot taken
    after its cleanup: the client of session 2 goes away while the
    session waits in the queue, session 0 ends and its release wakes
    session 2, and the handler of session 2 resumes. *)
Definition lateSlot : list Event :=
  twoQueued ++ [Fire 2 ReqAborted; Fire 0 ResClose; Settle 2 Ok].

Lemma run_snoc (mpegts : bool) (t : list Event) (e : Event) (s : State) :
  run mpegts (t ++ [e]) s = step mpegts e (run mpegts t s).
Proof. now rewrite run_app. Qed.

(** A slot held by a session whose guard is set stays held. *)
Lemma guarded_slot_stays (mpegts : bool) (t t' : list Event) (i : nat) :
  let s := run mpegts t initial in
  let s' := run mpegts t' s in
  doneOf s i = Some true -> countedOf s i = Some true ->
  occurrences (ranBy i) (log s') = occurrences (ranBy i) (log s)
  /\ occurrences (decrementedBy i) (log s') = occurrences (decrementedBy i) (log s)
  /\ occurrences (notifiedBy i) (log s') = occurrences (notifiedBy i) (log s)
  /\ countedOf s' i = Some true
  /\ 1 <= activeStreams s'.
Proof.
  intros s s' Hd Hc.
  destruct (run_frozen mpegts t' s i Hd) as (_ & F1 & _ & F3 & F4).
  destruct (run_keeps_slot mpegts t' s i Hd Hc) as [_ Hc'].
  fold s' in F1, F3, F4, Hc'.
  split; [exact F1|]. split; [exact F3|]. split; [exact F4|]. split; [exact Hc'|].
  assert (Hb : balanced s').
  { subst s' s. rewrite <- run_app. apply (reachable mpegts (t ++ t')). }
  clearbody s'. unfold countedOf in Hc'.
  destruct (sessions s' !! i) as [y|] eqn:Hy; [|discriminate].
  injection Hc' as Hcy. rewrite Hb. pose proof (held_pos _ i y Hy Hcy). lia.
Qed.

(** C1.  The body of the cleanup of session 2 ran when its client went
    away, before the session had a slot.  The session then takes a slot;
    when its channel selection fails, the handler calls [cleanup] for a
    session that holds an admission slot, and the call finds the guard
    set: the counter is not decremented and nobody is woken, in that
    turn or in any later one, whatever calls [cleanup] again.  The slot
    is held for good. *)
Theorem cleanup_misses_late_slot (mpegts : bool) (t' : list Event) :
  let s := run mpegts lateSlot initial in
  let s' := step mpegts (Settle 2 (Threw "closed")) s in
  let s'' := run mpegts t' s' in
  countedOf s 2 = Some true
  /\ invoked (Settle 2 (Threw "closed")) s = Some 2%nat
  /\ occurrences (ranBy 2) (log s) = 1%nat
  /\ activeStreams s' = activeStreams s
  /\ woken (log s') = woken (log s)
  /\ occurrences (ranBy 2) (log s'') = 1%nat
  /\ occurrences (decrementedBy 2) (log s'') = 0%nat
  /\ occurrences (notifiedBy 2) (log s'') = 0%nat
  /\ countedOf s'' 2 = Some true
  /\ 1 <= activeStreams s''.
Proof.
  cbv zeta.
  split; [destruct mpegts; vm_compute; reflexivity|].
  split; [destruct mpegts; vm_compute; reflexivity|].
  split; [destruct mpegts; vm_compute; reflexivity|].
  split; [destruct mpegts; vm_compute; reflexivity|].
  split; [destruct mpegts; vm_compute; reflexivity|].
  rewrite <- run_snoc.
  destruct (guarded_slot_stays mpegts (lateSlot ++ [Settle 2 (Threw "closed")]) t' 2)
    as (F1 & F3 & F4 & Hc & Ha).
  - destruct mpegts; vm_compute; reflexivity.
  - destruct mpegts; vm_compute; reflexivity.
  - rewrite F1, F3, F4. split; [destruct mpegts; vm_compute; reflexivity|].
    split; [destruct mpegts; vm_compute; reflexivity|].
    split; [destruct mpegts; vm_compute; reflexivity|].
    split; [exact Hc|exact Ha].
Qed.

(** ** A session is answered at most once *)

(** The statuses of the error responses sent to session [i], in order. *)
Definition answers (i : nat) (l : list Effect) : list Z :=
  flat_map (fun e => match e with
                     | Responded j status _ => if Nat.eqb j i then [status] else []
                     | _ => []
                     end) l.

(** The promise of [waitForStreamSlot] has resolved to [false] and the
    handler of session [j] has not resumed yet. *)
Definition waitedOut (s : State) (j : nat) : bool :=
  match pcOf s j with
  | Some (WaitingSlot (Settled false)) => true
  | _ => false
  end.

Lemma answers_app (i : nat) (l k : list Effect) :
  answers i (l ++ k) = answers i l ++ answers i k.
Proof. apply flat_map_app. Qed.

Lemma answers_cleanupEffects (j i : nat) (reason : string) (x : Session) (a : Z)
      (q : list nat) :
  answers j (cleanupEffects i reason x a q) = [].
Proof.
  unfold cleanupEffects.
  destruct x as [k c p [pg|] [|] [[sd [|]]|] dn [|]]; destruct (0 <? a); destruct q as [|w q];
    reflexivity.
Qed.

(** What a turn does to session [j]: nothing; its start; the next marks
    of its script; or a failure, with one error response. *)
Definition answersKept (s s' : State) (j : nat) : Prop :=
  spotOf s' j = spotOf s j /\ answers j (log s') = answers j (log s)
  /\ history j (log s') = history j (log s).

Definition answersBegun (s s' : State) (j : nat) : Prop :=
  spotOf s j = None /\ (exists k, spotOf s' j = Some (k, At 1))
  /\ answers j (log s') = answers j (log s)
  /\ history j (log s') = history j (log s) ++ [Began AcquirePage].

Definition answersMoved (s s' : State) (j : nat) : Prop :=
  exists k n d,
    spotOf s j = Some (k, At n)
    /\ history j (log s') = history j (log s) ++ d
    /\ spotOf s' j = Some (k, At (n + length d))
    /\ answers j (log s') = answers j (log s).

Definition answersFailed (s s' : State) (j : nat) : Prop :=
  exists k n d,
    spotOf s j = Some (k, At n) /\ spotOf s' j = Some (k, AfterFailure)
    /\ answers j (log s') = answers j (log s) ++ [if waitedOut s j then 429 else 500]
    /\ history j (log s') = history j (log s) ++ d
    /\ (n + length d < length (script k))%nat.

Lemma start_answers (a : Z) (q : list nat) (b : option nat) (n : nat) (ps : gset nat)
      (np : nat) (ss : list Session) (lg : list Effect) (k : Kind)
      (c : Js.Property Tuner.Channel) (j : nat) :
  let s := {| activeStreams := a; waiters := q; currentBrowser := b; launches := n;
              pagesInUse := ps; nextPage := np; sessions := ss; log := lg |} in
  let s' := {| activeStreams := a; waiters := q; currentBrowser := b; launches := n;
               pagesInUse := ps; nextPage := np; sessions := ss ++ [newSession k c];
               log := lg ++ [Progress (length ss) (Began AcquirePage)] |} in
  answersKept s s' j \/ answersBegun s s' j.
Proof.
  intros s s'. unfold answersKept, answersBegun, spotOf. cbn [s s' sessions log].
  rewrite history_app, answers_app. cbn [history answers flat_map app].
  rewrite !app_nil_r.
  destruct (lt_eq_lt_dec j (length ss)) as [[Hlt|Heq]|Hgt].
  - left. rewrite lookup_app_l by exact Hlt.
    destruct (Nat.eqb_spec (length ss) j); [lia|]. now rewrite app_nil_r.
  - right. subst j. rewrite list_lookup_middle by reflexivity.
    rewrite lookup_ge_None_2 by lia. rewrite Nat.eqb_refl.
    split; [reflexivity|]. split; [exists k; now destruct k|]. split; reflexivity.
  - left. rewrite !lookup_ge_None_2; [|lia|rewrite length_app; cbn; lia].
    destruct (Nat.eqb_spec (length ss) j); [lia|]. now rewrite app_nil_r.
Qed.

Ltac answers_here Hx :=
  unfold waitedOut, pcOf; cbn [sessions];
  rewrite ?Nat.eqb_refl, ?Hx; rewrite ?decide_True by reflexivity;
  cbn [app fmap option_fmap option_map];
  first
    [ left; split; [reflexivity|split; rewrite ?app_nil_r; reflexivity]
    | right; right; left; eexists _, _, _;
      split; [reflexivity|];
      split; [reflexivity|];
      split; [reflexivity|rewrite ?app_nil_r; reflexivity]
    | right; right; right; eexists _, _, _;
      split; [reflexivity|];
      split; [reflexivity|];
      split; [reflexivity|];
      split; [reflexivity|cbn; lia] ].

Ltac answers_there Hne :=
  let Hb := fresh "Hb" in
  match type of Hne with
  | ?i <> ?j =>
      assert (Hb : Nat.eqb i j = false) by (now apply Nat.eqb_neq);
      rewrite ?Hb; rewrite ?decide_False by exact Hne;
      cbn [app]; rewrite ?option_fmap_id, ?app_nil_r;
      left; split; [reflexivity|split; reflexivity]
  end.

Ltac answers_case Hx :=
  let j := fresh "j" in
  intros j; unfold answersKept, answersBegun, answersMoved, answersFailed; spots;
  rewrite ?history_app, ?answers_app, ?history_cleanupEffects, ?answers_cleanupEffects,
    <- ?app_assoc;
  cbn [history answers flat_map];
  match goal with
  | Hx : _ !! ?i = Some _ |- _ =>
      destruct (Nat.eq_dec i j) as [<-|Hne]; [answers_here Hx|answers_there Hne]
  end.

Lemma step_answers (mpegts : bool) (e : Event) (s : State) :
  forall j, answersKept s (step mpegts e s) j
            \/ answersBegun s (step mpegts e s) j
            \/ answersMoved s (step mpegts e s) j
            \/ answersFailed s (step mpegts e s) j.
Proof.
  split_event mpegts e s.
  all: crunch; split_conds; crunch.
  all: try solve [intros j; left; split; [reflexivity|]; cbn [log];
                  rewrite ?history_app, ?answers_app; cbn; now rewrite ?app_nil_r].
  all: try solve [intros j; destruct (start_answers a q b n ps np ss lg ChannelStream c j); auto].
  all: try solve [intros j;
                  destruct (start_answers a q b n ps np ss lg GenericStream Js.Undefined j); auto].
  all: try solve [answers_case Hx].
  all: try solve [destruct dn, cs; open_cleanup Hx; crunch; answers_case Hx].
  pose proof (lookup_withStream _ _ _ Hx) as Hx'.
  cbn [kind channel pc page stream ffmpegProcess done_ countedStream] in Hx'.
  destruct dn, cs; open_cleanup Hx'; crunch; clear Hx'; answers_case Hx.
Qed.

(** A session that has not failed has no error response; one that has
    failed has exactly one, with status 429 or 500, and has not come to
    the end of its script. *)
Definition answered (s : State) : Prop :=
  forall j, match spotOf s j with
            | None => answers j (log s) = []
            | Some (_, At _) => answers j (log s) = []
            | Some (k, AfterFailure) =>
                (exists st, answers j (log s) = [st] /\ (st = 429 \/ st = 500))
                /\ (length (history j (log s)) < length (script k))%nat
            | Some (_, Unused) => False
            end.

Lemma step_answered (mpegts : bool) (e : Event) (s : State) :
  scripted s -> answered s -> answered (step mpegts e s).
Proof.
  intros Hs Ha j. specialize (Hs j). specialize (Ha j).
  destruct (step_answers mpegts e s j)
    as [(-> & -> & ->)
       |[(Hn & (k & ->) & -> & _)
        |[(k & n & d & Hk & _ & -> & ->)
         |(k & n & d & Hk & -> & -> & -> & Hlen)]]].
  - exact Ha.
  - now rewrite Hn in Ha.
  - now rewrite Hk in Ha.
  - rewrite Hk in Ha, Hs. rewrite Ha, Hs. split.
    + eexists. split; [reflexivity|]. destruct (waitedOut s j); auto.
    + rewrite length_app, length_firstn. lia.
Qed.

Lemma run_answered (mpegts : bool) (t : list Event) (s : State) :
  scripted s -> answered s -> answered (run mpegts t s).
Proof.
  revert s. induction t as [|e t IH]; intros s Hs Ha; cbn [run]; [exact Ha|].
  apply IH; [now apply step_scripted|now apply step_answered].
Qed.

Lemma Responded_answers (i : nat) (status : Z) (body : string) (l : list Effect) :
  In (Responded i status body) l -> In status (answers i l).
Proof.
  intros H. unfold answers. apply in_flat_map. exists (Responded i status body).
  split; [exact H|]. rewrite Nat.eqb_refl. now left.
Qed.

Lemma short_of_piping (k : Kind) (m : nat) :
  (length (firstn m (script k)) < length (script k))%nat ->
  ~ In (Entered PipingStage) (firstn m (script k)).
Proof.
  destruct k; cbn [script];
    do 14 (destruct m as [|m]; [intros H; cbn in H |- *; first [lia|intuition congruence]|]);
    cbn; lia.
Qed.

(** X20.  A session is answered at most once.  The handlers send an
    error response to a session at most once, with status 429 or 500,
    and exactly the sessions whose handler has returned after a failure
    have one; exactly the sessions that are piping have entered the
    Piping state; so no session gets both an error response and the
    stream. *)
Theorem answered_at_most_once (mpegts : bool) (t : list Event) (i : nat) (x : Session) :
  let s := run mpegts t initial in
  sessions s !! i = Some x ->
  (length (answers i (log s)) <= 1)%nat
  /\ (forall status body, In (Responded i status body) (log s) ->
        (status = 429 \/ status = 500) /\ pc x = Returned)
  /\ (answers i (log s) <> [] <-> pc x = Returned)
  /\ (In (Entered PipingStage) (history i (log s)) <-> pc x = Piping)
  /\ (answers i (log s) <> [] -> ~ In (Entered PipingStage) (history i (log s))).
Proof.
  intros s Hx.
  destruct (reachable mpegts t) as (_ & _ & _ & _ & Hs). fold s in Hs.
  assert (Ha : answered s).
  { apply run_answered; [apply initial_scripted|]. intros j. reflexivity. }
  specialize (Hs i). specialize (Ha i). rewrite (spotOf_lookup _ _ _ Hx) in Hs, Ha.
  assert (Hcases :
    (answers i (log s) = [] /\ pc x <> Returned
     /\ (In (Entered PipingStage) (history i (log s)) <-> pc x = Piping))
    \/ ((exists st, answers i (log s) = [st] /\ (st = 429 \/ st = 500)) /\ pc x = Returned
        /\ ~ In (Entered PipingStage) (history i (log s)))).
  { destruct x as [k c p pg st ff dn cs]. cbn [kind pc] in *.
    destruct k, p as [| | |w| | | | |]; cbn [place] in Hs, Ha; try contradiction.
    all: try (left; split; [exact Ha|]; split; [discriminate|]; rewrite Hs; cbn;
              split; [intuition congruence|first [discriminate|intros _; auto 20]]).
    all: right; destruct Ha as [Ha Hlen]; split; [exact Ha|]; split; [reflexivity|];
      destruct Hs as [m Hm]; rewrite Hm in Hlen |- *; now apply short_of_piping. }
  destruct Hcases as [(E & Hp & Hpipe)|((st & E & Hst) & Hp & Hpipe)].
  - rewrite E. split; [cbn; lia|]. split; [|split; [|split]].
    + intros status body Hin. apply Responded_answers in Hin. rewrite E in Hin. destruct Hin.
    + split; [congruence|]. intros H. congruence.
    + exact Hpipe.
    + congruence.
  - rewrite E. split; [cbn; lia|]. split; [|split; [|split]].
    + intros status body Hin. apply Responded_answers in Hin. rewrite E in Hin.
      destruct Hin as [<-|[]]. auto.
    + split; [auto|discriminate].
    + split; [tauto|]. intros H. rewrite Hp in H. discriminate.
    + intros _. exact Hpipe.
Qed.

Lemma answered_at_most_once_witness :
  answers 0 (log (run true [Request "espn"; Settle 0 (Threw "no browser");
                            Settle 0 Ok; Fire 0 ResClose] initial)) <> [].
Proof.
  apply (proj2 (proj1 (proj2 (proj2
           (answered_at_most_once true
              [Request "espn"%string; Settle 0 (Threw "no browser"); Settle 0 Ok;
               Fire 0 ResClose] 0
              (withPc Returned
                 (withDone true
                    (newSession ChannelStream
                       (Js.Own (Tuner.kayo "5bce8eb9e4b0a8faf3c14a94" "ESPN" 509)))))
              ltac:(vm_compute; reflexivity)))))).
  reflexivity.
Defined.

(** ** Who is refused with 429 *)

(** What a session's control state says about its wait: 1 while its
    promise is pending, 2 once it has resolved to [false] and the
    handler has not resumed, 0 otherwise. *)
Definition waitView (x : Session) : nat :=
  match pc x with
  | WaitingSlot (Queued _) => 1
  | WaitingSlot (Settled false) => 2
  | _ => 0
  end.

Definition settleView (b : bool) (n : nat) : nat :=
  match n with
  | 1%nat => if b then 0%nat else 2%nat
  | _ => n
  end.

Definition waitViewOf (s : State) (j : nat) : option nat :=
  (fun x => waitView x) <$> (sessions s !! j).

Lemma waitView_settle (b : bool) (i j : nat) (l : list Session) :
  (fun y => waitView y) <$> (alter (settle b) i l !! j)
  = (if decide (i = j) then settleView b else id) <$> ((fun y => waitView y) <$> (l !! j)).
Proof.
  rewrite list_lookup_alter. case_decide as Hij.
  - subst j. destruct (l !! i) as [y|]; [|reflexivity]. cbn. f_equal.
    destruct y as [k c p pg st ff dn cs]. unfold settle, waitView. cbn.
    destruct p as [| | |[ms|[|]]| | | | |]; destruct b; reflexivity.
  - destruct (l !! j); reflexivity.
Qed.

Lemma waitView_goto (c : Pc) (i j : nat) (l : list Session) :
  (fun y => waitView y) <$> (alter (withPc c) i l !! j)
  = (if decide (i = j)
     then fun _ => waitView (withPc c (newSession ChannelStream Js.Undefined))
     else id) <$> ((fun y => waitView y) <$> (l !! j)).
Proof.
  rewrite list_lookup_alter. case_decide as Hij.
  - subst j. destruct (l !! i); reflexivity.
  - destruct (l !! j); reflexivity.
Qed.

Lemma waitView_wakeHead (q : list nat) (l : list Session) (j : nat) :
  exists f, (fun y => waitView y) <$> (wakeHead q l !! j)
            = f <$> ((fun y => waitView y) <$> (l !! j))
            /\ (f = id \/ f = settleView true).
Proof.
  destruct q as [|w q]; cbn [wakeHead].
  - exists id. split; [now destruct (l !! j)|now left].
  - rewrite waitView_settle. case_decide; eexists; split; eauto.
Qed.

Lemma waitView_started (l : list Session) (x : Session) (j : nat) :
  waitView x = 0%nat ->
  (fun y => waitView y) <$> ((l ++ [x]) !! j) = Some 2%nat ->
  (fun y => waitView y) <$> (l !! j) = Some 2%nat.
Proof.
  intros Hx. destruct (lt_eq_lt_dec j (length l)) as [[Hlt|Heq]|Hgt].
  - now rewrite lookup_app_l.
  - subst j. rewrite list_lookup_middle by reflexivity. cbn. rewrite Hx. discriminate.
  - rewrite lookup_ge_None_2; [discriminate|]. rewrite length_app. cbn. lia.
Qed.

Ltac wait_views :=
  repeat first
    [ rewrite waitView_goto
    | rewrite waitView_settle
    | rewrite (lookup_alter_keep (fun y => waitView y) tidy) by (intros ?; reflexivity)
    | rewrite (lookup_alter_keep (fun y => waitView y) (withStream true))
        by (intros ?; reflexivity)
    | rewrite (lookup_alter_keep (fun y => waitView y) (withCounted true))
        by (intros ?; reflexivity)
    | rewrite (lookup_alter_keep (fun y => waitView y) (withPage _))
        by (intros ?; reflexivity)
    | rewrite (lookup_alter_keep (fun y => waitView y) (withFfmpeg _))
        by (intros ?; reflexivity)
    | match goal with
      | |- context [(fun y => waitView y) <$> (wakeHead ?q ?l !! ?j)] =>
          let f := fresh "f" in let E := fresh "E" in let Hf := fresh "Hf" in
          destruct (waitView_wakeHead q l j) as (f & E & [Hf|Hf]); rewrite E; clear E; subst f
      end ].

Ltac wait_case :=
  let j := fresh "j" in let H := fresh "H" in
  intros j; unfold waitViewOf; cbn [sessions id];
  wait_views;
  repeat case_decide;
  match goal with
  | |- context [(fun y => waitView y) <$> (?l !! j)] =>
      destruct ((fun y => waitView y) <$> (l !! j)) as [[|[|[|?]]]|]
  end;
  cbn; intros H; first [discriminate H | now left | now right].

(** The promise of a session resolves to [false] only in a turn before
    which the session was waiting in the queue. *)
Lemma step_refusal (mpegts : bool) (e : Event) (s : State) :
  forall j, waitViewOf (step mpegts e s) j = Some 2%nat ->
            waitViewOf s j = Some 2%nat \/ waitViewOf s j = Some 1%nat.
Proof.
  split_event mpegts e s.
  all: crunch; split_conds; crunch.
  all: try solve [intros j H; now left].
  all: try solve [intros j H; left; unfold waitViewOf in *; cbn [sessions] in *;
                  apply waitView_started in H; [exact H|reflexivity]].
  all: try solve [wait_case].
  all: try solve [destruct dn, cs; open_cleanup Hx; crunch; wait_case].
  pose proof (lookup_withStream _ _ _ Hx) as Hx';
    cbn [kind channel pc page stream ffmpegProcess done_ countedStream] in Hx';
    destruct dn, cs; open_cleanup Hx'; crunch; clear Hx'; wait_case.
Qed.

Lemma waitedOut_view (s : State) (j : nat) :
  waitedOut s j = true <-> waitViewOf s j = Some 2%nat.
Proof.
  unfold waitViewOf, waitedOut, pcOf, waitView.
  destruct (sessions s !! j) as [x|]; cbn; [|split; discriminate].
  destruct (pc x) as [| | |[ms|[|]]| | | | |]; cbn; split; congruence.
Qed.

Lemma waiting_view (s : State) (j : nat) :
  waitViewOf s j = Some 1%nat -> phaseOf s j = Some 1%nat.
Proof.
  unfold waitViewOf, phaseOf, phase, waitView.
  destruct (sessions s !! j) as [x|]; [|discriminate]. cbn.
  destruct (pc x) as [| | |[ms|[|]]| | | | |]; cbn; congruence.
Qed.

Lemma waitedOut_phase (s : State) (j : nat) :
  waitedOut s j = true -> phaseOf s j = Some 2%nat.
Proof.
  unfold waitedOut, pcOf, phaseOf, phase.
  destruct (sessions s !! j) as [x|]; cbn; [|discriminate].
  destruct (pc x) as [| | |[ms|[|]]| | | | |]; cbn; congruence.
Qed.

(** Every session that waits in the queue has joined it. *)
Definition joined (s : State) : Prop :=
  forall j, phaseOf s j = Some 1%nat -> In j (enqueued (log s)).

Lemma step_enqueued (mpegts : bool) (e : Event) (s : State) (j : nat) :
  In j (enqueued (log s)) -> In j (enqueued (log (step mpegts e s))).
Proof.
  intros Hj.
  destruct (step_queue mpegts e s)
    as [(_ & -> & _)
       |[(i & _ & _ & _ & -> & _)
        |[(i & _ & _ & _ & _ & -> & _)
         |(_ & -> & _)]]]; auto.
  apply in_or_app. now left.
Qed.

Lemma step_joined (mpegts : bool) (e : Event) (s : State) :
  joined s -> joined (step mpegts e s).
Proof.
  intros Hs j Hj.
  destruct (step_queue mpegts e s)
    as [(_ & Ee & _ & Ep)
       |[(i & _ & _ & _ & Ee & _ & Ep)
        |[(i & _ & P2 & _ & _ & Ee & _ & Ep)
         |(_ & Ee & _ & _ & Ep)]]]; rewrite Ee.
  - destruct (Ep j) as [E|[[_ E]|[_ E]]]; [|congruence..]. apply Hs. congruence.
  - destruct (Nat.eq_dec j i) as [->|Hne]; [apply in_or_app; right; now left|].
    apply in_or_app. left. apply Hs. rewrite <- Ep; auto.
  - destruct (Nat.eq_dec j i) as [->|Hne]; [congruence|]. apply Hs. rewrite <- Ep; auto.
  - destruct (Ep j) as [E|[[_ E]|[_ [E _]]]]; [|congruence..]. apply Hs. congruence.
Qed.

(** A session whose wait timed out, or that was answered 429, joined
    the queue, was not woken, and is past its admission. *)
Definition refusals (s : State) : Prop :=
  forall i, waitedOut s i = true \/ In 429 (answers i (log s)) ->
            In i (enqueued (log s)) /\ ~ In i (woken (log s))
            /\ phaseOf s i = Some 2%nat.

Lemma woken_not_waiting (s : State) (j : nat) :
  served s -> In j (woken (log s)) -> waiting s j = false.
Proof.
  intros (l1 & l2 & _ & Hsub & Hl1) Hj. apply Hl1.
  apply list_elem_of_In. eapply elem_of_sublist; [|exact Hsub]. now apply list_elem_of_In.
Qed.

Lemma step_refusals (mpegts : bool) (e : Event) (s : State) :
  queueInv s -> served s -> joined s -> refusals s -> refusals (step mpegts e s).
Proof.
  intros Hq Hsv Hjn Hr i Hi.
  assert (Hold : (waitedOut s i = true \/ In 429 (answers i (log s)))
                 \/ (phaseOf s i = Some 1%nat /\ waitedOut (step mpegts e s) i = true)).
  { destruct Hi as [Hi|Hi].
    - apply waitedOut_view in Hi. destruct (step_refusal mpegts e s i Hi) as [H|H].
      + left. left. now apply waitedOut_view.
      + right. split; [now apply waiting_view|now apply waitedOut_view].
    - left.
      destruct (step_answers mpegts e s i)
        as [(_ & E & _)
           |[(_ & _ & E & _)
            |[(k & n & d & _ & _ & _ & E)
             |(k & n & d & _ & _ & E & _)]]]; rewrite E in Hi; auto.
      apply in_app_or in Hi. destruct Hi as [Hi|Hi]; [now right|].
      destruct (waitedOut s i); [now left|]. cbn in Hi. intuition discriminate. }
  destruct Hold as [Hold|[Hph Hout]].
  - destruct (Hr i Hold) as (He & Hw & Hp).
    destruct (step_settled mpegts e s i Hq Hp) as (Hp' & d & Ed & Hd).
    split; [now apply step_enqueued|]. split; [|exact Hp'].
    rewrite Ed. intros Hin. apply in_app_or in Hin. tauto.
  - split; [apply step_enqueued, Hjn, Hph|]. split; [|now apply waitedOut_phase].
    assert (Hnw : ~ In i (woken (log s))).
    { intros Hin. apply (woken_not_waiting _ _ Hsv) in Hin.
      rewrite waiting_phase, Hph in Hin. discriminate. }
    destruct (step_woken mpegts e s Hq) as [->|(w & rest & _ & _ & -> & Hpc)]; [exact Hnw|].
    intros Hin. apply in_app_or in Hin. destruct Hin as [Hin|[<-|[]]]; [tauto|].
    unfold waitedOut in Hout. rewrite Hpc in Hout. discriminate.
Qed.

Lemma run_refusals (mpegts : bool) (t : list Event) (s : State) :
  queueInv s -> served s -> joined s -> refusals s -> refusals (run mpegts t s).
Proof.
  revert s. induction t as [|e t IH]; intros s Hq Hsv Hjn Hr; cbn [run]; [exact Hr|].
  apply IH; [now apply step_queueInv|now apply step_served|now apply step_joined
            |now apply step_refusals].
Qed.

(** X21.  The handlers answer 429 only to callers that waited in vain:
    in every state the server can be in, a session that was answered
    429 had joined the queue of waiters, was never woken by a released
    slot, and 429 is the only response it got. *)
Theorem refused_only_after_waiting (mpegts : bool) (t : list Event) (i : nat)
        (body : string) :
  let s := run mpegts t initial in
  In (Responded i 429 body) (log s) ->
  In i (enqueued (log s)) /\ ~ In i (woken (log s)) /\ answers i (log s) = [429].
Proof.
  intros s Hin.
  assert (Hr : refusals s).
  { apply run_refusals.
    - apply initial_queueInv.
    - exists [], []. split; [reflexivity|]. split; [constructor|]. intros j [].
    - intros j Hj. discriminate Hj.
    - intros j [Hj|[]]. discriminate Hj. }
  apply Responded_answers in Hin.
  destruct (Hr i (or_intror Hin)) as (He & Hw & _).
  split; [exact He|]. split; [exact Hw|].
  assert (Ha : answered s).
  { apply run_answered; [apply initial_scripted|]. intros j. reflexivity. }
  specialize (Ha i). destruct (spotOf s i) as [[k [n| |]]|].
  - rewrite Ha in Hin. destruct Hin.
  - destruct Ha as [(st & E & _) _]. rewrite E in Hin |- *. destruct Hin as [->|[]]. reflexivity.
  - contradiction.
  - rewrite Ha in Hin. destruct Hin.
Qed.

Lemma refused_only_after_waiting_witness :
  In 2%nat (enqueued (log (run true (twoQueued ++ [Timer 2; Settle 2 Ok]) initial)))
  /\ ~ In 2%nat (woken (log (run true (twoQueued ++ [Timer 2; Settle 2 Ok]) initial))).
Proof.
  pose proof (refused_only_after_waiting true (twoQueued ++ [Timer 2; Settle 2 Ok]) 2
                "Too many concurrent streams (timed out waiting for a slot)") as H.
  cbv zeta in H. destruct H as (H1 & H2 & _).
  - vm_compute. tauto.
  - split; [exact H1|exact H2].
Defined.

(** ** The pool of pages *)

(** Whether a session still waits for its page, the page it has and
    the guard of its [cleanup]. *)
Definition acquiring (c : Pc) : bool :=
  match c with AcquiringPage => true | _ => false end.

Definition pv (x : Session) : bool * option nat * bool :=
  (acquiring (pc x), page x, done_ x).

Definition pvOf (s : State) (j : nat) : option (bool * option nat * bool) :=
  pv <$> (sessions s !! j).

(** The pages closed by the [cleanup] of session [j]. *)
Definition closedPages (j : nat) (l : list Effect) : list nat :=
  flat_map (fun e => match e with
                     | PageClosed i p => if Nat.eqb i j then [p] else []
                     | _ => []
                     end) l.

Lemma closedPages_app (j : nat) (l k : list Effect) :
  closedPages j (l ++ k) = closedPages j l ++ closedPages j k.
Proof. apply flat_map_app. Qed.

Lemma closedPages_In (j p : nat) (l : list Effect) :
  In (PageClosed j p) l <-> In p (closedPages j l).
Proof.
  unfold closedPages. rewrite in_flat_map. split.
  - intros H. exists (PageClosed j p). split; [exact H|]. rewrite Nat.eqb_refl. now left.
  - intros (e & He & Hp). destruct e; try contradiction.
    destruct (Nat.eqb_spec i j) as [->|]; [|contradiction].
    destruct Hp as [->|[]]. exact He.
Qed.

Lemma closedPages_cleanupEffects (j i : nat) (reason : string) (x : Session) (a : Z)
      (q : list nat) :
  closedPages j (cleanupEffects i reason x a q)
  = if Nat.eqb i j then match page x with Some p => [p] | None => [] end else [].
Proof.
  unfold cleanupEffects. rewrite !closedPages_app.
  destruct (ffmpegProcess x) as [pr|]; [destruct (Transcoder.killed pr)|];
    destruct (stream x), (countedStream x), (0 <? a), q, (page x); cbn;
    destruct (Nat.eqb i j); reflexivity.
Qed.

Lemma pv_settle (b : bool) (y : Session) : pv (settle b y) = pv y.
Proof.
  destruct y as [k c p pg st ff dn cs]. unfold settle. cbn [pc].
  now destruct p as [| | |[|]| | | | |].
Qed.

Lemma pv_tidy (i j : nat) (l : list Session) :
  pv <$> (alter tidy i l !! j)
  = (if decide (i = j) then fun v => (fst v, true) else id) <$> (pv <$> (l !! j)).
Proof.
  rewrite list_lookup_alter. case_decide as Hij.
  - subst j. destruct (l !! i); reflexivity.
  - destruct (l !! j); reflexivity.
Qed.

Lemma pv_withPage (p : option nat) (i j : nat) (l : list Session) :
  pv <$> (alter (withPage p) i l !! j)
  = (if decide (i = j) then fun v => (fst (fst v), p, snd v) else id) <$> (pv <$> (l !! j)).
Proof.
  rewrite list_lookup_alter. case_decide as Hij.
  - subst j. destruct (l !! i); reflexivity.
  - destruct (l !! j); reflexivity.
Qed.

Lemma pv_goto (c : Pc) (i j : nat) (l : list Session) :
  pv <$> (alter (withPc c) i l !! j)
  = (if decide (i = j) then fun v => (acquiring c, snd (fst v), snd v) else id)
      <$> (pv <$> (l !! j)).
Proof.
  rewrite list_lookup_alter. case_decide as Hij.
  - subst j. destruct (l !! i); reflexivity.
  - destruct (l !! j); reflexivity.
Qed.

Ltac pv_views :=
  repeat first
    [ rewrite pv_tidy
    | rewrite pv_withPage
    | rewrite pv_goto
    | rewrite (lookup_alter_keep pv) by (intros ?; first [reflexivity|apply pv_settle])
    | rewrite (lookup_wakeHead_keep pv) by (intros ?; apply pv_settle) ].

(** What a turn does to the pool: nothing, or a session receives a new
    page, or the body of a [cleanup] runs and releases the page the
    session has. *)
Definition poolKept (s s' : State) : Prop :=
  pagesInUse s' = pagesInUse s /\ nextPage s' = nextPage s
  /\ (forall j, closedPages j (log s') = closedPages j (log s))
  /\ forall j, pvOf s' j = pvOf s j
               \/ (pvOf s j = None /\ pvOf s' j = Some (true, None, false))
               \/ (exists pg d, pvOf s j = Some (true, pg, d)
                                /\ pvOf s' j = Some (false, pg, d)).

Definition poolGives (i : nat) (s s' : State) : Prop :=
  exists pg d, pvOf s i = Some (true, pg, d)
    /\ pvOf s' i = Some (false, Some (nextPage s), d)
    /\ pagesInUse s' = {[nextPage s]} ∪ pagesInUse s /\ nextPage s' = S (nextPage s)
    /\ (forall j, closedPages j (log s') = closedPages j (log s))
    /\ forall j, j <> i -> pvOf s' j = pvOf s j.

Definition poolTakes (i : nat) (s s' : State) : Prop :=
  exists aq aq' pg, pvOf s i = Some (aq, pg, false) /\ pvOf s' i = Some (aq', pg, true)
    /\ (aq' = true -> aq = true)
    /\ pagesInUse s' = match pg with Some p => pagesInUse s ∖ {[p]} | None => pagesInUse s end
    /\ nextPage s' = nextPage s
    /\ closedPages i (log s')
       = closedPages i (log s) ++ match pg with Some p => [p] | None => [] end
    /\ forall j, j <> i -> pvOf s' j = pvOf s j
                           /\ closedPages j (log s') = closedPages j (log s).

Lemma start_pool (a : Z) (q : list nat) (b : option nat) (n : nat) (ps : gset nat)
      (np : nat) (ss : list Session) (lg : list Effect) (k : Kind)
      (c : Js.Property Tuner.Channel) :
  poolKept
    {| activeStreams := a; waiters := q; currentBrowser := b; launches := n;
       pagesInUse := ps; nextPage := np; sessions := ss; log := lg |}
    {| activeStreams := a; waiters := q; currentBrowser := b; launches := n;
       pagesInUse := ps; nextPage := np; sessions := ss ++ [newSession k c];
       log := lg ++ [Progress (length ss) (Began AcquirePage)] |}.
Proof.
  split; [reflexivity|]. split; [reflexivity|]. split.
  - intros j. cbn [log]. rewrite closedPages_app. cbn. now rewrite app_nil_r.
  - intros j. unfold pvOf. cbn [sessions].
    destruct (lt_eq_lt_dec j (length ss)) as [[Hlt|Heq]|Hgt].
    + left. now rewrite lookup_app_l.
    + right. left. subst j. rewrite list_lookup_middle by reflexivity.
      rewrite lookup_ge_None_2 by lia. split; reflexivity.
    + left. rewrite !lookup_ge_None_2; [reflexivity|lia|rewrite length_app; cbn; lia].
Qed.

Ltac closed_facts :=
  cbn [log]; rewrite ?closedPages_app, ?closedPages_cleanupEffects;
  cbn [closedPages flat_map app page]; rewrite ?app_nil_r.

Ltac pv_here Hx :=
  unfold pvOf; cbn [sessions id]; pv_views; rewrite ?Hx; rewrite ?decide_True by reflexivity;
  cbn.

Ltac pv_there :=
  unfold pvOf; cbn [sessions id]; pv_views; rewrite ?decide_False by congruence;
  rewrite ?option_fmap_id.

Ltac pool_kept i Hx :=
  left; split; [reflexivity|]; split; [reflexivity|];
  split; [intros ?; closed_facts; reflexivity|];
  let j := fresh "j" in
  intros j; destruct (Nat.eq_dec j i) as [->|?];
  [ pv_here Hx; first [left; reflexivity|right; right; eexists _, _; split; reflexivity]
  | left; pv_there; reflexivity ].

Ltac pool_gives i Hx :=
  right; left; exists i; eexists _, _;
  split; [pv_here Hx; reflexivity|];
  split; [pv_here Hx; reflexivity|];
  split; [reflexivity|]; split; [reflexivity|];
  split; [intros ?; closed_facts; reflexivity|];
  intros ? ?; pv_there; reflexivity.

Ltac pool_takes i Hx :=
  right; right; exists i; eexists _, _, _;
  split; [pv_here Hx; reflexivity|];
  split; [pv_here Hx; reflexivity|];
  split; [cbn; congruence|];
  split; [reflexivity|]; split; [reflexivity|];
  split; [closed_facts; rewrite ?Nat.eqb_refl; rewrite ?app_nil_r; reflexivity|];
  intros ? ?; split;
  [ pv_there; reflexivity
  | closed_facts;
    match goal with
    | |- context [Nat.eqb ?a ?b] => destruct (Nat.eqb_spec a b); [congruence|]
    | _ => idtac
    end; rewrite ?app_nil_r; reflexivity ].

Ltac pool_case i Hx := first [pool_kept i Hx | pool_gives i Hx | pool_takes i Hx].

Lemma step_pool (mpegts : bool) (e : Event) (s : State) :
  poolKept s (step mpegts e s)
  \/ (exists i, poolGives i s (step mpegts e s))
  \/ (exists i, poolTakes i s (step mpegts e s)).
Proof.
  split_event mpegts e s.
  all: crunch; split_conds; crunch.
  all: try solve [left; apply start_pool].
  all: try solve [left; split; [reflexivity|]; split; [reflexivity|];
                  split; [intros ?; closed_facts; reflexivity|]; intros ?; now left].
  all: try solve [pool_case i Hx].
  all: try solve [destruct dn, cs; open_cleanup Hx; crunch; pool_case i Hx].
  pose proof (lookup_withStream _ _ _ Hx) as Hx';
    cbn [kind channel pc page stream ffmpegProcess done_ countedStream] in Hx';
    destruct dn, cs; open_cleanup Hx'; crunch; clear Hx'; pool_case i Hx.
Qed.

(** The pool holds the pages handed out and not yet closed; each of
    them belongs to one session; a session that waits for its page has
    none; only the [cleanup] of its owner closes a page, once. *)
Definition pooled (s : State) : Prop :=
  (forall j pg d, pvOf s j = Some (true, pg, d) -> pg = None)
  /\ (forall p, p ∈ pagesInUse s ->
        exists j aq d, pvOf s j = Some (aq, Some p, d) /\ closedPages j (log s) = [])
  /\ (forall j aq p d, pvOf s j = Some (aq, Some p, d) ->
        (p < nextPage s)%nat
        /\ ((closedPages j (log s) = [] /\ p ∈ pagesInUse s)
            \/ (closedPages j (log s) = [p] /\ (p ∉ pagesInUse s) /\ d = true)))
  /\ (forall i j aq aq' p d d', pvOf s i = Some (aq, Some p, d) ->
        pvOf s j = Some (aq', Some p, d') -> i = j)
  /\ (forall j, (pvOf s j = None \/ exists aq d, pvOf s j = Some (aq, None, d)) ->
        closedPages j (log s) = []).

Lemma initial_pooled : pooled initial.
Proof.
  split; [intros j pg d H; discriminate H|].
  split; [intros p H; set_solver|].
  split; [intros j aq p d H; discriminate H|].
  split; [intros i j aq aq' p d d' H; discriminate H|].
  intros j _. reflexivity.
Qed.

Lemma pooled_open (s : State) (j : nat) (aq : bool) (pg : option nat) :
  pooled s -> pvOf s j = Some (aq, pg, false) -> closedPages j (log s) = [].
Proof.
  intros (_ & _ & H2 & _ & H4) Hj. destruct pg as [p|].
  - destruct (H2 _ _ _ _ Hj) as [_ [[E _]|(_ & _ & E)]]; [exact E|discriminate E].
  - apply H4. right. eauto.
Qed.

Lemma step_pooled (mpegts : bool) (e : Event) (s : State) :
  pooled s -> pooled (step mpegts e s).
Proof.
  intros Hs. pose proof Hs as (H0 & H1 & H2 & H3 & H4).
  destruct (step_pool mpegts e s)
    as [(Eps & Enp & Ecl & Epv)
       |[(i & pg & d & Hi & Hi' & Eps & Enp & Ecl & Epv)
        |(i & aq & aq' & pg & Hi & Hi' & Haq & Eps & Enp & Ecl & Epv)]].
  - assert (Hback : forall j aq p d, pvOf (step mpegts e s) j = Some (aq, Some p, d) ->
                                     exists aq0, pvOf s j = Some (aq0, Some p, d)).
    { intros j aq p d Hj. destruct (Epv j) as [E|[[_ E]|(pg & d0 & E0 & E)]].
      - rewrite E in Hj. eauto.
      - rewrite E in Hj. discriminate Hj.
      - rewrite E in Hj. injection Hj as <- -> ->. eauto. }
    split; [|split; [|split; [|split]]].
    + intros j pg d Hj. destruct (Epv j) as [E|[[_ E]|(pg0 & d0 & E0 & E)]];
        rewrite E in Hj; [eauto|congruence|discriminate Hj].
    + intros p Hp. rewrite Eps in Hp. destruct (H1 p Hp) as (j & aq & d & Hj & Hc).
      exists j. rewrite Ecl.
      destruct (Epv j) as [E|[[E _]|(pg0 & d0 & E0 & E)]].
      * rewrite E. eauto.
      * congruence.
      * rewrite E. rewrite E0 in Hj. injection Hj as <- <- <-. eauto.
    + intros j aq p d Hj. destruct (Hback _ _ _ _ Hj) as [aq0 Hj0].
      rewrite Enp, Ecl, Eps. eauto.
    + intros i j aq aq' p d d' Hi Hj.
      destruct (Hback _ _ _ _ Hi) as [? Hi0]. destruct (Hback _ _ _ _ Hj) as [? Hj0]. eauto.
    + intros j Hj. rewrite Ecl. apply H4.
      destruct (Epv j) as [E|[[E _]|(pg0 & d0 & E0 & E)]].
      * now rewrite <- E.
      * now left.
      * right. destruct Hj as [Hj|(aq & d & Hj)]; rewrite E in Hj; [discriminate Hj|].
        injection Hj as <- <- <-. eauto.
  - pose proof (H0 _ _ _ Hi) as ->.
    assert (Hfresh : forall j aq d, pvOf s j <> Some (aq, Some (nextPage s), d)).
    { intros j aq d0 Hj. destruct (H2 _ _ _ _ Hj) as [Hlt _]. lia. }
    split; [|split; [|split; [|split]]].
    + intros j pg d0 Hj. destruct (Nat.eq_dec j i) as [->|Hne]; [congruence|].
      rewrite Epv in Hj by exact Hne. eauto.
    + intros p Hp. rewrite Eps in Hp. apply elem_of_union in Hp as [Hp|Hp].
      * apply elem_of_singleton in Hp. subst p. exists i, false, d. split; [exact Hi'|].
        rewrite Ecl. apply H4. right. eauto.
      * destruct (H1 p Hp) as (j & aq & d0 & Hj & Hc). exists j, aq, d0. rewrite Ecl.
        split; [|exact Hc]. rewrite Epv; [exact Hj|]. intros ->. congruence.
    + intros j aq p d0 Hj. rewrite Enp, Ecl, Eps. destruct (Nat.eq_dec j i) as [->|Hne].
      * rewrite Hi' in Hj. injection Hj as <- <- <-. split; [lia|]. left.
        split; [apply H4; right; eauto|apply elem_of_union; left; now apply elem_of_singleton].
      * rewrite Epv in Hj by exact Hne. destruct (H2 _ _ _ _ Hj) as [Hlt Hc].
        split; [lia|]. destruct Hc as [[Hc Hin]|(Hc & Hnin & Hd)].
        -- left. split; [exact Hc|apply elem_of_union; now right].
        -- right. split; [exact Hc|]. split; [|exact Hd].
           intros Hin. apply elem_of_union in Hin as [Hin|Hin]; [|tauto].
           apply elem_of_singleton in Hin. lia.
    + intros j1 j2 aq1 aq2 p d1 d2 Hj1 Hj2.
      destruct (Nat.eq_dec j1 i) as [->|Hn1], (Nat.eq_dec j2 i) as [->|Hn2].
      * reflexivity.
      * rewrite Hi' in Hj1. injection Hj1 as <- <- <-. rewrite Epv in Hj2 by exact Hn2.
        now apply Hfresh in Hj2.
      * rewrite Hi' in Hj2. injection Hj2 as <- <- <-. rewrite Epv in Hj1 by exact Hn1.
        now apply Hfresh in Hj1.
      * rewrite Epv in Hj1, Hj2 by assumption. eauto.
    + intros j Hj. rewrite Ecl. apply H4. destruct (Nat.eq_dec j i) as [->|Hne].
      * right. eauto.
      * now rewrite Epv in Hj by exact Hne.
  - pose proof (pooled_open _ _ _ _ Hs Hi) as Hopen. rewrite Hopen in Ecl. cbn [app] in Ecl.
    split; [|split; [|split; [|split]]].
    + intros j pg0 d Hj. destruct (Nat.eq_dec j i) as [->|Hne].
      * rewrite Hi' in Hj. injection Hj as -> <- <-. apply (H0 i pg false).
        now rewrite Hi, Haq.
      * rewrite (proj1 (Epv j Hne)) in Hj. eauto.
    + intros p Hp.
      assert (Hp0 : p ∈ pagesInUse s /\ pg <> Some p).
      { rewrite Eps in Hp. destruct pg as [p0|]; [|split; [exact Hp|discriminate]].
        apply elem_of_difference in Hp as [Hp Hne]. split; [exact Hp|].
        intros [= ->]. apply Hne. now apply elem_of_singleton. }
      destruct Hp0 as [Hp0 Hne]. destruct (H1 p Hp0) as (j & aq0 & d0 & Hj & Hc).
      assert (Hji : j <> i) by (intros ->; congruence).
      exists j, aq0, d0. destruct (Epv j Hji) as [-> ->]. auto.
    + intros j aq0 p d Hj. rewrite Enp. destruct (Nat.eq_dec j i) as [->|Hne].
      * rewrite Hi' in Hj. injection Hj as <- -> <-.
        destruct (H2 _ _ _ _ Hi) as [Hlt _]. split; [exact Hlt|]. right.
        split; [exact Ecl|]. split; [|reflexivity]. rewrite Eps.
        intros Hin. apply elem_of_difference in Hin as [_ Hin]. apply Hin.
        now apply elem_of_singleton.
      * destruct (Epv j Hne) as [Ej Ec]. rewrite Ej in Hj. rewrite Ec.
        destruct (H2 _ _ _ _ Hj) as [Hlt Hc]. split; [exact Hlt|].
        destruct Hc as [[Hc Hin]|(Hc & Hnin & Hd)].
        -- left. split; [exact Hc|]. rewrite Eps. destruct pg as [p0|]; [|exact Hin].
           apply elem_of_difference. split; [exact Hin|]. intros Hp. apply elem_of_singleton in Hp.
           subst p0. apply Hne. eauto.
        -- right. split; [exact Hc|]. split; [|exact Hd]. rewrite Eps.
           destruct pg as [p0|]; [|exact Hnin]. intros Hin.
           apply elem_of_difference in Hin as [Hin _]. tauto.
    + intros j1 j2 aq1 aq2 p d1 d2 Hj1 Hj2.
      assert (Hb : forall j aq0 d, pvOf (step mpegts e s) j = Some (aq0, Some p, d) ->
                                   exists aq1 d1, pvOf s j = Some (aq1, Some p, d1)).
      { intros j aq0 d Hj. destruct (Nat.eq_dec j i) as [->|Hne].
        - rewrite Hi' in Hj. injection Hj as <- -> <-. eauto.
        - rewrite (proj1 (Epv j Hne)) in Hj. eauto. }
      destruct (Hb _ _ _ Hj1) as (? & ? & K1). destruct (Hb _ _ _ Hj2) as (? & ? & K2). eauto.
    + intros j Hj. destruct (Nat.eq_dec j i) as [->|Hne].
      * rewrite Ecl. destruct Hj as [Hj|(aq0 & d & Hj)]; rewrite Hi' in Hj;
          [discriminate Hj|]. injection Hj as <- -> <-. reflexivity.
      * destruct (Epv j Hne) as [Ej Ec]. rewrite Ec. apply H4. now rewrite <- Ej.
Qed.

Lemma run_pooled (mpegts : bool) (t : list Event) (s : State) :
  pooled s -> pooled (run mpegts t s).
Proof.
  revert s. induction t as [|e t IH]; intros s Hs; cbn [run]; [exact Hs|].
  now apply IH, step_pooled.
Qed.

(** X22.  In every state the server can be in, the set [pagesInUse]
    holds exactly the pages that were handed to a handler and have not
    been closed; no two sessions have the same page; a page is closed
    only by the [cleanup] of the session that has it, once, and that
    [cleanup] has run; and a handler that still waits for
    [acquirePage] has no page. *)
Theorem page_pool_tracks_open_pages (mpegts : bool) (t : list Event) :
  let s := run mpegts t initial in
  (forall p, p ∈ pagesInUse s <->
     exists j x, sessions s !! j = Some x /\ page x = Some p
                 /\ ~ In (PageClosed j p) (log s))
  /\ (forall i j x y p, sessions s !! i = Some x -> sessions s !! j = Some y ->
        page x = Some p -> page y = Some p -> i = j)
  /\ (forall j q, In (PageClosed j q) (log s) ->
        closedPages j (log s) = [q]
        /\ exists x, sessions s !! j = Some x /\ page x = Some q /\ done_ x = true)
  /\ (forall j x, sessions s !! j = Some x -> pc x = AcquiringPage -> page x = None).
Proof.
  intros s.
  assert (Hs : pooled s) by apply run_pooled, initial_pooled.
  clearbody s. destruct Hs as (H0 & H1 & H2 & H3 & H4).
  assert (Hpv : forall j x, sessions s !! j = Some x ->
                            pvOf s j = Some (acquiring (pc x), page x, done_ x)).
  { intros j x Hx. unfold pvOf. now rewrite Hx. }
  split; [|split; [|split]].
  - intros p. split.
    + intros Hp. destruct (H1 p Hp) as (j & aq & d & Hj & Hc).
      unfold pvOf in Hj. destruct (sessions s !! j) as [x|] eqn:Hx; [|discriminate Hj].
      injection Hj as _ Hpg _. exists j, x. split; [exact Hx|]. split; [exact Hpg|].
      rewrite closedPages_In, Hc. intros [].
    + intros (j & x & Hx & Hpg & Hnot). apply Hpv in Hx. rewrite Hpg in Hx.
      destruct (H2 _ _ _ _ Hx) as [_ [[_ Hin]|(Hc & _)]]; [exact Hin|].
      exfalso. apply Hnot. rewrite closedPages_In, Hc. now left.
  - intros i j x y p Hx Hy Hpx Hpy. apply Hpv in Hx, Hy. rewrite Hpx in Hx. rewrite Hpy in Hy.
    eauto.
  - intros j q Hin. apply closedPages_In in Hin.
    destruct (sessions s !! j) as [x|] eqn:Hx.
    + pose proof (Hpv _ _ Hx) as Hj. destruct (page x) as [p|] eqn:Hpg.
      * destruct (H2 _ _ _ _ Hj) as [_ [[Hc _]|(Hc & _ & Hd)]]; rewrite Hc in Hin |- *.
        -- destruct Hin.
        -- destruct Hin as [<-|[]]. split; [reflexivity|]. exists x. auto.
      * rewrite H4 in Hin; [destruct Hin|]. right. eauto.
    + rewrite H4 in Hin; [destruct Hin|]. left. unfold pvOf. now rewrite Hx.
  - intros j x Hx Hpc. apply Hpv in Hx. rewrite Hpc in Hx. eauto.
Qed.

Lemma page_pool_tracks_open_pages_witness :
  closedPages 0 (log (run true [Request "espn"; Settle 0 Ok; Fire 0 ResClose] initial))
  = [0%nat].
Proof.
  pose proof (page_pool_tracks_open_pages true
                [Request "espn"; Settle 0 Ok; Fire 0 ResClose]) as H.
  cbv zeta in H. destruct H as (_ & _ & H & _).
  destruct (H 0%nat 0%nat) as [H1 _]; [vm_compute; tauto|exact H1].
Defined.

(** Session [i] has page [p], its [cleanup] has run and has closed no
    page. *)
Definition pageKept (s : State) (i p : nat) : Prop :=
  (exists aq, pvOf s i = Some (aq, Some p, true)) /\ closedPages i (log s) = [].

Lemma step_pageKept (mpegts : bool) (e : Event) (s : State) (i p : nat) :
  pooled s -> pageKept s i p -> pageKept (step mpegts e s) i p.
Proof.
  intros (H0 & _) [[aq Hi] Hc]. unfold pageKept.
  destruct (step_pool mpegts e s)
    as [(_ & _ & Ecl & Epv)
       |[(i' & pg & d & Hi' & _ & _ & _ & Ecl & Epv)
        |(i' & aq0 & aq' & pg & Hi' & _ & _ & _ & _ & _ & Epv)]].
  - split; [|now rewrite Ecl].
    destruct (Epv i) as [E|[[E _]|(pg & d & E0 & E)]].
    + rewrite E. eauto.
    + congruence.
    + rewrite E. rewrite E0 in Hi. injection Hi as <- <- <-. eauto.
  - assert (Hne : i <> i').
    { intros ->. pose proof (H0 _ _ _ Hi') as ->. congruence. }
    split; [|now rewrite Ecl]. rewrite Epv by exact Hne. eauto.
  - assert (Hne : i <> i') by (intros ->; congruence).
    destruct (Epv i Hne) as [-> ->]. split; eauto.
Qed.

Lemma run_pageKept (mpegts : bool) (t : list Event) (s : State) (i p : nat) :
  pooled s -> pageKept s i p -> pooled (run mpegts t s) /\ pageKept (run mpegts t s) i p.
Proof.
  revert s. induction t as [|e t IH]; intros s Hs Hk; cbn [run]; [now split|].
  apply IH; [now apply step_pooled|now apply step_pageKept].
Qed.

Lemma late_page (mpegts : bool) (s : State) (i : nat) :
  pooled s -> pcOf s i = Some AcquiringPage -> doneOf s i = Some true ->
  pageKept (step mpegts (Settle i Ok) s) i (nextPage s).
Proof.
  intros (H0 & _ & _ & _ & H4) Hpc Hdn.
  assert (Hv : pvOf s i = Some (true, None, true)).
  { specialize (H0 i). unfold pcOf, doneOf in Hpc, Hdn. unfold pvOf in H0 |- *.
    destruct (sessions s !! i) as [x|]; [|discriminate Hpc].
    cbn in Hpc, Hdn. injection Hpc as Hpc. injection Hdn as Hdn.
    unfold pv in H0 |- *. cbn [fmap option_fmap option_map] in H0 |- *.
    rewrite Hpc, Hdn in H0 |- *. cbn [acquiring] in H0 |- *.
    now rewrite (H0 (page x) true eq_refl). }
  assert (Hc : closedPages i (log s) = []) by (apply H4; right; eauto).
  clear H0 H4 Hv. destruct s as [a q b n ps np ss lg].
  unfold pcOf, doneOf in Hpc, Hdn. cbn [sessions] in Hpc, Hdn.
  destruct (ss !! i) as [x|] eqn:Hx; [|discriminate Hpc].
  destruct x as [k c p pg st ff dn cs]. cbn in Hpc, Hdn.
  injection Hpc as ->. injection Hdn as ->.
  unfold step. cbn [sessions]. rewrite Hx.
  destruct k; [unfold resumeChannel|unfold resumeGeneric]; cbn [kind pc];
    crunch; split_conds; crunch.
  all: split; [eexists; pv_here Hx; reflexivity|closed_facts; exact Hc].
Qed.

(** X23.  A page that arrives after the cleanup has run is never
    closed: when [acquirePage] fulfils for a handler whose [cleanup] has
    already run (the client went away while the page was being set up),
    the new page is added to [pagesInUse] and given to the handler, and
    whatever happens afterwards it stays in [pagesInUse] and no
    [cleanup] closes it. *)
Theorem page_after_cleanup_is_kept (mpegts : bool) (t t' : list Event) (i : nat) :
  let s := run mpegts t initial in
  let s' := run mpegts t' (step mpegts (Settle i Ok) s) in
  pcOf s i = Some AcquiringPage -> doneOf s i = Some true ->
  nextPage s ∈ pagesInUse s'
  /\ (exists y, sessions s' !! i = Some y /\ page y = Some (nextPage s))
  /\ forall j, ~ In (PageClosed j (nextPage s)) (log s').
Proof.
  intros s s' Hpc Hdn.
  assert (Hs : pooled s) by apply run_pooled, initial_pooled.
  pose proof (late_page mpegts s i Hs Hpc Hdn) as Hk.
  apply (run_pageKept mpegts t') in Hk; [|now apply step_pooled].
  fold s' in Hk. clearbody s'. destruct Hk as [(_ & _ & H2 & H3 & H4) [[aq Hi] Hc]].
  assert (Hin : nextPage s ∈ pagesInUse s').
  { destruct (H2 _ _ _ _ Hi) as [_ [[_ Hin]|(Hc' & _)]]; [exact Hin|congruence]. }
  split; [exact Hin|]. split.
  - unfold pvOf in Hi. destruct (sessions s' !! i) as [y|]; [|discriminate Hi].
    injection Hi as _ Hpg _. eauto.
  - intros j Hj. apply closedPages_In in Hj.
    destruct (pvOf s' j) as [[[aq' [p|]] d]|] eqn:Hv.
    + destruct (H2 _ _ _ _ Hv) as [_ [[Hc' _]|(Hc' & Hnin & _)]]; rewrite Hc' in Hj.
      * destruct Hj.
      * destruct Hj as [->|[]]. contradiction.
    + rewrite H4 in Hj; [destruct Hj|]. right. eauto.
    + rewrite H4 in Hj; [destruct Hj|]. now left.
Qed.

Lemma page_after_cleanup_is_kept_witness :
  nextPage (run true [Request "espn"; Fire 0 ReqAborted] initial)
  ∈ pagesInUse (run true [Settle 0 (Threw "closed"); Fire 0 ResClose]
                  (step true (Settle 0 Ok)
                     (run true [Request "espn"; Fire 0 ReqAborted] initial))).
Proof.
  pose proof (page_after_cleanup_is_kept true [Request "espn"; Fire 0 ReqAborted]
                [Settle 0 (Threw "closed"); Fire 0 ResClose] 0) as H.
  cbv zeta in H. destruct H as (H & _); [vm_compute; reflexivity..|].
  exact H.
Defined.
